(** * CHOpt: Star Power accounting, time conversion and chart construction

    A shallow embedding of the parts of CHOpt that its design document makes
    claims about: the [SpBar] value type and the [SpData] engine (sp.hpp,
    sp.cpp), the measure/beat table of [TimeConverter] (time.cpp) and the
    constructors of [SongHeader], [SyncTrack] and [NoteTrack] (the chart
    part of time.cpp); and of what lies around them: the whammy queries of
    [SpData], the string helpers of the chart parser with [skip_section] and
    [read_sync_track], and the order of the optimiser's [CacheKey]
    (optimiser.hpp).

    Strings.  A [std::string_view] is a list of characters; [npos] is
    [None]; a loop that the source leaves only by [break] or [throw] takes
    a number of passes and says [Running] when they are used up.

    Numbers.  The C++ [double] and [float] are embedded as exact rationals
    ([Q]): every arithmetic operation is the one of the source, without
    rounding, infinities or NaN.  A quotient by zero is 0 in [Q]; the
    properties that rest on a quotient assume its divisor positive (the
    resolution, the terms of a time signature).  Comparisons of rationals are
    written with [Qlt_le_dec], so every definition evaluates.  Equality of SP
    amounts is the equality of rationals [==].  Unsigned 32-bit tick
    arithmetic is written on [Z] with its wrap-around. *)

From Stdlib Require Import Ascii String.
From Stdlib Require Import QArith Qminmax ZArith List Lia Lqa Bool.
From Stdlib Require Import Sorting.Sorted Sorting.Permutation.
Import ListNotations.
Open Scope Q_scope.

(** ** Scalars and the C++ standard library *)

(** [a < b] and [a <= b] on doubles, as booleans. *)
Definition Qltb (a b : Q) : bool := if Qlt_le_dec a b then true else false.
Definition Qleb (a b : Q) : bool := if Qlt_le_dec b a then false else true.

(** [std::min(a, b)] is [(b < a) ? b : a]; [std::max(a, b)] is
    [(a < b) ? b : a]. *)
Definition std_min (a b : Q) : Q := if Qlt_le_dec b a then b else a.
Definition std_max (a b : Q) : Q := if Qlt_le_dec a b then b else a.

(** [std::lower_bound(first, last, value, comp)]: the offset from [first] of
    the first element [x] for which [comp x value] is false.  The range must
    be partitioned with respect to [comp] (elements with [comp] true first);
    on such a range the library's binary search finds exactly this offset. *)
Fixpoint lower_bound {A V : Type} (comp : A -> V -> bool) (l : list A) (v : V)
  : nat :=
  match l with
  | [] => O
  | x :: l' => if comp x v then S (lower_bound comp l' v) else O
  end.

(** ** time.hpp / time.cpp: the time model *)

(** [Position]: a beat together with its measure. *)
Record Position : Type := mkPosition { beat : Q; measure : Q }.

Record TimeSignature : Type := mkTimeSignature
  { ts_position : Z; ts_numerator : Z; ts_denominator : Z }.

Record BPM : Type := mkBPM { bpm_position : Z; bpm_bpm : Z }.

Record SyncTrack : Type := mkSyncTrack
  { time_sigs : list TimeSignature; bpms : list BPM }.

(** [TimeConverter::MeasureTimestamp]: one anchor of the table. *)
Record MeasureTimestamp : Type := mkMeasureTimestamp
  { mt_measure : Q; mt_beat : Q }.

Record TimeConverter : Type := mkTimeConverter
  { m_measure_timestamps : list MeasureTimestamp; m_last_beat_rate : Q }.

Definition DEFAULT_BEAT_RATE : Q := 4.

(** Modelled from the spec: [Beat::to_measure] and [Measure::to_beat] are
    declared in time.hpp, which is not part of the sources at hand.  The spec
    gives the beat rate as "numerator × 4 / denominator beats per measure", so
    a beat count is divided by the rate and a measure count multiplied by it. *)
Definition to_measure (beats beat_rate : Q) : Q := beats / beat_rate.
Definition to_beat (measures beat_rate : Q) : Q := measures * beat_rate.

(** [unsigned] subtraction, 32 bits wide. *)
Definition uint32_sub (a b : Z) : Z := ((a - b) mod 2 ^ 32)%Z.

(** The state of the constructor's loop: [last_tick], [last_beat_rate],
    [last_measure] and the table built so far. *)
Record ConverterLoop : Type := mkConverterLoop
  { last_tick : Z; last_beat_rate : Q; last_measure : Q;
    timestamps : list MeasureTimestamp }.

Definition converter_step (resolution : Q) (st : ConverterLoop)
  (ts : TimeSignature) : ConverterLoop :=
  let last_measure' :=
    last_measure st
    + inject_Z (uint32_sub (ts_position ts) (last_tick st))
      / (resolution * last_beat_rate st) in
  let beat := inject_Z (ts_position ts) / resolution in
  {| last_tick := ts_position ts;
     last_beat_rate :=
       (inject_Z (ts_numerator ts) * DEFAULT_BEAT_RATE)
       / inject_Z (ts_denominator ts);
     last_measure := last_measure';
     timestamps := timestamps st ++ [mkMeasureTimestamp last_measure' beat] |}.

(** [TimeConverter::TimeConverter(sync_track, header)], with the header's
    resolution as its second argument.  The closing [assert] (a non-empty
    table) is not part of the value computed. *)
Definition TimeConverter_ctor (sync_track : SyncTrack) (resolution : Q)
  : TimeConverter :=
  let st := fold_left (converter_step resolution) (time_sigs sync_track)
              (mkConverterLoop 0%Z DEFAULT_BEAT_RATE 0 []) in
  mkTimeConverter (timestamps st) (last_beat_rate st).

(** The three cases of [beats_to_measures] after the [lower_bound]: [prev]
    is the anchor before [pos] ([None] when [pos] is [cbegin()]), the list is
    the table from [pos] on.  Walking the table while [x.beat < beats] holds
    is the linear reading of [std::lower_bound].  On an empty table the
    source reads [back()] of an empty vector; the model gives 0 there. *)
Fixpoint beats_to_measures_from (last_rate : Q) (prev : option MeasureTimestamp)
  (tbl : list MeasureTimestamp) (beats : Q) : Q :=
  match tbl with
  | [] =>
      match prev with
      | None => 0
      | Some back =>
          mt_measure back + to_measure (beats - mt_beat back) last_rate
      end
  | pos :: tbl' =>
      if Qltb (mt_beat pos) beats
      then beats_to_measures_from last_rate (Some pos) tbl' beats
      else
        match prev with
        | None =>
            mt_measure pos
            - to_measure (mt_beat pos - beats) DEFAULT_BEAT_RATE
        | Some prev =>
            mt_measure prev
            + (mt_measure pos - mt_measure prev)
              * ((beats - mt_beat prev) / (mt_beat pos - mt_beat prev))
        end
  end.

Definition beats_to_measures (tc : TimeConverter) (beats : Q) : Q :=
  beats_to_measures_from (m_last_beat_rate tc) None
    (m_measure_timestamps tc) beats.

Fixpoint measures_to_beats_from (last_rate : Q) (prev : option MeasureTimestamp)
  (tbl : list MeasureTimestamp) (measures : Q) : Q :=
  match tbl with
  | [] =>
      match prev with
      | None => 0
      | Some back =>
          mt_beat back + to_beat (measures - mt_measure back) last_rate
      end
  | pos :: tbl' =>
      if Qltb (mt_measure pos) measures
      then measures_to_beats_from last_rate (Some pos) tbl' measures
      else
        match prev with
        | None =>
            mt_beat pos
            - to_beat (mt_measure pos - measures) DEFAULT_BEAT_RATE
        | Some prev =>
            mt_beat prev
            + (mt_beat pos - mt_beat prev)
              * ((measures - mt_measure prev)
                 / (mt_measure pos - mt_measure prev))
        end
  end.

Definition measures_to_beats (tc : TimeConverter) (measures : Q) : Q :=
  measures_to_beats_from (m_last_beat_rate tc) None
    (m_measure_timestamps tc) measures.

(** ** time.cpp, chart part: SongHeader, SyncTrack and NoteTrack *)

Inductive exception : Type :=
| invalid_argument (what : nat).

(** The outcome of a constructor: the object, or the exception thrown. *)
Inductive outcome (A : Type) : Type :=
| Returns (a : A)
| Throws (e : exception).
Arguments Returns {A} a.
Arguments Throws {A} e.

Definition bind {A B : Type} (c : outcome A) (k : A -> outcome B) : outcome B :=
  match c with
  | Returns a => k a
  | Throws e => Throws e
  end.

Notation "x <- c ;; k" := (bind c (fun x => k))
  (at level 61, c at next level, right associativity).

Record SongHeader : Type := mkSongHeader { m_offset : Q; m_resolution : Q }.

(** The message "Songs with resolution < 0 are invalid". *)
Definition resolution_message : nat := 0%nat.

Definition SongHeader_ctor (offset resolution : Q) : outcome SongHeader :=
  if Qleb resolution 0
  then Throws (invalid_argument resolution_message)
  else Returns (mkSongHeader offset resolution).

(** [SyncTrack::SyncTrack] moves its two arguments into place. *)
Definition SyncTrack_ctor (time_sigs : list TimeSignature) (bpms : list BPM)
  : outcome SyncTrack :=
  Returns (mkSyncTrack time_sigs bpms).

(** The two constructions at the end of [Chart::parse_chart]. *)
Definition construct_time_model (offset resolution : Q)
  (time_sigs : list TimeSignature) (bpms : list BPM)
  : outcome (SongHeader * SyncTrack) :=
  header <- SongHeader_ctor offset resolution ;;
  sync_track <- SyncTrack_ctor time_sigs bpms ;;
  Returns (header, sync_track).

Inductive NoteColour : Type := Green | Red | Yellow | Blue | Orange | Open.

(** Modelled from the spec: the declaration of [enum class NoteColour] is in
    song.hpp, which is not part of the sources at hand; [<] on the enumeration
    compares the enumerators' values, taken here in the order of the note
    codes of the chart format. *)
Definition colour_value (c : NoteColour) : Z :=
  match c with
  | Green => 0 | Red => 1 | Yellow => 2 | Blue => 3 | Orange => 4 | Open => 5
  end%Z.

Record Note : Type := mkNote
  { note_position : Z; note_length : Z; note_colour : NoteColour;
    is_forced : bool; is_tap : bool }.

Record StarPower : Type := mkStarPower { sp_position : Z; sp_length : Z }.

(** The comparator given to [std::stable_sort]:
    [std::tie(lhs.position, lhs.colour) < std::tie(rhs.position, rhs.colour)]. *)
Definition note_less (lhs rhs : Note) : bool :=
  (note_position lhs <? note_position rhs)%Z
  || ((note_position lhs =? note_position rhs)%Z
      && (colour_value (note_colour lhs) <? colour_value (note_colour rhs))%Z).

(** [std::stable_sort]: an insertion sort that keeps the input order of notes
    that compare equivalent (a note goes before the notes after it in the
    input that are not less than it). *)
Fixpoint stable_insert {A : Type} (less : A -> A -> bool) (x : A) (l : list A)
  : list A :=
  match l with
  | [] => [x]
  | y :: l' =>
      if less y x then y :: stable_insert less x l' else x :: y :: l'
  end.

Definition stable_sort {A : Type} (less : A -> A -> bool) (l : list A) : list A :=
  fold_right (stable_insert less) [] l.

(** [p->position != prev_note->position || p->colour != prev_note->colour]. *)
Definition note_differs (p prev_note : Note) : bool :=
  negb (note_position p =? note_position prev_note)%Z
  || negb (colour_value (note_colour p) =? colour_value (note_colour prev_note))%Z.

(** The loop of the constructor: [notes] is what is left from [p] on. *)
Fixpoint push_distinct (prev_note : Note) (notes : list Note) : list Note :=
  match notes with
  | [] => [prev_note]
  | p :: notes' =>
      if note_differs p prev_note
      then prev_note :: push_distinct p notes'
      else push_distinct p notes'
  end.

(** [NoteTrack::NoteTrack]: the value of [m_notes]. *)
Definition NoteTrack_notes (notes : list Note) : list Note :=
  match stable_sort note_less notes with
  | [] => []
  | prev_note :: rest => push_distinct prev_note (prev_note :: rest)
  end.

(** ** sp.hpp: SpBar *)

Record SpBar : Type := mkSpBar { m_min : Q; m_max : Q }.

(** [SpBar::SpBar(min, max)] stores its arguments. *)
Definition SpBar_ctor (min max : Q) : SpBar := mkSpBar min max.

Definition SP_PHRASE_AMOUNT : Q := 25 # 100.

Definition add_phrase (b : SpBar) : SpBar :=
  let min1 := m_min b + SP_PHRASE_AMOUNT in
  let max1 := m_max b + SP_PHRASE_AMOUNT in
  mkSpBar (std_min min1 1) (std_min max1 1).

Definition MINIMUM_SP_AMOUNT : Q := 1 # 2.

Definition full_enough_to_activate (b : SpBar) : bool :=
  Qleb MINIMUM_SP_AMOUNT (m_max b).

(** ** sp.hpp / sp.cpp: SpData *)

Record BeatRate : Type := mkBeatRate { br_position : Q; net_sp_gain_rate : Q }.

Record WhammyRange : Type := mkWhammyRange
  { wr_start : Position; wr_end : Position }.

Record SpData : Type := mkSpData
  { m_converter : TimeConverter;
    m_beat_rates : list BeatRate;
    m_whammy_ranges : list WhammyRange }.

Definition DEFAULT_NET_SP_GAIN_RATE : Q := 1 / 480.
Definition MEASURES_PER_BAR : Q := 8.
Definition SP_GAIN_RATE : Q := 1 / 30.

(** [form_beat_rates]: one [push_back] per time signature. *)
Definition form_beat_rates (resolution : Z) (sync_track : SyncTrack)
  : list BeatRate :=
  fold_left
    (fun beat_rates ts =>
       let pos := inject_Z (ts_position ts) / inject_Z resolution in
       let measure_rate :=
         inject_Z (ts_numerator ts) * DEFAULT_BEAT_RATE
         / inject_Z (ts_denominator ts) in
       let drain_rate :=
         SP_GAIN_RATE - 1 / (MEASURES_PER_BAR * measure_rate) in
       beat_rates ++ [mkBeatRate pos drain_rate])
    (time_sigs sync_track) [].

(** [phrase_contains_pos]. *)
Definition phrase_contains_pos (phrase : StarPower) (position : Z) : bool :=
  if (position <? sp_position phrase)%Z then false
  else (position <? sp_position phrase + sp_length phrase)%Z.

(** [operator<] of [std::tuple<Beat, Beat>]: lexicographic. *)
Definition range_less (x y : Q * Q) : bool :=
  Qltb (fst x) (fst y) || (negb (Qltb (fst y) (fst x)) && Qltb (snd x) (snd y)).

(** The merging loop of the constructor: [pair_] is the range being grown,
    the list is what is left of the sorted ranges from [p] on. *)
Fixpoint merge_ranges (pair_ : Q * Q) (ranges : list (Q * Q)) : list (Q * Q) :=
  match ranges with
  | [] => [pair_]
  | p :: ranges' =>
      if Qleb (fst p) (snd pair_)
      then merge_ranges (fst pair_, std_max (snd pair_) (snd p)) ranges'
      else pair_ :: merge_ranges p ranges'
  end.

Section SpData_construction.

(** The conversions between beats and seconds belong to a later revision
    of [TimeConverter] than the one at hand; the constructor is written
    over them. *)
Variable beats_to_seconds : TimeConverter -> Q -> Q.
Variable seconds_to_beats : TimeConverter -> Q -> Q.

(** The body of the first loop: the range a note span contributes, if
    any. *)
Definition span_range (converter : TimeConverter) (phrases : list StarPower)
  (resolution : Z) (early_timing_window lazy_whammy : Q) (span : Z * Z)
  : list (Q * Q) :=
  let '(position, length) := span in
  if (length =? 0)%Z then []
  else if negb (existsb (fun p => phrase_contains_pos p position) phrases)
  then []
  else
    let beat_start := inject_Z position / inject_Z resolution in
    let second_start := beats_to_seconds converter beat_start in
    let second_start := second_start - early_timing_window in
    let second_start := second_start + lazy_whammy in
    let beat_start := seconds_to_beats converter second_start in
    let beat_end := inject_Z (position + length) / inject_Z resolution in
    if Qltb beat_start beat_end then [(beat_start, beat_end)] else [].

(** The ranges after [std::sort] and the merging loop.  [std::sort] leaves
    the order of equivalent elements open; equivalent pairs of beats are
    equal pairs, so every sorting function yields the same vector. *)
Definition merged_ranges (converter : TimeConverter)
  (note_spans : list (Z * Z)) (phrases : list StarPower) (resolution : Z)
  (early_whammy lazy_whammy : Q) : list (Q * Q) :=
  let early_timing_window := (7 # 100) * early_whammy in
  let ranges :=
    flat_map (span_range converter phrases resolution early_timing_window
                lazy_whammy) note_spans in
  match stable_sort range_less ranges with
  | [] => []
  | pair_ :: rest => merge_ranges pair_ rest
  end.

(** [SpData::SpData]. *)
Definition SpData_ctor (note_spans : list (Z * Z)) (phrases : list StarPower)
  (resolution : Z) (sync_track : SyncTrack) (early_whammy lazy_whammy : Q)
  : SpData :=
  let converter := TimeConverter_ctor sync_track (inject_Z resolution) in
  mkSpData converter
    (form_beat_rates resolution sync_track)
    (map (fun r =>
            mkWhammyRange
              (mkPosition (fst r) (beats_to_measures converter (fst r)))
              (mkPosition (snd r) (beats_to_measures converter (snd r))))
       (merged_ranges converter note_spans phrases resolution early_whammy
          lazy_whammy)).

End SpData_construction.

(** The [while (start < end)] loop of [propagate_over_whammy_range]; [rates]
    is the table from [p] on.  The loop is left with [start = end] once [p] is
    the last entry, so [p] is never [cend()] while the loop runs. *)
Fixpoint whammy_range_loop (rates : list BeatRate) (start end_ sp_bar_amount : Q)
  : Q :=
  if Qlt_le_dec start end_ then
    match rates with
    | [] => sp_bar_amount
    | p :: rates' =>
        let subrange_end :=
          match rates' with
          | [] => end_
          | next :: _ => std_min end_ (br_position next)
          end in
        let sp_bar_amount :=
          sp_bar_amount + (subrange_end - start) * net_sp_gain_rate p in
        if Qlt_le_dec sp_bar_amount 0 then - (1)
        else whammy_range_loop rates' subrange_end end_
               (std_min sp_bar_amount 1)
    end
  else sp_bar_amount.

(** [propagate_over_whammy_range]: [--p] when the lower bound is not
    [cbegin()], the stretch before the first entry otherwise.  The source
    reads [p->position] there, which an empty table does not allow; on an
    empty table the model leaves the amount as it is, and the properties
    below are about tables that are not empty. *)
Definition propagate_over_whammy_range (sd : SpData) (start end_ sp_bar_amount : Q)
  : Q :=
  let rates := m_beat_rates sd in
  match lower_bound (fun ts y => Qltb (br_position ts) y) rates start with
  | S i => whammy_range_loop (skipn i rates) start end_ sp_bar_amount
  | O =>
      match rates with
      | [] => sp_bar_amount
      | p :: _ =>
          let subrange_end := std_min end_ (br_position p) in
          let sp_bar_amount :=
            sp_bar_amount + (subrange_end - start) * DEFAULT_NET_SP_GAIN_RATE in
          let sp_bar_amount := std_min sp_bar_amount 1 in
          whammy_range_loop rates subrange_end end_ sp_bar_amount
      end
  end.

(** What one pass through a loop body does: leave the function with a
    value, or go round again ([++p]) with the new [start] and SP amount. *)
Inductive loop_step (R : Type) : Type :=
| Return (r : R)
| Continue (start : Position) (sp : Q).
Arguments Return {R} r.
Arguments Continue {R} start sp.

(** The return statements of [propagate_sp_over_whammy_max]: inside the
    [if (p->start.beat > start.beat)] block, after the whammy range with
    [sp < 0.0], after the whammy range with [p->end.beat >= end.beat], and
    the last line of the function. *)
Inductive exit_site : Type :=
| exit_gap | exit_whammy | exit_range_end | exit_tail.

(** The loop body from [range_end] on. *)
Definition max_in_range (sd : SpData) (end_ : Position) (p : WhammyRange)
  (start : Position) (sp : Q) : loop_step (exit_site * Q) :=
  let range_end := std_min (beat end_) (beat (wr_end p)) in
  let sp := propagate_over_whammy_range sd (beat start) range_end sp in
  if Qlt_le_dec sp 0 then Return (exit_whammy, sp)
  else if Qlt_le_dec (beat (wr_end p)) (beat end_)
       then Continue (wr_end p) sp
       else Return (exit_range_end, sp).

Definition max_body (sd : SpData) (end_ : Position) (p : WhammyRange)
  (start : Position) (sp : Q) : loop_step (exit_site * Q) :=
  if Qlt_le_dec (beat start) (beat (wr_start p)) then
    let meas_diff := measure (wr_start p) - measure start in
    let sp := sp - meas_diff / MEASURES_PER_BAR in
    if Qlt_le_dec sp 0 then Return (exit_gap, sp)
    else max_in_range sd end_ p (wr_start p) sp
  else max_in_range sd end_ p start sp.

(** The last two lines of the function. *)
Definition max_tail (start end_ : Position) (sp : Q) : Q :=
  let meas_diff := measure end_ - measure start in
  sp - meas_diff / MEASURES_PER_BAR.

(** The [while] loop; [ranges] is [m_whammy_ranges] from [p] on. *)
Fixpoint max_loop (sd : SpData) (end_ : Position) (ranges : list WhammyRange)
  (start : Position) (sp : Q) : exit_site * Q :=
  match ranges with
  | [] => (exit_tail, max_tail start end_ sp)
  | p :: ranges' =>
      if Qlt_le_dec (beat (wr_start p)) (beat end_) then
        match max_body sd end_ p start sp with
        | Return r => r
        | Continue start sp => max_loop sd end_ ranges' start sp
        end
      else (exit_tail, max_tail start end_ sp)
  end.

(** The ranges from the lower bound of [start] on: the first range [x] for
    which [x.end.beat <= start.beat] fails. *)
Definition ranges_from (sd : SpData) (start : Position) : list WhammyRange :=
  skipn
    (lower_bound (fun x y => Qleb (beat (wr_end x)) (beat y))
       (m_whammy_ranges sd) start)
    (m_whammy_ranges sd).

Definition propagate_sp_over_whammy_max (sd : SpData) (start end_ : Position)
  (sp : Q) : Q :=
  snd (max_loop sd end_ (ranges_from sd start) start sp).

Definition propagate_sp_over_whammy_min (sd : SpData) (start end_ : Position)
  (sp : Q) (required_whammy_end : Position) : Q :=
  let '(start, sp) :=
    if Qlt_le_dec (beat start) (beat required_whammy_end) then
      let whammy_end :=
        if Qlt_le_dec (beat required_whammy_end) (beat end_)
        then required_whammy_end else end_ in
      (required_whammy_end,
       propagate_sp_over_whammy_max sd start whammy_end sp)
    else (start, sp) in
  let sp :=
    if Qlt_le_dec (beat start) (beat end_) then
      let meas_diff := measure end_ - measure start in
      sp - meas_diff / MEASURES_PER_BAR
    else sp in
  std_max sp 0.









(** [SpData::is_in_whammy_ranges]: the lower bound is the first range [x]
    for which [x.end.beat < beat] fails. *)
Definition is_in_whammy_ranges (sd : SpData) (beat_ : Q) : bool :=
  match
    skipn
      (lower_bound (fun x y => Qltb (beat (wr_end x)) y)
         (m_whammy_ranges sd) beat_)
      (m_whammy_ranges sd)
  with
  | [] => false
  | p :: _ => Qleb (beat (wr_start p)) beat_
  end.

(** The [for] loop of [available_whammy]; [ranges] is [m_whammy_ranges] from
    [p] on. *)
Fixpoint available_whammy_loop (ranges : list WhammyRange)
  (start end_ total_whammy : Q) : Q :=
  match ranges with
  | [] => total_whammy
  | p :: ranges' =>
      if Qlt_le_dec (beat (wr_start p)) end_ then
        let whammy_start := std_max (beat (wr_start p)) start in
        let whammy_end := std_min (beat (wr_end p)) end_ in
        available_whammy_loop ranges' start end_
          (total_whammy + (whammy_end - whammy_start) * SP_GAIN_RATE)
      else total_whammy
  end.

(** [SpData::available_whammy]. *)
Definition available_whammy (sd : SpData) (start end_ : Q) : Q :=
  available_whammy_loop
    (skipn
       (lower_bound (fun x y => Qleb (beat (wr_end x)) y)
          (m_whammy_ranges sd) start)
       (m_whammy_ranges sd))
    start end_ 0.

(** ** time.cpp, chart part: the helpers of the parser *)

(** A [std::string_view] is the list of its characters. *)
Definition string_view : Type := list ascii.

(** A string literal of the source, as a [string_view]. *)
Definition sv (s : string) : string_view := list_ascii_of_string s.

(** [operator==] on two views. *)
Definition sv_eqb (a b : string_view) : bool :=
  if list_eq_dec ascii_dec a b then true else false.

(** The searches of [std::string_view]; [npos] is [None]. *)
Fixpoint find_if (f : ascii -> bool) (input : string_view) : option nat :=
  match input with
  | [] => None
  | c :: input' =>
      if f c then Some O else option_map S (find_if f input')
  end.

Fixpoint find_last_if (f : ascii -> bool) (input : string_view) : option nat :=
  match input with
  | [] => None
  | c :: input' =>
      match find_last_if f input' with
      | Some i => Some (S i)
      | None => if f c then Some O else None
      end
  end.

Definition char_in (chars : list ascii) (c : ascii) : bool :=
  existsb (Ascii.eqb c) chars.

Definition find_first_of (input : string_view) (chars : list ascii)
  : option nat :=
  find_if (char_in chars) input.

Definition find_first_not_of (input : string_view) (chars : list ascii)
  : option nat :=
  find_if (fun c => negb (char_in chars c)) input.

Definition find_last_not_of (input : string_view) (chars : list ascii)
  : option nat :=
  find_last_if (fun c => negb (char_in chars c)) input.

(** [substr(pos, count)] for [pos <= size()], and [remove_prefix(n)] for
    [n <= size()], the only uses the parser makes of them. *)
Definition substr (input : string_view) (pos count : nat) : string_view :=
  firstn count (skipn pos input).

Definition remove_prefix (input : string_view) (n : nat) : string_view :=
  skipn n input.

(** The characters that the source names with escapes. *)
Definition char_tab : ascii := ascii_of_nat 9.
Definition char_newline : ascii := ascii_of_nat 10.
Definition char_vtab : ascii := ascii_of_nat 11.
Definition char_formfeed : ascii := ascii_of_nat 12.
Definition char_return : ascii := ascii_of_nat 13.
Definition char_space : ascii := ascii_of_nat 32.
Definition char_quote : ascii := ascii_of_nat 34.

Definition string_starts_with (input pattern : string_view) : bool :=
  if (length input <? length pattern)%nat then false
  else sv_eqb (substr input 0 (length pattern)) pattern.

(** The characters of [" \f\n\r\t\v"]. *)
Definition whitespace : list ascii :=
  [char_space; char_formfeed; char_newline; char_return; char_tab; char_vtab].

(** [skip_whitespace]; [std::min(npos, input.size())] is [input.size()]. *)
Definition skip_whitespace (input : string_view) : string_view :=
  let first_non_ws_location := find_first_not_of input whitespace in
  remove_prefix input
    match first_non_ws_location with
    | None => length input
    | Some i => Nat.min i (length input)
    end.

(** [break_off_newline]: the line returned and the new value of [input]. *)
Definition break_off_newline (input : string_view) : string_view * string_view :=
  match find_first_of input [char_return; char_newline] with
  | None => (input, remove_prefix input (length input))
  | Some newline_location =>
      let line := substr input 0 newline_location in
      let input := remove_prefix input newline_location in
      let input := skip_whitespace input in
      (line, input)
  end.

(** The loop of [split_by_space].  Every pass drops at least one character
    of [input], so [fuel] is the length of the input; it never runs out
    while a space is left. *)
Fixpoint split_by_space_loop (fuel : nat) (input : string_view)
  (substrings : list string_view) : list string_view :=
  match find_if (Ascii.eqb char_space) input with
  | None => substrings ++ [input]
  | Some space_location =>
      match fuel with
      | O => substrings ++ [input]
      | S fuel' =>
          split_by_space_loop fuel'
            (remove_prefix input (space_location + 1))
            (substrings ++ [substr input 0 space_location])
      end
  end.

Definition split_by_space (input : string_view) : list string_view :=
  split_by_space_loop (length input) input [].

(** [trim_quotes].  [last_non_quote + 1] is computed on [size_t]; after a
    first character that is no quote is found, a last one is found too. *)
Definition trim_quotes (input : string_view) : string_view :=
  match find_first_not_of input [char_quote] with
  | None => substr input 0 0
  | Some first_non_quote =>
      match find_last_not_of input [char_quote] with
      | Some last_non_quote =>
          substr input first_non_quote (last_non_quote + 1)
      | None => substr input first_non_quote 0
      end
  end.

(** [std::from_chars] on an unsigned 32-bit integer, as the source uses it
    (base 10, all of the input must be used): the input is a non-empty run
    of digits whose value fits 32 bits. *)
Definition digit_value (c : ascii) : option Z :=
  let n := nat_of_ascii c in
  if ((48 <=? n) && (n <=? 57))%nat then Some (Z.of_nat n - 48)%Z else None.

Fixpoint digits_value (acc : Z) (input : string_view) : option Z :=
  match input with
  | [] => Some acc
  | c :: input' =>
      match digit_value c with
      | None => None
      | Some d => digits_value (10 * acc + d)%Z input'
      end
  end.

Definition string_view_to_uint (input : string_view) : option Z :=
  match input with
  | [] => None
  | _ :: _ =>
      match digits_value 0 input with
      | Some result => if (result <? 2 ^ 32)%Z then Some result else None
      | None => None
      end
  end.
(** ** time.cpp, chart part: sections of a chart *)

(** The exceptions of the parser, with their messages. *)
Inductive std_exception : Type :=
| std_runtime_error (what : string)
| std_invalid_argument (what : string).

(** What running a reader for [fuel] passes of its loop gives: its result,
    the exception it throws, or nothing yet. *)
Inductive run (A : Type) : Type :=
| Done (a : A)
| Raised (e : std_exception)
| Running.
Arguments Done {A} a.
Arguments Raised {A} e.
Arguments Running {A}.

(** The [do ... while (next_line != "}")] loop of [skip_section]. *)
Fixpoint skip_section_loop (fuel : nat) (input : string_view) : run string_view :=
  match fuel with
  | O => Running
  | S fuel' =>
      let '(next_line, input) := break_off_newline input in
      if sv_eqb next_line (sv "}") then Done input
      else skip_section_loop fuel' input
  end.

Definition skip_section (fuel : nat) (input : string_view) : run string_view :=
  let '(next_line, input) := break_off_newline input in
  if negb (sv_eqb next_line (sv "{"))
  then Raised (std_runtime_error "Section does not open with {")
  else skip_section_loop fuel input.

(** [PreSyncTrack]. *)
Record PreSyncTrack : Type := mkPreSyncTrack
  { pre_time_sigs : list TimeSignature; pre_bpms : list BPM }.

(** [1U << denominator] on 32 bits (the source shifts by less than 32). *)
Definition uint32_shl (a n : Z) : Z := (Z.shiftl a n mod 2 ^ 32)%Z.

(** What one pass through the loop of a section reader does: [break],
    go round again ([continue] or the end of the body), or throw. *)
Inductive line_step (A : Type) : Type :=
| Break
| Next (a : A)
| Raise (e : std_exception).
Arguments Break {A}.
Arguments Next {A} a.
Arguments Raise {A} e.

(** The body of the loop of [read_sync_track] for one line. *)
Definition read_sync_track_line (line : string_view) (sync_track : PreSyncTrack)
  : line_step PreSyncTrack :=
  if sv_eqb line (sv "}") then Break
  else
    let split_string := split_by_space line in
    if (length split_string <? 4)%nat
    then Raise (std_invalid_argument "Event missing data")
    else
      match string_view_to_uint (nth 0 split_string []) with
      | None => Next sync_track
      | Some position =>
          let type := nth 2 split_string [] in
          if sv_eqb type (sv "TS") then
            match string_view_to_uint (nth 3 split_string []) with
            | None => Next sync_track
            | Some numerator =>
                if (4 <? length split_string)%nat then
                  match string_view_to_uint (nth 4 split_string []) with
                  | Some denominator =>
                      Next (mkPreSyncTrack
                              (pre_time_sigs sync_track
                               ++ [mkTimeSignature position numerator
                                     (uint32_shl 1 denominator)])
                              (pre_bpms sync_track))
                  | None => Next sync_track
                  end
                else
                  Next (mkPreSyncTrack
                          (pre_time_sigs sync_track
                           ++ [mkTimeSignature position numerator
                                 (uint32_shl 1 2)])
                          (pre_bpms sync_track))
            end
          else if sv_eqb type (sv "B") then
            match string_view_to_uint (nth 3 split_string []) with
            | None => Next sync_track
            | Some bpm =>
                Next (mkPreSyncTrack (pre_time_sigs sync_track)
                        (pre_bpms sync_track ++ [mkBPM position bpm]))
            end
          else Next sync_track
      end.

Fixpoint read_sync_track_loop (fuel : nat) (input : string_view)
  (sync_track : PreSyncTrack) : run (string_view * PreSyncTrack) :=
  match fuel with
  | O => Running
  | S fuel' =>
      let '(line, input) := break_off_newline input in
      match read_sync_track_line line sync_track with
      | Break => Done (input, sync_track)
      | Next sync_track => read_sync_track_loop fuel' input sync_track
      | Raise e => Raised e
      end
  end.

(** [read_sync_track]: the new input and the sync track read so far. *)
Definition read_sync_track (fuel : nat) (input : string_view)
  (sync_track : PreSyncTrack) : run (string_view * PreSyncTrack) :=
  let '(line, input) := break_off_newline input in
  if negb (sv_eqb line (sv "{"))
  then Raised (std_runtime_error "[SyncTrack] does not open with {")
  else read_sync_track_loop fuel input sync_track.

(** ** optimiser.hpp: the key of the optimiser's cache *)

(** [Optimiser::CacheKey]; a [PointPtr] is an iterator into the vector of
    points, the offset of its point. *)
Record CacheKey : Type := mkCacheKey
  { key_point : Z; key_position : Position }.

(** [operator<] of [CacheKey]:
    [std::tie(lhs.point, lhs.position.beat)
     < std::tie(rhs.point, rhs.position.beat)]. *)
Definition cache_key_less (lhs rhs : CacheKey) : bool :=
  (key_point lhs <? key_point rhs)%Z
  || (negb (key_point rhs <? key_point lhs)%Z
      && Qltb (beat (key_position lhs)) (beat (key_position rhs))).

(** * The vocabulary of the properties *)

(** The envelope predicate of the design document: [0 <= min <= max <= 1]. *)
Definition sp_bar_ok (b : SpBar) : Prop :=
  0 <= m_min b /\ m_min b <= m_max b /\ m_max b <= 1.

(** The bars that the public operations named by the document can build:
    any construction, then any number of [add_phrase]. *)
Inductive SpBar_reachable : SpBar -> Prop :=
| reach_ctor (min max : Q) : SpBar_reachable (SpBar_ctor min max)
| reach_add_phrase (b : SpBar) :
    SpBar_reachable b -> SpBar_reachable (add_phrase b).

(** The entry the design document prescribes for a time signature. *)
Definition spec_beat_rate (resolution : Z) (ts : TimeSignature) : BeatRate :=
  mkBeatRate
    (inject_Z (ts_position ts) / inject_Z resolution)
    (1 / 30
     - 1 / (8 * (inject_Z (ts_numerator ts) * 4 / inject_Z (ts_denominator ts)))).

(** A note is at [(position, colour)]. *)
Definition note_at (position : Z) (colour : NoteColour) (n : Note) : bool :=
  (note_position n =? position)%Z
  && (colour_value (note_colour n) =? colour_value colour)%Z.

(** The last element of a list, as a list of at most one element. *)
Definition keep_last {A : Type} (l : list A) : list A :=
  match rev l with
  | [] => []
  | x :: _ => [x]
  end.

(** [a] is not after [b]: what [std::stable_sort] establishes between an
    element and every later one. *)
Definition note_not_after (a b : Note) : Prop := note_less b a = false.

(** A range covers some beats; a range ends before another begins. *)
Definition range_nonempty (p : WhammyRange) : Prop :=
  beat (wr_start p) < beat (wr_end p).

Definition range_before (p q : WhammyRange) : Prop :=
  beat (wr_end p) < beat (wr_start q).

(** The same on the beat pairs that the constructor works with. *)
Definition pair_nonempty (x : Q * Q) : Prop := fst x < snd x.

Definition pair_before (x y : Q * Q) : Prop := snd x < fst y.

(** Two anchors in table order: later in both beat and measure, or equal in
    both (two time signatures on one tick). *)
Definition anchor_le (a b : MeasureTimestamp) : Prop :=
  (mt_beat a < mt_beat b /\ mt_measure a < mt_measure b)
  \/ (mt_beat a == mt_beat b /\ mt_measure a == mt_measure b).

Definition table_ok (tbl : list MeasureTimestamp) : Prop :=
  StronglySorted anchor_le tbl.

(** The time signatures the design document takes as input: ticks that fit
    the 32-bit field and do not decrease, positive numerators and
    denominators. *)
Definition time_sig_ok (ts : TimeSignature) : Prop :=
  (0 <= ts_position ts < 2 ^ 32)%Z
  /\ (0 < ts_numerator ts)%Z /\ (0 < ts_denominator ts)%Z.

Definition sync_track_ok (sync_track : SyncTrack) : Prop :=
  Forall time_sig_ok (time_sigs sync_track)
  /\ StronglySorted (fun a b => (ts_position a <= ts_position b)%Z)
       (time_sigs sync_track).

(** What the constructor's loop maintains. *)
Definition converter_loop_ok (resolution : Q) (st : ConverterLoop) : Prop :=
  0 < last_beat_rate st
  /\ (0 <= last_tick st < 2 ^ 32)%Z
  /\ table_ok (timestamps st)
  /\ Forall
       (fun a =>
          anchor_le a
            (mkMeasureTimestamp (last_measure st)
               (inject_Z (last_tick st) / resolution)))
       (timestamps st).

(** The interpolation between two anchors that both conversions use. *)
Definition interp (x0 y0 x1 y1 x : Q) : Q :=
  y0 + (y1 - y0) * ((x - x0) / (x1 - x0)).

(** A table that the conversions can be read from, with the rate after its
    last anchor. *)
Definition converter_ok (tc : TimeConverter) : Prop :=
  table_ok (m_measure_timestamps tc)
  /\ m_measure_timestamps tc <> []
  /\ 0 < m_last_beat_rate tc.

Definition rates_sorted (rates : list BeatRate) : Prop :=
  StronglySorted (fun a b => br_position a <= br_position b) rates.

(** The entry after the current one does not lie before [start]. *)
Definition next_not_before (start : Q) (rates : list BeatRate) : Prop :=
  match rates with
  | _ :: next :: _ => start <= br_position next
  | _ => True
  end.

(** A position of the converter: its measure is the measure of its beat and
    its beat the beat of its measure. *)
Definition on_track (tc : TimeConverter) (x : Position) : Prop :=
  measure x == beats_to_measures tc (beat x)
  /\ beat x == measures_to_beats tc (measure x).

Definition ranges_ok (tc : TimeConverter) (ranges : list WhammyRange) : Prop :=
  Forall range_nonempty ranges
  /\ StronglySorted range_before ranges
  /\ Forall (fun p => on_track tc (wr_start p) /\ on_track tc (wr_end p)) ranges.

(** What the constructor establishes for well-formed input: a readable
    table, beat rates in order, and whammy ranges that are non-empty,
    separated and made of positions of the converter. *)
Definition SpData_ok (sd : SpData) : Prop :=
  converter_ok (m_converter sd)
  /\ m_beat_rates sd <> []
  /\ rates_sorted (m_beat_rates sd)
  /\ ranges_ok (m_converter sd) (m_whammy_ranges sd).

(** The first range left to visit ends after [start]. *)
Definition ahead (start : Position) (ranges : list WhammyRange) : Prop :=
  match ranges with
  | [] => True
  | p :: _ => beat start < beat (wr_end p)
  end.



(** An SP engine built by the constructor: 4/4 at 120 beats per minute, two
    beats to the second, one sustained note of four beats that begins at beat
    4 inside a phrase. *)
Definition example_sync_track : SyncTrack :=
  mkSyncTrack [mkTimeSignature 0 4 4] [mkBPM 0 120000].

Definition example_sp_data : SpData :=
  SpData_ctor (fun _ b => b / 2) (fun _ s => s * 2)
    [(768, 768)%Z] [mkStarPower 768 100] 192 example_sync_track 0 0.

(** The position of a beat. *)
Definition example_position (b : Q) : Position :=
  mkPosition b (beats_to_measures (m_converter example_sp_data) b).

(** The same song in 1/4, where whammy does not keep up with the drain: one
    sustained note of forty beats from the start, inside a phrase. *)
Definition example_drain_sp_data : SpData :=
  SpData_ctor (fun _ b => b / 2) (fun _ s => s * 2)
    [(0, 7680)%Z] [mkStarPower 0 7680] 192
    (mkSyncTrack [mkTimeSignature 0 1 4] [mkBPM 0 120000]) 0 0.

Definition example_drain_position (b : Q) : Position :=
  mkPosition b (beats_to_measures (m_converter example_drain_sp_data) b).


(** The beats of [[a, b]] that a whammy range covers, as a length. *)
Definition whammy_overlap (a b : Q) (p : WhammyRange) : Q :=
  Qmax 0 (Qmin (beat (wr_end p)) b - Qmax (beat (wr_start p)) a).

(** The sum of a list of amounts. *)
Definition Qsum (l : list Q) : Q := fold_right Qplus 0 l.

(** Whammy ranges that each cover some beats and lie apart, in order. *)
Definition ranges_separated (ranges : list WhammyRange) : Prop :=
  Forall range_nonempty ranges /\ StronglySorted range_before ranges.

(** [add_phrase] called [n] times. *)
Fixpoint add_phrases (n : nat) (b : SpBar) : SpBar :=
  match n with
  | O => b
  | S n' => add_phrase (add_phrases n' b)
  end.

(** Strictly increasing in [(position, colour)]: what a [NoteTrack] holds. *)
Definition notes_strictly_sorted (notes : list Note) : Prop :=
  StronglySorted (fun a b => note_less a b = true) notes.
(** A beat lies in a range of beats, both ends included. *)
Definition pair_covers (b : Q) (x : Q * Q) : Prop := fst x <= b /\ b <= snd x.

(** The beats to the measure under a time signature. *)
Definition measure_rate (ts : TimeSignature) : Q :=
  inject_Z (ts_numerator ts) * DEFAULT_BEAT_RATE / inject_Z (ts_denominator ts).

(** The measure of a beat, read off the time signatures themselves: from the
    tick [tick], which is at measure [meas], [rate] beats make a measure, up
    to the next time signature, from where its own rate holds. *)
Fixpoint spec_measure (resolution : Q) (tick : Z) (rate meas : Q)
  (tss : list TimeSignature) (b : Q) : Q :=
  match tss with
  | [] => meas + (b - inject_Z tick / resolution) / rate
  | ts :: tss' =>
      if Qlt_le_dec (inject_Z (ts_position ts) / resolution) b
      then spec_measure resolution (ts_position ts) (measure_rate ts)
             (meas + inject_Z (ts_position ts - tick) / (resolution * rate))
             tss' b
      else meas + (b - inject_Z tick / resolution) / rate
  end.

(** The table of the constructor, from its front: what the loop appends for
    the time signatures left, from the state [tick], [rate], [meas]. *)
Fixpoint anchors_from (resolution : Q) (tick : Z) (rate meas : Q)
  (tss : list TimeSignature) : list MeasureTimestamp :=
  match tss with
  | [] => []
  | ts :: tss' =>
      let meas' :=
        meas
        + inject_Z (uint32_sub (ts_position ts) tick) / (resolution * rate) in
      mkMeasureTimestamp meas' (inject_Z (ts_position ts) / resolution)
      :: anchors_from resolution (ts_position ts) (measure_rate ts) meas' tss'
  end.

(** The rate after the last time signature. *)
Fixpoint final_rate (rate : Q) (tss : list TimeSignature) : Q :=
  match tss with
  | [] => rate
  | ts :: tss' => final_rate (measure_rate ts) tss'
  end.
(** Over the beats from [lo] to [hi] (without end when [hi] is [None]) the
    measures [F] gives drain the bar at the rate that, together with [rate],
    makes up [SP_GAIN_RATE]: [rate] is the net gain of whammying there. *)
Definition drain_matches (F : Q -> Q) (rate lo : Q) (hi : option Q) : Prop :=
  forall x y,
    lo <= x -> x <= y ->
    match hi with Some h => y <= h | None => True end ->
    (F y - F x) / MEASURES_PER_BAR == (y - x) * (SP_GAIN_RATE - rate).

Fixpoint rates_match_from (F : Q -> Q) (rates : list BeatRate) : Prop :=
  match rates with
  | [] => True
  | p :: rates' =>
      drain_matches F (net_sp_gain_rate p) (br_position p)
        match rates' with
        | [] => None
        | next :: _ => Some (br_position next)
        end
      /\ rates_match_from F rates'
  end.

(** The beat rates are those of the converter's measures: before the first
    entry the default net gain, from every entry to the next its own. *)
Definition rates_match (tc : TimeConverter) (rates : list BeatRate) : Prop :=
  match rates with
  | [] => True
  | p :: _ =>
      forall x y,
        x <= y -> y <= br_position p ->
        (beats_to_measures tc y - beats_to_measures tc x) / MEASURES_PER_BAR
        == (y - x) * (SP_GAIN_RATE - DEFAULT_NET_SP_GAIN_RATE)
  end
  /\ rates_match_from (beats_to_measures tc) rates.

(** A well-formed [SpData] whose beat rates and converter come from the
    same time signatures, as the constructor makes them. *)
Definition SpData_consistent (sd : SpData) : Prop :=
  SpData_ok sd /\ rates_match (m_converter sd) (m_beat_rates sd).

(** A character is one of [chars]; all characters of a view pass a test. *)
Definition all_chars (f : ascii -> bool) (s : string_view) : Prop :=
  forallb f s = true.

Definition no_leading (f : ascii -> bool) (s : string_view) : Prop :=
  match s with
  | [] => True
  | c :: _ => f c = false
  end.

(** The pieces of a line put together again, one space between two. *)
Fixpoint join_space (pieces : list string_view) : string_view :=
  match pieces with
  | [] => []
  | [piece] => piece
  | piece :: pieces' => piece ++ char_space :: join_space pieces'
  end.

(** A number in decimal digits, most significant first; [fuel] bounds the
    number of digits. *)
Fixpoint decimal_digits (fuel : nat) (n : Z) : string_view :=
  match fuel with
  | O => []
  | S fuel' =>
      (if (n <? 10)%Z then [] else decimal_digits fuel' (n / 10)%Z)
      ++ [ascii_of_nat (48 + Z.to_nat (n mod 10))]
  end.

(** Ten digits are enough for a 32-bit number. *)
Definition decimal (n : Z) : string_view := decimal_digits 10 n.

(** * Properties *)

(** ** Comparisons, [std::min] and [std::max] *)

Ltac qcases :=
  repeat match goal with
         | |- context [Qlt_le_dec ?a ?b] => destruct (Qlt_le_dec a b)
         | H : context [Qlt_le_dec ?a ?b] |- _ => destruct (Qlt_le_dec a b)
         end.

Ltac qfinish := first [lra | congruence | exfalso; lra].

(** Divisions by the constants of the source, as multiplications. *)
Ltac qconst :=
  unfold to_measure, to_beat, MEASURES_PER_BAR, DEFAULT_BEAT_RATE,
    DEFAULT_NET_SP_GAIN_RATE, SP_GAIN_RATE, Qdiv in *;
  change (/ 8) with (1 # 8) in *;
  change (/ 4) with (1 # 4) in *;
  change (/ 480) with (1 # 480) in *.

Lemma Qltb_true (a b : Q) : Qltb a b = true <-> a < b.
Proof. unfold Qltb; qcases; split; intros; qfinish. Qed.

Lemma Qltb_false (a b : Q) : Qltb a b = false <-> b <= a.
Proof. unfold Qltb; qcases; split; intros; qfinish. Qed.

Lemma Qleb_true (a b : Q) : Qleb a b = true <-> a <= b.
Proof. unfold Qleb; qcases; split; intros; qfinish. Qed.

Lemma Qleb_false (a b : Q) : Qleb a b = false <-> b < a.
Proof. unfold Qleb; qcases; split; intros; qfinish. Qed.

(** Boolean comparisons in the hypotheses, as propositions. *)
Ltac qbool :=
  repeat match goal with
         | H : Qltb _ _ = true |- _ => apply Qltb_true in H
         | H : Qltb _ _ = false |- _ => apply Qltb_false in H
         | H : Qleb _ _ = true |- _ => apply Qleb_true in H
         | H : Qleb _ _ = false |- _ => apply Qleb_false in H
         end.

Lemma std_min_spec (a b : Q) :
  (b < a /\ std_min a b = b) \/ (a <= b /\ std_min a b = a).
Proof. unfold std_min; qcases; auto. Qed.

Lemma std_max_spec (a b : Q) :
  (a < b /\ std_max a b = b) \/ (b <= a /\ std_max a b = a).
Proof. unfold std_max; qcases; auto. Qed.

Lemma std_min_le_l (a b : Q) : std_min a b <= a.
Proof. unfold std_min; qcases; lra. Qed.

Lemma std_min_le_r (a b : Q) : std_min a b <= b.
Proof. unfold std_min; qcases; lra. Qed.

Lemma std_min_glb (a b c : Q) : c <= a -> c <= b -> c <= std_min a b.
Proof. unfold std_min; qcases; lra. Qed.

Lemma std_min_id (a b : Q) : a <= b -> std_min a b == a.
Proof. unfold std_min; qcases; lra. Qed.

(** ** SpBar *)

(** The constructor checks nothing: a bar with [min > max] is built, and
    [add_phrase] keeps it out of order. *)
Lemma SpBar_reachable_not_ok :
  ~ (forall b : SpBar, SpBar_reachable b -> sp_bar_ok b).
Proof.
  intros H.
  destruct (H (add_phrase (SpBar_ctor (3 # 4) (1 # 4)))) as (_ & Hmm & _).
  - apply reach_add_phrase, reach_ctor.
  - vm_compute in Hmm. apply Hmm. reflexivity.
Qed.

(** C2 (amended).  [add_phrase] preserves [0 <= min <= max <= 1], and a bar
    constructed from arguments in that order satisfies it; so every bar
    built from such arguments by these operations satisfies it. *)
Theorem SpBar_add_phrase_preserves (b : SpBar) (H : sp_bar_ok b) :
  sp_bar_ok (add_phrase b)
  /\ (forall min max : Q,
        sp_bar_ok (SpBar_ctor min max) <-> 0 <= min /\ min <= max /\ max <= 1).
Proof.
  split.
  - destruct H as (H0 & H1 & H2).
    unfold sp_bar_ok, add_phrase, SP_PHRASE_AMOUNT, std_min; simpl.
    qcases; repeat split; lra.
  - intros min max. unfold sp_bar_ok, SpBar_ctor; simpl. tauto.
Qed.

Lemma SpBar_add_phrase_preserves_witness :
  sp_bar_ok (SpBar_ctor (1 # 2) (9 # 10))
  /\ sp_bar_ok (add_phrase (SpBar_ctor (1 # 2) (9 # 10))).
Proof.
  assert (H : sp_bar_ok (SpBar_ctor (1 # 2) (9 # 10))).
  { unfold sp_bar_ok; simpl; repeat split; lra. }
  split; [exact H |].
  exact (proj1 (SpBar_add_phrase_preserves (SpBar_ctor (1 # 2) (9 # 10)) H)).
Defined.

(** ** SongHeader and SyncTrack *)

(** C6.  The construction of the header and the sync track throws exactly
    when the resolution is zero or negative, whatever the time signatures and
    tempos are; otherwise it returns both objects, holding the arguments. *)
Theorem construction_throws_iff_bad_resolution
  (offset resolution : Q) (time_sigs : list TimeSignature) (bpms : list BPM) :
  ((exists e, construct_time_model offset resolution time_sigs bpms = Throws e)
   <-> resolution <= 0)
  /\ ((exists r, construct_time_model offset resolution time_sigs bpms = Returns r)
      <-> 0 < resolution)
  /\ (forall r,
        construct_time_model offset resolution time_sigs bpms = Returns r ->
        r = (mkSongHeader offset resolution, mkSyncTrack time_sigs bpms)).
Proof.
  unfold construct_time_model, SongHeader_ctor, SyncTrack_ctor, Qleb; simpl.
  destruct (Qlt_le_dec 0 resolution) as [Hpos | Hneg]; simpl.
  - split; [| split].
    + split; [intros [e He]; discriminate | intros; lra].
    + split; [intros; assumption | intros; eauto].
    + intros r Hr; injection Hr; auto.
  - split; [| split].
    + split; [intros; assumption | intros; eauto].
    + split; [intros [r Hr]; discriminate | intros; lra].
    + intros r Hr; discriminate.
Qed.

Lemma construction_throws_iff_bad_resolution_witness :
  exists r,
    construct_time_model 0 192
      [mkTimeSignature 768 3 4; mkTimeSignature 0 4 4] [mkBPM 0 120000]
    = Returns r.
Proof.
  apply (proj1 (proj2 (construction_throws_iff_bad_resolution 0 192
                         [mkTimeSignature 768 3 4; mkTimeSignature 0 4 4]
                         [mkBPM 0 120000]))).
  reflexivity.
Defined.

(** ** Beat rates *)

Lemma fold_left_push_map {A B : Type} (f : A -> B) (l : list A) (acc : list B) :
  fold_left (fun acc x => acc ++ [f x]) l acc = acc ++ map f l.
Proof.
  revert acc; induction l as [| x l IH]; intros acc; simpl.
  - now rewrite app_nil_r.
  - rewrite IH, <- app_assoc. reflexivity.
Qed.

Lemma form_beat_rates_map (resolution : Z) (sync_track : SyncTrack) :
  form_beat_rates resolution sync_track
  = map (spec_beat_rate resolution) (time_sigs sync_track).
Proof.
  unfold form_beat_rates.
  exact (fold_left_push_map (spec_beat_rate resolution)
           (time_sigs sync_track) []).
Qed.

(** C7.  [form_beat_rates] emits, for the time signatures in their order,
    one entry each, at beat [tick / resolution] and with net gain rate
    [1/30 - 1/(8 * (num * 4 / den))]. *)
Theorem form_beat_rates_spec (resolution : Z) (sync_track : SyncTrack) :
  form_beat_rates resolution sync_track
  = map (spec_beat_rate resolution) (time_sigs sync_track)
  /\ length (form_beat_rates resolution sync_track)
     = length (time_sigs sync_track).
Proof.
  split; [apply form_beat_rates_map |].
  rewrite form_beat_rates_map. apply length_map.
Qed.

(** ** NoteTrack *)

Lemma keep_last_cons2 {A : Type} (x y : A) (l : list A) :
  keep_last (x :: y :: l) = keep_last (y :: l).
Proof.
  unfold keep_last; simpl.
  destruct (rev l) as [| z r]; reflexivity.
Qed.

Lemma keep_last_length {A : Type} (l : list A) :
  length (keep_last l) = match l with [] => O | _ :: _ => 1%nat end.
Proof.
  unfold keep_last. destruct l as [| x l]; [reflexivity |].
  destruct (rev (x :: l)) as [| z r] eqn:E; [| reflexivity].
  apply (f_equal (@length A)) in E. rewrite length_rev in E. discriminate.
Qed.

Lemma colour_value_inj (c d : NoteColour) :
  colour_value c = colour_value d -> c = d.
Proof. destruct c, d; simpl; intros H; try reflexivity; discriminate. Qed.

Lemma note_less_spec (a b : Note) :
  note_less a b = true <->
  (note_position a < note_position b
   \/ (note_position a = note_position b
       /\ colour_value (note_colour a) < colour_value (note_colour b)))%Z.
Proof.
  unfold note_less.
  rewrite orb_true_iff, andb_true_iff, !Z.ltb_lt, Z.eqb_eq. tauto.
Qed.

Lemma note_differs_spec (p prev : Note) :
  note_differs p prev = false <->
  (note_position p = note_position prev
   /\ colour_value (note_colour p) = colour_value (note_colour prev))%Z.
Proof.
  unfold note_differs.
  rewrite orb_false_iff, !negb_false_iff, !Z.eqb_eq. tauto.
Qed.

Lemma note_at_spec (position : Z) (colour : NoteColour) (n : Note) :
  note_at position colour n = true <->
  note_position n = position /\ note_colour n = colour.
Proof.
  unfold note_at. rewrite andb_true_iff, !Z.eqb_eq.
  split; intros [H1 H2]; split; auto using colour_value_inj.
  now rewrite H2.
Qed.

Lemma note_not_after_spec (a b : Note) :
  note_not_after a b <->
  (note_position a < note_position b
   \/ (note_position a = note_position b
       /\ colour_value (note_colour a) <= colour_value (note_colour b)))%Z.
Proof.
  unfold note_not_after.
  rewrite <- not_true_iff_false, note_less_spec. lia.
Qed.

Lemma stable_insert_In {A : Type} (less : A -> A -> bool) (x y : A) (l : list A) :
  In y (stable_insert less x l) <-> y = x \/ In y l.
Proof.
  induction l as [| z l IH]; simpl.
  - intuition.
  - destruct (less z x); simpl; rewrite ?IH; intuition.
Qed.

Lemma stable_sort_In {A : Type} (less : A -> A -> bool) (y : A) (l : list A) :
  In y (stable_sort less l) <-> In y l.
Proof.
  induction l as [| x l IH]; simpl; [tauto |].
  rewrite stable_insert_In, IH. intuition.
Qed.

(** Insertion never moves a note across one at the same place: the sort is
    stable. *)
Lemma stable_insert_filter (position : Z) (colour : NoteColour) (x : Note)
  (l : list Note) :
  filter (note_at position colour) (stable_insert note_less x l)
  = filter (note_at position colour) (x :: l).
Proof.
  induction l as [| y l IH]; [reflexivity |].
  simpl stable_insert. destruct (note_less y x) eqn:Hless; [| reflexivity].
  simpl filter in *. rewrite IH.
  destruct (note_at position colour x) eqn:Hx;
    destruct (note_at position colour y) eqn:Hy; try reflexivity.
  apply note_at_spec in Hx, Hy. apply note_less_spec in Hless.
  destruct Hx as [Hx1 Hx2], Hy as [Hy1 Hy2].
  rewrite Hx1, Hy1, Hx2, Hy2 in Hless. lia.
Qed.

Lemma stable_sort_filter (position : Z) (colour : NoteColour) (l : list Note) :
  filter (note_at position colour) (stable_sort note_less l)
  = filter (note_at position colour) l.
Proof.
  induction l as [| x l IH]; [reflexivity |].
  simpl stable_sort. rewrite stable_insert_filter. simpl. now rewrite IH.
Qed.

Lemma stable_insert_sorted (x : Note) (l : list Note) :
  StronglySorted note_not_after l ->
  StronglySorted note_not_after (stable_insert note_less x l).
Proof.
  induction 1 as [| y l Hl IH Hy]; simpl.
  - constructor; constructor.
  - destruct (note_less y x) eqn:Hless.
    + constructor; [exact IH |].
      apply Forall_forall. intros z Hz.
      apply stable_insert_In in Hz. destruct Hz as [-> | Hz].
      * apply note_not_after_spec. apply note_less_spec in Hless. lia.
      * rewrite Forall_forall in Hy. now apply Hy.
    + constructor; [constructor; assumption |].
      constructor; [exact Hless |].
      rewrite Forall_forall in Hy |- *. intros z Hz.
      specialize (Hy z Hz).
      apply note_not_after_spec in Hy. apply note_not_after_spec.
      change (note_not_after x y) in Hless.
      apply note_not_after_spec in Hless. lia.
Qed.

Lemma stable_sort_sorted (l : list Note) :
  StronglySorted note_not_after (stable_sort note_less l).
Proof.
  induction l as [| x l IH]; simpl.
  - constructor.
  - now apply stable_insert_sorted.
Qed.

Lemma push_distinct_incl (notes : list Note) :
  forall prev n, In n (push_distinct prev notes) -> In n (prev :: notes).
Proof.
  induction notes as [| p notes IH]; intros prev n; simpl.
  - tauto.
  - destruct (note_differs p prev); simpl; intros H.
    + destruct H as [H | H]; [now left | right; now apply IH].
    + right. now apply IH.
Qed.

Lemma push_distinct_sorted (notes : list Note) :
  forall prev,
    StronglySorted note_not_after (prev :: notes) ->
    StronglySorted (fun a b => note_less a b = true) (push_distinct prev notes).
Proof.
  induction notes as [| p notes IH]; intros prev Hs; simpl.
  - constructor; constructor.
  - inversion Hs as [| ? ? Hs' Hall]; subst.
    destruct (note_differs p prev) eqn:Hd.
    + constructor; [now apply IH |].
      apply Forall_forall. intros z Hz.
      apply push_distinct_incl in Hz.
      assert (Hpz : note_not_after p z).
      { destruct Hz as [<- | Hz].
        - apply note_not_after_spec. lia.
        - inversion Hs' as [| ? ? _ Hp]; subst.
          rewrite Forall_forall in Hp. now apply Hp. }
      inversion Hall as [| ? ? Hprev _]; subst.
      apply note_not_after_spec in Hpz, Hprev. apply note_less_spec.
      apply not_false_iff_true in Hd. rewrite note_differs_spec in Hd. lia.
    + now apply IH.
Qed.

Lemma push_distinct_filter (position : Z) (colour : NoteColour)
  (notes : list Note) :
  forall prev,
    StronglySorted note_not_after (prev :: notes) ->
    filter (note_at position colour) (push_distinct prev notes)
    = keep_last (filter (note_at position colour) (prev :: notes)).
Proof.
  induction notes as [| p notes IH]; intros prev Hs.
  - simpl. destruct (note_at position colour prev); reflexivity.
  - inversion Hs as [| ? ? Hs' Hall]; subst.
    simpl push_distinct. destruct (note_differs p prev) eqn:Hd.
    + change (filter (note_at position colour) (prev :: push_distinct p notes))
        with (if note_at position colour prev
              then prev :: filter (note_at position colour) (push_distinct p notes)
              else filter (note_at position colour) (push_distinct p notes)).
      change (filter (note_at position colour) (prev :: p :: notes))
        with (if note_at position colour prev
              then prev :: filter (note_at position colour) (p :: notes)
              else filter (note_at position colour) (p :: notes)).
      rewrite (IH p Hs').
      destruct (note_at position colour prev) eqn:Hprev; [| reflexivity].
      assert (Hnone : filter (note_at position colour) (p :: notes) = []).
      { apply not_false_iff_true in Hd. rewrite note_differs_spec in Hd.
        inversion Hall as [| ? ? Hpp _]; subst.
        apply note_not_after_spec in Hpp.
        apply note_at_spec in Hprev. destruct Hprev as [Hp1 Hp2].
        assert (Hgen : forall z, In z (p :: notes) ->
                                 note_at position colour z = false).
        { intros z Hz. apply not_true_iff_false. rewrite note_at_spec.
          intros [Hz1 Hz2].
          assert (Hpz : note_not_after p z).
          { destruct Hz as [<- | Hz].
            - apply note_not_after_spec. lia.
            - inversion Hs' as [| ? ? _ Hp]; subst.
              rewrite Forall_forall in Hp. now apply Hp. }
          apply note_not_after_spec in Hpz.
          rewrite Hz1, Hz2, <- Hp1, <- Hp2 in *. lia. }
        clear - Hgen. induction (p :: notes) as [| z l IHl]; [reflexivity |].
        simpl. rewrite (Hgen z (or_introl eq_refl)).
        apply IHl. intros w Hw. apply Hgen. now right. }
      rewrite Hnone. reflexivity.
    + rewrite (IH p Hs').
      apply note_differs_spec in Hd. destruct Hd as [Hd1 Hd2].
      assert (Hsame : note_at position colour prev = note_at position colour p).
      { unfold note_at. now rewrite Hd1, Hd2. }
      change (filter (note_at position colour) (prev :: p :: notes))
        with (if note_at position colour prev
              then prev :: filter (note_at position colour) (p :: notes)
              else filter (note_at position colour) (p :: notes)).
      rewrite Hsame. simpl filter.
      destruct (note_at position colour p); [| reflexivity].
      now rewrite keep_last_cons2.
Qed.

Lemma NoteTrack_notes_push (notes : list Note) :
  NoteTrack_notes notes
  = match stable_sort note_less notes with
    | [] => []
    | prev_note :: rest => push_distinct prev_note rest
    end.
Proof.
  unfold NoteTrack_notes.
  destruct (stable_sort note_less notes) as [| n rest]; [reflexivity |].
  simpl.
  assert (H : note_differs n n = false) by (now apply note_differs_spec).
  now rewrite H.
Qed.

(** C8.  The notes of a [NoteTrack] are in strictly increasing order of
    [(position, colour)]; at every [(position, colour)] they hold exactly the
    last note the input has there (the stable sort keeps the input order of
    such notes), so one note when the input has some and none otherwise. *)
Theorem NoteTrack_notes_sorted_unique (notes : list Note) :
  StronglySorted (fun a b => note_less a b = true) (NoteTrack_notes notes)
  /\ (forall position colour,
        filter (note_at position colour) (stable_sort note_less notes)
        = filter (note_at position colour) notes)
  /\ (forall position colour,
        filter (note_at position colour) (NoteTrack_notes notes)
        = keep_last (filter (note_at position colour) notes))
  /\ (forall position colour,
        length (filter (note_at position colour) (NoteTrack_notes notes))
        = if existsb (note_at position colour) notes then 1%nat else 0%nat).
Proof.
  assert (Hkeep : forall position colour,
             filter (note_at position colour) (NoteTrack_notes notes)
             = keep_last (filter (note_at position colour) notes)).
  { intros position colour.
    rewrite NoteTrack_notes_push, <- (stable_sort_filter position colour notes).
    pose proof (stable_sort_sorted notes) as Hs.
    destruct (stable_sort note_less notes) as [| n rest]; [reflexivity |].
    now apply push_distinct_filter. }
  split; [| split; [| split]].
  - rewrite NoteTrack_notes_push.
    pose proof (stable_sort_sorted notes) as Hs.
    destruct (stable_sort note_less notes) as [| n rest]; [constructor |].
    now apply push_distinct_sorted.
  - intros; apply stable_sort_filter.
  - exact Hkeep.
  - intros position colour. rewrite Hkeep, keep_last_length.
    induction notes as [| x l IHl]; [reflexivity |].
    simpl. destruct (note_at position colour x); simpl; [reflexivity |].
    apply IHl.
    intros p c. rewrite NoteTrack_notes_push, <- (stable_sort_filter p c l).
    pose proof (stable_sort_sorted l) as Hs.
    destruct (stable_sort note_less l) as [| n rest]; [reflexivity |].
    now apply push_distinct_filter.
Qed.

(** ** Whammy ranges *)

Lemma pair_before_all (x h : Q * Q) (t : list (Q * Q)) :
  pair_before x h ->
  Forall pair_nonempty (h :: t) ->
  StronglySorted pair_before (h :: t) ->
  Forall (pair_before x) (h :: t).
Proof.
  intros Hxh Hne Hs.
  inversion Hs as [| ? ? _ Hall]; subst.
  inversion Hne as [| ? ? Hh _]; subst.
  constructor; [exact Hxh |].
  rewrite Forall_forall in Hall |- *. intros z Hz.
  specialize (Hall z Hz).
  unfold pair_before, pair_nonempty in *. lra.
Qed.

Lemma merge_ranges_separated (ranges : list (Q * Q)) :
  forall pair_,
    pair_nonempty pair_ ->
    Forall pair_nonempty ranges ->
    Forall pair_nonempty (merge_ranges pair_ ranges)
    /\ StronglySorted pair_before (merge_ranges pair_ ranges)
    /\ exists e rest,
         merge_ranges pair_ ranges = (fst pair_, e) :: rest.
Proof.
  induction ranges as [| p ranges IH]; intros pair_ Hpair Hne; simpl.
  - repeat split.
    + constructor; [exact Hpair | constructor].
    + constructor; constructor.
    + exists (snd pair_), []. now destruct pair_.
  - inversion Hne as [| ? ? Hp Hne']; subst.
    destruct (Qleb (fst p) (snd pair_)) eqn:Hle.
    + destruct (IH (fst pair_, std_max (snd pair_) (snd p)))
        as (Hne1 & Hs1 & e & rest & Heq); [| exact Hne' |].
      { unfold pair_nonempty, std_max in *; simpl. qcases; lra. }
      repeat split; auto. exists e, rest. exact Heq.
    + apply Qleb_false in Hle.
      destruct (IH p Hp Hne') as (Hne1 & Hs1 & e & rest & Heq).
      repeat split.
      * constructor; assumption.
      * constructor; [exact Hs1 |].
        rewrite Heq in *. apply pair_before_all; auto.
      * exists (snd pair_), (merge_ranges p ranges). now destruct pair_.
Qed.

Lemma span_range_nonempty
  (beats_to_seconds seconds_to_beats : TimeConverter -> Q -> Q)
  (converter : TimeConverter) (phrases : list StarPower) (resolution : Z)
  (early_timing_window lazy_whammy : Q) (span : Z * Z) :
  Forall pair_nonempty
    (span_range beats_to_seconds seconds_to_beats converter phrases resolution
       early_timing_window lazy_whammy span).
Proof.
  unfold span_range. destruct span as [position length].
  destruct (length =? 0)%Z; [constructor |].
  destruct (negb _); [constructor |].
  match goal with |- context [Qltb ?a ?b] => destruct (Qltb a b) eqn:E end;
    [| constructor].
  apply Qltb_true in E. constructor; [exact E | constructor].
Qed.

Lemma merged_ranges_separated
  (beats_to_seconds seconds_to_beats : TimeConverter -> Q -> Q)
  (converter : TimeConverter) (note_spans : list (Z * Z))
  (phrases : list StarPower) (resolution : Z) (early_whammy lazy_whammy : Q) :
  let merged :=
    merged_ranges beats_to_seconds seconds_to_beats converter note_spans
      phrases resolution early_whammy lazy_whammy in
  Forall pair_nonempty merged /\ StronglySorted pair_before merged.
Proof.
  unfold merged_ranges.
  match goal with |- context [stable_sort range_less ?l] => set (ranges := l) end.
  assert (Hne : Forall pair_nonempty (stable_sort range_less ranges)).
  { apply Forall_forall. intros x Hx. apply stable_sort_In in Hx.
    unfold ranges in Hx. apply in_flat_map in Hx. destruct Hx as (span & _ & Hx).
    pose proof (span_range_nonempty beats_to_seconds seconds_to_beats converter
                  phrases resolution ((7 # 100) * early_whammy) lazy_whammy span)
      as Hall.
    rewrite Forall_forall in Hall. now apply Hall. }
  destruct (stable_sort range_less ranges) as [| pair_ rest].
  - split; constructor.
  - inversion Hne as [| ? ? Hpair Hrest]; subst.
    destruct (merge_ranges_separated rest pair_ Hpair Hrest) as (Ha & Hb & _).
    split; assumption.
Qed.

Lemma StronglySorted_map {A B : Type} (R : A -> A -> Prop) (S : B -> B -> Prop)
  (f : A -> B) (l : list A) :
  (forall x y, R x y -> S (f x) (f y)) ->
  StronglySorted R l -> StronglySorted S (map f l).
Proof.
  intros HRS. induction 1 as [| x l Hl IH Hx]; simpl; constructor; auto.
  rewrite Forall_forall in Hx. apply Forall_forall. intros y Hy.
  apply in_map_iff in Hy. destruct Hy as (z & <- & Hz). auto.
Qed.

Lemma StronglySorted_weaken {A : Type} (R S : A -> A -> Prop) (P : A -> Prop)
  (l : list A) :
  (forall x y, P x -> P y -> R x y -> S x y) ->
  Forall P l -> StronglySorted R l -> StronglySorted S l.
Proof.
  intros HRS HP. induction 1 as [| x l Hl IH Hx]; constructor.
  - apply IH. now inversion HP.
  - inversion HP as [| ? ? Px Pl]; subst.
    rewrite Forall_forall in *. intros y Hy. auto.
Qed.

(** C4.  Whatever the note spans, phrases, resolution, sync track and whammy
    parameters are, the whammy ranges of the constructed [SpData] each cover
    some beats, every range ends strictly before each later one begins
    (pairwise disjoint), and the ranges are in increasing order of their
    start. *)
Theorem SpData_whammy_ranges_sorted_disjoint
  (beats_to_seconds seconds_to_beats : TimeConverter -> Q -> Q)
  (note_spans : list (Z * Z)) (phrases : list StarPower) (resolution : Z)
  (sync_track : SyncTrack) (early_whammy lazy_whammy : Q) :
  let ranges :=
    m_whammy_ranges
      (SpData_ctor beats_to_seconds seconds_to_beats note_spans phrases
         resolution sync_track early_whammy lazy_whammy) in
  Forall range_nonempty ranges
  /\ StronglySorted range_before ranges
  /\ StronglySorted (fun p q => beat (wr_start p) < beat (wr_start q)) ranges.
Proof.
  intros ranges.
  assert (H : Forall range_nonempty ranges /\ StronglySorted range_before ranges).
  { unfold ranges, SpData_ctor; simpl.
    destruct (merged_ranges_separated beats_to_seconds seconds_to_beats
                (TimeConverter_ctor sync_track (inject_Z resolution))
                note_spans phrases resolution early_whammy lazy_whammy)
      as [Hne Hs].
    split.
    - apply Forall_forall. intros p Hp. apply in_map_iff in Hp.
      destruct Hp as (x & <- & Hx). rewrite Forall_forall in Hne.
      exact (Hne x Hx).
    - eapply StronglySorted_map; [| exact Hs]. intros x y Hxy. exact Hxy. }
  destruct H as [Hne Hs]. repeat split; auto.
  eapply StronglySorted_weaken; [| exact Hne | exact Hs].
  unfold range_nonempty, range_before. intros x y Hx Hy Hxy. lra.
Qed.

(** ** The measure/beat table *)

Lemma anchor_le_trans (a b c : MeasureTimestamp) :
  anchor_le a b -> anchor_le b c -> anchor_le a c.
Proof. unfold anchor_le. intros [H | H] [K | K]; [left | left | left | right]; lra. Qed.

Lemma anchor_le_refl (a : MeasureTimestamp) : anchor_le a a.
Proof. right; split; reflexivity. Qed.

Lemma Qdiv_same_one (x y : Q) : ~ y == 0 -> x == y -> x / y == 1.
Proof. intros Hy Hxy. rewrite Hxy. unfold Qdiv. now apply Qmult_inv_r. Qed.

Lemma Qdiv_pos (x y : Q) : 0 < x -> 0 < y -> 0 < x / y.
Proof. intros Hx Hy. apply Qlt_shift_div_l; [exact Hy | lra]. Qed.


Lemma Qdiv_le_mono (x y c : Q) : 0 < c -> x <= y -> x / c <= y / c.
Proof.
  intros Hc Hxy. unfold Qdiv. apply Qmult_le_compat_r; [exact Hxy |].
  apply Qinv_le_0_compat. lra.
Qed.

Lemma Qdiv_lt_mono (x y c : Q) : 0 < c -> x < y -> x / c < y / c.
Proof.
  intros Hc Hxy. unfold Qdiv. apply Qmult_lt_compat_r; [| exact Hxy].
  now apply Qinv_lt_0_compat.
Qed.

Lemma anchor_le_all (pos a : MeasureTimestamp) (tbl : list MeasureTimestamp) :
  table_ok (pos :: tbl) -> In a (pos :: tbl) -> anchor_le pos a.
Proof.
  intros Hs [<- | Ha]; [apply anchor_le_refl |].
  inversion Hs as [| ? ? _ Hall]; subst.
  rewrite Forall_forall in Hall. now apply Hall.
Qed.

Lemma beats_to_measures_from_anchor (last_rate : Q)
  (tbl : list MeasureTimestamp) :
  forall prev a,
    table_ok tbl -> In a tbl ->
    match prev with None => True | Some p => mt_beat p < mt_beat a end ->
    beats_to_measures_from last_rate prev tbl (mt_beat a) == mt_measure a.
Proof.
  induction tbl as [| pos tbl IH]; intros prev a Hs Ha Hprev; [destruct Ha |].
  simpl. destruct (Qltb (mt_beat pos) (mt_beat a)) eqn:Hlt.
  - apply Qltb_true in Hlt. apply IH.
    + now inversion Hs.
    + destruct Ha as [<- | Ha]; [lra | exact Ha].
    + exact Hlt.
  - apply Qltb_false in Hlt.
    pose proof (anchor_le_all pos a tbl Hs Ha) as [[Hb Hm] | [Hb Hm]]; [lra |].
    destruct prev as [p |].
    + rewrite Qdiv_same_one; lra.
    + qconst. lra.
Qed.

Lemma measures_to_beats_from_anchor (last_rate : Q)
  (tbl : list MeasureTimestamp) :
  forall prev a,
    table_ok tbl -> In a tbl ->
    match prev with None => True | Some p => mt_measure p < mt_measure a end ->
    measures_to_beats_from last_rate prev tbl (mt_measure a) == mt_beat a.
Proof.
  induction tbl as [| pos tbl IH]; intros prev a Hs Ha Hprev; [destruct Ha |].
  simpl. destruct (Qltb (mt_measure pos) (mt_measure a)) eqn:Hlt.
  - apply Qltb_true in Hlt. apply IH.
    + now inversion Hs.
    + destruct Ha as [<- | Ha]; [lra | exact Ha].
    + exact Hlt.
  - apply Qltb_false in Hlt.
    pose proof (anchor_le_all pos a tbl Hs Ha) as [[Hb Hm] | [Hb Hm]]; [lra |].
    destruct prev as [p |].
    + rewrite Qdiv_same_one; lra.
    + qconst. lra.
Qed.

Lemma StronglySorted_snoc {A : Type} (R : A -> A -> Prop) (l : list A) (x : A) :
  StronglySorted R l -> Forall (fun a => R a x) l -> StronglySorted R (l ++ [x]).
Proof.
  induction 1 as [| y l Hl IH Hy]; intros Hx; simpl.
  - constructor; constructor.
  - inversion Hx as [| ? ? Hyx Hlx]; subst.
    constructor; [now apply IH |].
    apply Forall_app. split; [exact Hy | constructor; [exact Hyx | constructor]].
Qed.

Lemma converter_step_ok (resolution : Q) (st : ConverterLoop)
  (ts : TimeSignature) :
  0 < resolution ->
  converter_loop_ok resolution st ->
  time_sig_ok ts ->
  (last_tick st <= ts_position ts)%Z ->
  converter_loop_ok resolution (converter_step resolution st ts).
Proof.
  intros Hres (Hrate & Htick & Htbl & Hall) (Hpos & Hnum & Hden) Hle.
  set (virtual := mkMeasureTimestamp (last_measure st)
                    (inject_Z (last_tick st) / resolution)) in *.
  set (new := mkMeasureTimestamp
                (last_measure st
                 + inject_Z (uint32_sub (ts_position ts) (last_tick st))
                   / (resolution * last_beat_rate st))
                (inject_Z (ts_position ts) / resolution)).
  assert (Hsub : uint32_sub (ts_position ts) (last_tick st)
                 = (ts_position ts - last_tick st)%Z).
  { unfold uint32_sub. apply Z.mod_small. lia. }
  assert (Hden' : 0 < resolution * last_beat_rate st).
  { apply Qmult_lt_0_compat; assumption. }
  assert (Hstep : anchor_le virtual new).
  { unfold anchor_le, virtual, new; simpl. rewrite Hsub.
    destruct (Z.eq_dec (ts_position ts) (last_tick st)) as [Heq | Hne].
    - right. rewrite Heq, Z.sub_diag. split; [reflexivity |].
      unfold Qdiv. change (inject_Z 0) with 0. lra.
    - left. split.
      + apply Qdiv_lt_mono; [exact Hres |]. rewrite <- Zlt_Qlt. lia.
      + assert (0 < inject_Z (ts_position ts - last_tick st)
                    / (resolution * last_beat_rate st)); [| lra].
        apply Qdiv_pos; [| exact Hden'].
        change 0 with (inject_Z 0). rewrite <- Zlt_Qlt. lia. }
  unfold converter_loop_ok, converter_step; simpl. fold new.
  assert (Hall' : Forall (fun a => anchor_le a new) (timestamps st)).
  { rewrite Forall_forall in Hall |- *. intros a Ha.
    eapply anchor_le_trans; [now apply Hall | exact Hstep]. }
  repeat split.
  - apply Qdiv_pos.
    + apply Qmult_lt_0_compat; [| unfold DEFAULT_BEAT_RATE; lra].
      change 0 with (inject_Z 0). rewrite <- Zlt_Qlt. lia.
    + change 0 with (inject_Z 0). rewrite <- Zlt_Qlt. lia.
  - lia.
  - lia.
  - now apply StronglySorted_snoc.
  - apply Forall_app. split; [exact Hall' |].
    constructor; [apply anchor_le_refl | constructor].
Qed.

Lemma converter_loop_fold_ok (resolution : Q) (tss : list TimeSignature) :
  forall st,
    0 < resolution ->
    converter_loop_ok resolution st ->
    Forall time_sig_ok tss ->
    StronglySorted (fun a b => (ts_position a <= ts_position b)%Z) tss ->
    Forall (fun ts => (last_tick st <= ts_position ts)%Z) tss ->
    converter_loop_ok resolution (fold_left (converter_step resolution) tss st).
Proof.
  induction tss as [| ts tss IH]; intros st Hres Hst Hok Hsorted Hfrom; simpl.
  - exact Hst.
  - inversion Hok as [| ? ? Hts Hok']; subst.
    inversion Hsorted as [| ? ? Hsorted' Hts_le]; subst.
    inversion Hfrom as [| ? ? Hfirst _]; subst.
    apply IH; auto.
    apply converter_step_ok; assumption.
Qed.

Lemma TimeConverter_ctor_ok (sync_track : SyncTrack) (resolution : Q) :
  0 < resolution ->
  sync_track_ok sync_track ->
  table_ok (m_measure_timestamps (TimeConverter_ctor sync_track resolution))
  /\ 0 < m_last_beat_rate (TimeConverter_ctor sync_track resolution).
Proof.
  intros Hres [Hok Hsorted].
  pose proof (converter_loop_fold_ok resolution (time_sigs sync_track)
                (mkConverterLoop 0%Z DEFAULT_BEAT_RATE 0 []) Hres) as H.
  destruct H as (Hrate & _ & Htbl & _); auto.
  - unfold converter_loop_ok; simpl.
    split; [reflexivity |]. split; [lia |]. split; constructor.
  - simpl. rewrite Forall_forall in Hok |- *. intros ts Hts.
    destruct (Hok ts Hts) as (Hpos & _). lia.
Qed.

(** C5.  On every anchor of the table that the constructor builds for a
    positive resolution and well-formed time signatures, the two conversions
    are inverse to one another: the measure of the anchor's beat is the
    anchor's measure, and the beat of the anchor's measure is the anchor's
    beat. *)
Theorem anchors_round_trip (sync_track : SyncTrack) (resolution : Q)
  (Hres : 0 < resolution) (Hsync : sync_track_ok sync_track)
  (anchor : MeasureTimestamp)
  (Hanchor : In anchor
               (m_measure_timestamps (TimeConverter_ctor sync_track resolution))) :
  beats_to_measures (TimeConverter_ctor sync_track resolution) (mt_beat anchor)
  == mt_measure anchor
  /\ measures_to_beats (TimeConverter_ctor sync_track resolution)
       (mt_measure anchor)
     == mt_beat anchor.
Proof.
  destruct (TimeConverter_ctor_ok sync_track resolution Hres Hsync) as [Htbl _].
  split.
  - apply beats_to_measures_from_anchor; auto.
  - apply measures_to_beats_from_anchor; auto.
Qed.

Lemma anchors_round_trip_witness :
  let sync_track :=
    mkSyncTrack [mkTimeSignature 0 4 4; mkTimeSignature 768 3 4] [] in
  let tc := TimeConverter_ctor sync_track 192 in
  Forall
    (fun anchor =>
       beats_to_measures tc (mt_beat anchor) == mt_measure anchor
       /\ measures_to_beats tc (mt_measure anchor) == mt_beat anchor)
    (m_measure_timestamps tc).
Proof.
  intros sync_track tc. apply Forall_forall. intros anchor Hanchor.
  apply (anchors_round_trip sync_track 192).
  - reflexivity.
  - split; repeat constructor; simpl; lia.
  - exact Hanchor.
Defined.

(** ** The conversions are increasing *)

Lemma interp_diff (x0 y0 x1 y1 x x' : Q) :
  interp x0 y0 x1 y1 x' - interp x0 y0 x1 y1 x
  == ((y1 - y0) * / (x1 - x0)) * (x' - x).
Proof. unfold interp, Qdiv. ring. Qed.

Lemma interp_slope_pos (x0 y0 x1 y1 : Q) :
  x0 < x1 -> y0 < y1 -> 0 < (y1 - y0) * / (x1 - x0).
Proof.
  intros Hx Hy. apply Qmult_lt_0_compat; [lra |].
  apply Qinv_lt_0_compat. lra.
Qed.

Lemma interp_mono (x0 y0 x1 y1 x x' : Q) :
  x0 < x1 -> y0 < y1 -> x <= x' ->
  interp x0 y0 x1 y1 x <= interp x0 y0 x1 y1 x'.
Proof.
  intros Hx Hy Hxx.
  pose proof (interp_diff x0 y0 x1 y1 x x') as Hd.
  pose proof (interp_slope_pos x0 y0 x1 y1 Hx Hy) as Hs.
  assert (0 <= ((y1 - y0) * / (x1 - x0)) * (x' - x)); [| lra].
  apply Qmult_le_0_compat; lra.
Qed.

Lemma interp_strict (x0 y0 x1 y1 x x' : Q) :
  x0 < x1 -> y0 < y1 -> x < x' ->
  interp x0 y0 x1 y1 x < interp x0 y0 x1 y1 x'.
Proof.
  intros Hx Hy Hxx.
  pose proof (interp_diff x0 y0 x1 y1 x x') as Hd.
  pose proof (interp_slope_pos x0 y0 x1 y1 Hx Hy) as Hs.
  assert (0 < ((y1 - y0) * / (x1 - x0)) * (x' - x)); [| lra].
  apply Qmult_lt_0_compat; lra.
Qed.

Lemma interp_left (x0 y0 x1 y1 : Q) : interp x0 y0 x1 y1 x0 == y0.
Proof. unfold interp, Qdiv. ring. Qed.

Lemma interp_right (x0 y0 x1 y1 : Q) :
  x0 < x1 -> interp x0 y0 x1 y1 x1 == y1.
Proof.
  intros Hx. unfold interp. rewrite Qdiv_same_one; [ring | lra | reflexivity].
Qed.

Lemma table_ok_tail (pos : MeasureTimestamp) (tbl : list MeasureTimestamp) :
  table_ok (pos :: tbl) -> table_ok tbl.
Proof. intros H. now inversion H. Qed.

Lemma table_ok_head (p x : MeasureTimestamp) (tbl : list MeasureTimestamp) :
  table_ok (p :: x :: tbl) -> anchor_le p x.
Proof. intros H. apply (anchor_le_all p x (x :: tbl) H). right. now left. Qed.

Section Monotone.

Variable last_rate : Q.
Hypothesis last_rate_pos : 0 < last_rate.

Lemma beats_to_measures_from_above (tbl : list MeasureTimestamp) :
  forall pos beats,
    table_ok (pos :: tbl) ->
    mt_beat pos < beats ->
    mt_measure pos < beats_to_measures_from last_rate (Some pos) tbl beats.
Proof.
  induction tbl as [| x tbl IH]; intros pos beats Hs Hlt; simpl.
  - assert (0 < (beats - mt_beat pos) / last_rate); [| unfold to_measure; lra].
    apply Qdiv_pos; lra.
  - pose proof (table_ok_head _ _ _ Hs) as Hpx.
    destruct (Qltb (mt_beat x) beats) eqn:Hx.
    + apply Qltb_true in Hx.
      pose proof (IH x beats (table_ok_tail _ _ Hs) Hx) as Hrec.
      destruct Hpx as [[_ Hm] | [_ Hm]]; lra.
    + apply Qltb_false in Hx.
      destruct Hpx as [[Hb Hm] | [Hb Hm]]; [| lra].
      pose proof (interp_strict (mt_beat pos) (mt_measure pos) (mt_beat x)
                    (mt_measure x) (mt_beat pos) beats Hb Hm Hlt) as Hi.
      rewrite interp_left in Hi. exact Hi.
Qed.

Lemma beats_to_measures_from_mono (tbl : list MeasureTimestamp) :
  forall p b1 b2,
    table_ok (p :: tbl) ->
    mt_beat p < b1 -> b1 <= b2 ->
    beats_to_measures_from last_rate (Some p) tbl b1
    <= beats_to_measures_from last_rate (Some p) tbl b2
    /\ (b1 < b2 ->
        beats_to_measures_from last_rate (Some p) tbl b1
        < beats_to_measures_from last_rate (Some p) tbl b2).
Proof.
  induction tbl as [| x tbl IH]; intros p b1 b2 Hs Hp Hle; simpl.
  - unfold to_measure. split.
    + assert ((b1 - mt_beat p) / last_rate <= (b2 - mt_beat p) / last_rate);
        [| lra].
      apply Qdiv_le_mono; lra.
    + intros Hlt.
      assert ((b1 - mt_beat p) / last_rate < (b2 - mt_beat p) / last_rate);
        [| lra].
      apply Qdiv_lt_mono; lra.
  - pose proof (table_ok_head _ _ _ Hs) as Hpx.
    destruct (Qltb (mt_beat x) b1) eqn:H1; destruct (Qltb (mt_beat x) b2) eqn:H2; qbool.
    + apply IH; auto. now apply table_ok_tail in Hs.
    + lra.
    + destruct Hpx as [[Hb Hm] | [Hb Hm]]; [| lra].
      pose proof (interp_mono (mt_beat p) (mt_measure p) (mt_beat x)
                    (mt_measure x) b1 (mt_beat x) Hb Hm H1) as Hi.
      rewrite interp_right in Hi by exact Hb.
      pose proof (beats_to_measures_from_above tbl x b2
                    (table_ok_tail _ _ Hs) H2) as Ha.
      unfold interp in Hi. split; [| intros _]; lra.
    + destruct Hpx as [[Hb Hm] | [Hb Hm]]; [| lra].
      split.
      * exact (interp_mono _ _ _ _ b1 b2 Hb Hm Hle).
      * intros Hlt. exact (interp_strict _ _ _ _ b1 b2 Hb Hm Hlt).
Qed.

Lemma measures_to_beats_from_above (tbl : list MeasureTimestamp) :
  forall pos measures,
    table_ok (pos :: tbl) ->
    mt_measure pos < measures ->
    mt_beat pos < measures_to_beats_from last_rate (Some pos) tbl measures.
Proof.
  induction tbl as [| x tbl IH]; intros pos measures Hs Hlt; simpl.
  - assert (0 < (measures - mt_measure pos) * last_rate);
      [| unfold to_beat; lra].
    apply Qmult_lt_0_compat; lra.
  - pose proof (table_ok_head _ _ _ Hs) as Hpx.
    destruct (Qltb (mt_measure x) measures) eqn:Hx.
    + apply Qltb_true in Hx.
      pose proof (IH x measures (table_ok_tail _ _ Hs) Hx) as Hrec.
      destruct Hpx as [[Hb _] | [Hb _]]; lra.
    + apply Qltb_false in Hx.
      destruct Hpx as [[Hb Hm] | [Hb Hm]]; [| lra].
      pose proof (interp_strict (mt_measure pos) (mt_beat pos) (mt_measure x)
                    (mt_beat x) (mt_measure pos) measures Hm Hb Hlt) as Hi.
      rewrite interp_left in Hi. exact Hi.
Qed.

Lemma measures_to_beats_from_mono (tbl : list MeasureTimestamp) :
  forall p m1 m2,
    table_ok (p :: tbl) ->
    mt_measure p < m1 -> m1 <= m2 ->
    measures_to_beats_from last_rate (Some p) tbl m1
    <= measures_to_beats_from last_rate (Some p) tbl m2
    /\ (m1 < m2 ->
        measures_to_beats_from last_rate (Some p) tbl m1
        < measures_to_beats_from last_rate (Some p) tbl m2).
Proof.
  induction tbl as [| x tbl IH]; intros p m1 m2 Hs Hp Hle; simpl.
  - unfold to_beat. split.
    + assert ((m1 - mt_measure p) * last_rate <= (m2 - mt_measure p) * last_rate);
        [| lra].
      apply Qmult_le_compat_r; lra.
    + intros Hlt.
      assert ((m1 - mt_measure p) * last_rate < (m2 - mt_measure p) * last_rate);
        [| lra].
      apply Qmult_lt_compat_r; lra.
  - pose proof (table_ok_head _ _ _ Hs) as Hpx.
    destruct (Qltb (mt_measure x) m1) eqn:H1;
      destruct (Qltb (mt_measure x) m2) eqn:H2; qbool.
    + apply IH; auto. now apply table_ok_tail in Hs.
    + lra.
    + destruct Hpx as [[Hb Hm] | [Hb Hm]]; [| lra].
      pose proof (interp_mono (mt_measure p) (mt_beat p) (mt_measure x)
                    (mt_beat x) m1 (mt_measure x) Hm Hb H1) as Hi.
      rewrite interp_right in Hi by exact Hm.
      pose proof (measures_to_beats_from_above tbl x m2
                    (table_ok_tail _ _ Hs) H2) as Ha.
      unfold interp in Hi. split; [| intros _]; lra.
    + destruct Hpx as [[Hb Hm] | [Hb Hm]]; [| lra].
      split.
      * exact (interp_mono _ _ _ _ m1 m2 Hm Hb Hle).
      * intros Hlt. exact (interp_strict _ _ _ _ m1 m2 Hm Hb Hlt).
Qed.

End Monotone.

Lemma beats_to_measures_mono (tc : TimeConverter) (b1 b2 : Q) :
  converter_ok tc -> b1 <= b2 ->
  beats_to_measures tc b1 <= beats_to_measures tc b2
  /\ (b1 < b2 -> beats_to_measures tc b1 < beats_to_measures tc b2).
Proof.
  intros (Htbl & Hne & Hrate) Hle. unfold beats_to_measures.
  destruct (m_measure_timestamps tc) as [| pos tbl]; [congruence |]. simpl.
  destruct (Qltb (mt_beat pos) b1) eqn:H1; destruct (Qltb (mt_beat pos) b2) eqn:H2; qbool.
  - now apply beats_to_measures_from_mono.
  - lra.
  - pose proof (beats_to_measures_from_above _ Hrate tbl pos b2 Htbl H2) as Ha.
    qconst. split; [| intros _]; lra.
  - qconst. split; [| intros Hlt]; lra.
Qed.

Lemma measures_to_beats_mono (tc : TimeConverter) (m1 m2 : Q) :
  converter_ok tc -> m1 <= m2 ->
  measures_to_beats tc m1 <= measures_to_beats tc m2
  /\ (m1 < m2 -> measures_to_beats tc m1 < measures_to_beats tc m2).
Proof.
  intros (Htbl & Hne & Hrate) Hle. unfold measures_to_beats.
  destruct (m_measure_timestamps tc) as [| pos tbl]; [congruence |]. simpl.
  destruct (Qltb (mt_measure pos) m1) eqn:H1;
    destruct (Qltb (mt_measure pos) m2) eqn:H2; qbool.
  - now apply measures_to_beats_from_mono.
  - lra.
  - pose proof (measures_to_beats_from_above _ Hrate tbl pos m2 Htbl H2) as Ha.
    qconst. split; [| intros _]; lra.
  - qconst. split; [| intros Hlt]; lra.
Qed.

Lemma beats_to_measures_proper (tc : TimeConverter) (b1 b2 : Q) :
  converter_ok tc -> b1 == b2 ->
  beats_to_measures tc b1 == beats_to_measures tc b2.
Proof.
  intros Hok Heq.
  destruct (beats_to_measures_mono tc b1 b2 Hok) as [H1 _]; [lra |].
  destruct (beats_to_measures_mono tc b2 b1 Hok) as [H2 _]; [lra |].
  lra.
Qed.

Lemma measures_to_beats_proper (tc : TimeConverter) (m1 m2 : Q) :
  converter_ok tc -> m1 == m2 ->
  measures_to_beats tc m1 == measures_to_beats tc m2.
Proof.
  intros Hok Heq.
  destruct (measures_to_beats_mono tc m1 m2 Hok) as [H1 _]; [lra |].
  destruct (measures_to_beats_mono tc m2 m1 Hok) as [H2 _]; [lra |].
  lra.
Qed.

(** ** Integration over one whammy range *)

Lemma lower_bound_O {A V : Type} (comp : A -> V -> bool) (x : A) (l : list A)
  (v : V) :
  lower_bound comp (x :: l) v = O -> comp x v = false.
Proof. simpl. destruct (comp x v); [discriminate | reflexivity]. Qed.

Lemma lower_bound_S {A V : Type} (comp : A -> V -> bool) (l : list A) (v : V) :
  forall i,
    lower_bound comp l v = S i ->
    exists p rest,
      skipn i l = p :: rest
      /\ comp p v = true
      /\ match rest with [] => True | next :: _ => comp next v = false end.
Proof.
  induction l as [| x l IH]; intros i Hi; simpl in Hi; [discriminate |].
  destruct (comp x v) eqn:Hx; [| discriminate].
  injection Hi as Hi.
  destruct i as [| i].
  - exists x, l. simpl. repeat split; auto.
    destruct l as [| y l]; [exact I |].
    now apply lower_bound_O in Hi.
  - destruct (IH i Hi) as (p & rest & Hskip & Hp & Hrest).
    exists p, rest. simpl. auto.
Qed.

Lemma lower_bound_skipn {A V : Type} (comp : A -> V -> bool) (l : list A) (v : V) :
  match skipn (lower_bound comp l v) l with
  | [] => True
  | x :: _ => comp x v = false
  end.
Proof.
  induction l as [| x l IH]; simpl; [exact I |].
  destruct (comp x v) eqn:Hx; simpl; [exact IH | exact Hx].
Qed.

Lemma StronglySorted_skipn {A : Type} (R : A -> A -> Prop) (l : list A) :
  forall n, StronglySorted R l -> StronglySorted R (skipn n l).
Proof.
  induction l as [| x l IH]; intros [| n] Hs; simpl; auto.
  apply IH. now inversion Hs.
Qed.

Lemma Forall_skipn {A : Type} (P : A -> Prop) (l : list A) :
  forall n, Forall P l -> Forall P (skipn n l).
Proof.
  induction l as [| x l IH]; intros [| n] Hs; simpl; auto.
  apply IH. now inversion Hs.
Qed.

Lemma std_min_proper (a a' b b' : Q) :
  a == a' -> b == b' -> std_min a b == std_min a' b'.
Proof. intros Ha Hb. unfold std_min. qcases; lra. Qed.

Lemma std_max_proper (a a' b b' : Q) :
  a == a' -> b == b' -> std_max a b == std_max a' b'.
Proof. intros Ha Hb. unfold std_max. qcases; lra. Qed.

(** One unfolding of the loop. *)
Lemma whammy_range_loop_eq (rates : list BeatRate) (start end_ sp : Q) :
  whammy_range_loop rates start end_ sp
  = if Qlt_le_dec start end_ then
      match rates with
      | [] => sp
      | p :: rates' =>
          let subrange_end :=
            match rates' with
            | [] => end_
            | next :: _ => std_min end_ (br_position next)
            end in
          let sp := sp + (subrange_end - start) * net_sp_gain_rate p in
          if Qlt_le_dec sp 0 then - (1)
          else whammy_range_loop rates' subrange_end end_ (std_min sp 1)
      end
    else sp.
Proof. destruct rates; reflexivity. Qed.


(** The loop yields the sentinel [-1] or an amount in [[0, 1]]. *)
Lemma whammy_range_loop_cases (rates : list BeatRate) :
  forall start end_ sp,
    0 <= sp ->
    whammy_range_loop rates start end_ sp = - (1)
    \/ 0 <= whammy_range_loop rates start end_ sp.
Proof.
  induction rates as [| p rates IH]; intros start end_ sp Hsp;
    rewrite whammy_range_loop_eq; cbv zeta.
  - destruct (Qlt_le_dec start end_); right; exact Hsp.
  - destruct (Qlt_le_dec start end_); [| right; exact Hsp].
    match goal with |- context [Qlt_le_dec ?x 0] => destruct (Qlt_le_dec x 0) end.
    + left; reflexivity.
    + apply IH. apply std_min_glb; lra.
Qed.

Lemma whammy_range_loop_le_1 (rates : list BeatRate) :
  forall start end_ sp,
    sp <= 1 -> whammy_range_loop rates start end_ sp <= 1.
Proof.
  induction rates as [| p rates IH]; intros start end_ sp Hsp;
    rewrite whammy_range_loop_eq; cbv zeta.
  - destruct (Qlt_le_dec start end_); exact Hsp.
  - destruct (Qlt_le_dec start end_); [| exact Hsp].
    match goal with |- context [Qlt_le_dec ?x 0] => destruct (Qlt_le_dec x 0) end.
    + lra.
    + apply IH. apply std_min_le_r.
Qed.

Lemma whammy_range_loop_proper (rates : list BeatRate) :
  forall s s' e e' sp sp',
    s == s' -> e == e' -> sp == sp' ->
    whammy_range_loop rates s e sp == whammy_range_loop rates s' e' sp'.
Proof.
  induction rates as [| p rates IH]; intros s s' e e' sp sp' Hs He Hsp;
    rewrite (whammy_range_loop_eq _ s), (whammy_range_loop_eq _ s'); cbv zeta.
  - destruct (Qlt_le_dec s e), (Qlt_le_dec s' e'); lra.
  - set (sub := match rates with [] => e | next :: _ => std_min e (br_position next) end).
    set (sub' := match rates with [] => e' | next :: _ => std_min e' (br_position next) end).
    assert (Hsub : sub == sub').
    { unfold sub, sub'. destruct rates; [exact He |].
      apply std_min_proper; [exact He | reflexivity]. }
    assert (Hnew : sp + (sub - s) * net_sp_gain_rate p
                   == sp' + (sub' - s') * net_sp_gain_rate p).
    { rewrite Hsub, Hs, Hsp. reflexivity. }
    destruct (Qlt_le_dec s e), (Qlt_le_dec s' e'); try lra.
    destruct (Qlt_le_dec (sp + (sub - s) * net_sp_gain_rate p) 0),
      (Qlt_le_dec (sp' + (sub' - s') * net_sp_gain_rate p) 0); try lra.
    apply IH; auto. apply std_min_proper; [exact Hnew | reflexivity].
Qed.

Section Whammy_range.

Variable sd : SpData.

Lemma propagate_over_whammy_range_cases (start end_ sp : Q) :
  start <= end_ -> 0 <= sp ->
  propagate_over_whammy_range sd start end_ sp = - (1)
  \/ 0 <= propagate_over_whammy_range sd start end_ sp.
Proof.
  intros Hle Hsp. unfold propagate_over_whammy_range.
  destruct (lower_bound _ (m_beat_rates sd) start) as [| i] eqn:Hlb.
  - destruct (m_beat_rates sd) as [| p rates]; [right; exact Hsp |].
    apply lower_bound_O in Hlb. qbool.
    apply whammy_range_loop_cases.
    apply std_min_glb; [| lra].
    assert (0 <= std_min end_ (br_position p) - start).
    { pose proof (std_min_glb end_ (br_position p) start Hle Hlb). lra. }
    qconst. lra.
  - now apply whammy_range_loop_cases.
Qed.

Lemma propagate_over_whammy_range_le_1 (start end_ sp : Q) :
  sp <= 1 -> propagate_over_whammy_range sd start end_ sp <= 1.
Proof.
  intros Hsp. unfold propagate_over_whammy_range.
  destruct (lower_bound _ (m_beat_rates sd) start) as [| i].
  - destruct (m_beat_rates sd) as [| p rates]; [exact Hsp |].
    apply whammy_range_loop_le_1. apply std_min_le_r.
  - now apply whammy_range_loop_le_1.
Qed.


(** Over no beats the amount is unchanged. *)
Lemma propagate_over_whammy_range_same (start end_ sp : Q) :
  start == end_ -> sp <= 1 ->
  propagate_over_whammy_range sd start end_ sp == sp.
Proof.
  intros Heq Hsp. unfold propagate_over_whammy_range.
  destruct (lower_bound _ (m_beat_rates sd) start) as [| i] eqn:Hlb.
  - destruct (m_beat_rates sd) as [| p rates]; [reflexivity |].
    apply lower_bound_O in Hlb. qbool.
    rewrite whammy_range_loop_eq.
    assert (Hsub : std_min end_ (br_position p) == end_).
    { apply std_min_id. lra. }
    destruct (Qlt_le_dec (std_min end_ (br_position p)) end_); [lra |].
    rewrite std_min_id; [rewrite Hsub; qconst; lra |].
    rewrite Hsub. qconst. lra.
  - rewrite whammy_range_loop_eq.
    destruct (Qlt_le_dec start end_); [lra | reflexivity].
Qed.

End Whammy_range.

(** ** Where the bar runs out inside a whammy range *)



Lemma rates_sorted_next (p : BeatRate) (rates : list BeatRate) :
  rates_sorted (p :: rates) -> next_not_before (br_position p) (p :: rates).
Proof.
  intros Hs. inversion Hs as [| ? ? _ Hall]; subst.
  destruct rates as [| x rates]; simpl; auto.
  now inversion Hall.
Qed.


Section Whammy_endpoint.

Variable sd : SpData.
Hypothesis rates_ok : rates_sorted (m_beat_rates sd).


End Whammy_endpoint.

(** ** The end point does not depend on how far one looks *)


Section Whammy_stable.

Variable sd : SpData.
Hypothesis rates_ok : rates_sorted (m_beat_rates sd).


End Whammy_stable.

(** ** Well-formed SP data *)

Lemma ranges_ok_tail (tc : TimeConverter) (p : WhammyRange)
  (ranges : list WhammyRange) :
  ranges_ok tc (p :: ranges) -> ranges_ok tc ranges /\ ahead (wr_end p) ranges.
Proof.
  intros (Hne & Hs & Ht).
  inversion Hne as [| ? ? _ Hne']; inversion Hs as [| ? ? Hs' Hall];
    inversion Ht as [| ? ? _ Ht']; subst.
  split; [split; [| split]; assumption |].
  destruct ranges as [| q ranges]; simpl; [exact I |].
  inversion Hall as [| ? ? Hpq _]; inversion Hne' as [| ? ? Hq _]; subst.
  unfold range_before, range_nonempty in *. lra.
Qed.

Lemma ranges_ok_head (tc : TimeConverter) (p : WhammyRange)
  (ranges : list WhammyRange) :
  ranges_ok tc (p :: ranges) ->
  range_nonempty p /\ on_track tc (wr_start p) /\ on_track tc (wr_end p)
  /\ match ranges with
     | [] => True
     | q :: _ => beat (wr_end p) < beat (wr_start q)
     end.
Proof.
  intros (Hne & Hs & Ht).
  inversion Hne as [| ? ? Hp _]; inversion Hs as [| ? ? _ Hall];
    inversion Ht as [| ? ? [Ht1 Ht2] _]; subst.
  split; [exact Hp |]. split; [exact Ht1 |]. split; [exact Ht2 |].
  destruct ranges as [| q ranges]; [exact I |]. now inversion Hall.
Qed.

Lemma ranges_from_ok (sd : SpData) (start : Position) :
  ranges_ok (m_converter sd) (m_whammy_ranges sd) ->
  ranges_ok (m_converter sd) (ranges_from sd start)
  /\ ahead start (ranges_from sd start).
Proof.
  intros (Hne & Hs & Ht). unfold ranges_from. split.
  - split; [| split];
      [apply Forall_skipn | apply StronglySorted_skipn | apply Forall_skipn];
      assumption.
  - unfold ahead.
    pose proof (lower_bound_skipn
                  (fun (x : WhammyRange) (y : Position) =>
                     Qleb (beat (wr_end x)) (beat y))
                  (m_whammy_ranges sd) start) as H.
    destruct (skipn _ (m_whammy_ranges sd)); [exact I |]. now qbool.
Qed.

Section Track.

Variable tc : TimeConverter.
Hypothesis tc_ok : converter_ok tc.

Lemma measure_le (x y : Position) :
  on_track tc x -> on_track tc y -> beat x <= beat y ->
  measure x <= measure y.
Proof.
  intros [Hx _] [Hy _] Hle.
  destruct (beats_to_measures_mono tc (beat x) (beat y) tc_ok Hle) as [H _].
  lra.
Qed.

Lemma measure_eq (x y : Position) :
  on_track tc x -> on_track tc y -> beat x == beat y ->
  measure x == measure y.
Proof.
  intros [Hx _] [Hy _] Heq.
  pose proof (beats_to_measures_proper tc (beat x) (beat y) tc_ok Heq). lra.
Qed.




End Track.

(** ** The activation end point and the forward integration *)

Lemma max_loop_cons (sd : SpData) (end_ : Position) (p : WhammyRange)
  (ranges : list WhammyRange) (start : Position) (sp : Q) :
  max_loop sd end_ (p :: ranges) start sp
  = if Qlt_le_dec (beat (wr_start p)) (beat end_) then
      match max_body sd end_ p start sp with
      | Return r => r
      | Continue start sp => max_loop sd end_ ranges start sp
      end
    else (exit_tail, max_tail start end_ sp).
Proof. reflexivity. Qed.


(** The loop stops at once when no range begins before [end_]. *)
Lemma max_loop_stop (sd : SpData) (end_ : Position)
  (ranges : list WhammyRange) (start : Position) (sp : Q) :
  match ranges with
  | [] => True
  | q :: _ => beat end_ <= beat (wr_start q)
  end ->
  max_loop sd end_ ranges start sp = (exit_tail, max_tail start end_ sp).
Proof.
  destruct ranges as [| q ranges]; intros H; [reflexivity |].
  rewrite max_loop_cons. destruct (Qlt_le_dec _ _); [lra | reflexivity].
Qed.

(** The two shapes of the loop body after the gap, by where the range ends. *)
Lemma max_in_range_inner (sd : SpData) (end_ : Position) (p : WhammyRange)
  (start : Position) (sp : Q) :
  beat (wr_end p) < beat end_ ->
  max_in_range sd end_ p start sp
  = let v := propagate_over_whammy_range sd (beat start) (beat (wr_end p)) sp in
    if Qlt_le_dec v 0 then Return (exit_whammy, v) else Continue (wr_end p) v.
Proof.
  intros H. unfold max_in_range.
  destruct (std_min_spec (beat end_) (beat (wr_end p))) as [[_ Hm] | [? _]];
    [| lra].
  rewrite Hm. cbv zeta.
  destruct (Qlt_le_dec _ 0); [reflexivity |].
  destruct (Qlt_le_dec _ _); [reflexivity | lra].
Qed.

Lemma max_in_range_outer (sd : SpData) (end_ : Position) (p : WhammyRange)
  (start : Position) (sp : Q) :
  beat end_ <= beat (wr_end p) ->
  max_in_range sd end_ p start sp
  = let v := propagate_over_whammy_range sd (beat start) (beat end_) sp in
    if Qlt_le_dec v 0 then Return (exit_whammy, v)
    else Return (exit_range_end, v).
Proof.
  intros H. unfold max_in_range.
  destruct (std_min_spec (beat end_) (beat (wr_end p))) as [[? _] | [_ Hm]];
    [lra |].
  rewrite Hm. cbv zeta.
  destruct (Qlt_le_dec _ 0); [reflexivity |].
  destruct (Qlt_le_dec _ _); [lra | reflexivity].
Qed.

Section Activation.

Variable sd : SpData.
Hypothesis sd_ok : SpData_ok sd.




Variable end_ : Position.
Hypothesis end_track : on_track (m_converter sd) end_.




End Activation.

Section Stable.

Variable sd : SpData.
Hypothesis sd_ok : SpData_ok sd.
Variables e1 e2 : Position.
Hypothesis e1_track : on_track (m_converter sd) e1.
Hypothesis e2_track : on_track (m_converter sd) e2.




End Stable.

(** ** The conversions are inverse to one another *)

Lemma interp_inverse (x0 y0 x1 y1 x : Q) :
  x0 < x1 -> y0 < y1 ->
  interp y0 x0 y1 x1 (interp x0 y0 x1 y1 x) == x.
Proof. intros Hx Hy. unfold interp. field. split; lra. Qed.

Lemma measures_of_beats_from_inverse (last_rate : Q)
  (tbl : list MeasureTimestamp) :
  0 < last_rate ->
  forall p beats,
    table_ok (p :: tbl) -> mt_beat p < beats ->
    measures_to_beats_from last_rate (Some p) tbl
      (beats_to_measures_from last_rate (Some p) tbl beats)
    == beats.
Proof.
  intros Hrate.
  induction tbl as [| x tbl IH]; intros p beats Hs Hlt.
  - simpl. unfold to_measure, to_beat. field. lra.
  - pose proof (table_ok_head _ _ _ Hs) as Hpx.
    cbn [beats_to_measures_from].
    destruct (Qltb (mt_beat x) beats) eqn:Hx; qbool.
    + pose proof (beats_to_measures_from_above last_rate Hrate tbl x beats
                    (table_ok_tail _ _ Hs) Hx) as Habove.
      cbn [measures_to_beats_from].
      apply Qltb_true in Habove. rewrite Habove.
      apply IH; [now apply table_ok_tail in Hs | exact Hx].
    + destruct Hpx as [[Hb Hm] | [Hb Hm]]; [| lra].
      pose proof (interp_mono (mt_beat p) (mt_measure p) (mt_beat x)
                    (mt_measure x) beats (mt_beat x) Hb Hm Hx) as Hi.
      rewrite interp_right in Hi by exact Hb.
      cbn [measures_to_beats_from].
      fold (interp (mt_beat p) (mt_measure p) (mt_beat x) (mt_measure x) beats)
        in *.
      apply Qltb_false in Hi. rewrite Hi.
      exact (interp_inverse _ _ _ _ beats Hb Hm).
Qed.

Lemma measures_of_beats_inverse (tc : TimeConverter) (beats : Q) :
  converter_ok tc ->
  measures_to_beats tc (beats_to_measures tc beats) == beats.
Proof.
  intros (Htbl & Hne & Hrate). unfold beats_to_measures, measures_to_beats.
  destruct (m_measure_timestamps tc) as [| pos tbl]; [congruence |].
  cbn [beats_to_measures_from].
  destruct (Qltb (mt_beat pos) beats) eqn:Hpos; qbool.
  - pose proof (beats_to_measures_from_above _ Hrate tbl pos beats Htbl Hpos)
      as Habove.
    cbn [measures_to_beats_from].
    apply Qltb_true in Habove. rewrite Habove.
    now apply measures_of_beats_from_inverse.
  - cbn [measures_to_beats_from].
    assert (Hle : mt_measure pos
                  - to_measure (mt_beat pos - beats) DEFAULT_BEAT_RATE
                  <= mt_measure pos) by (qconst; lra).
    apply Qltb_false in Hle. rewrite Hle. qconst. lra.
Qed.

(** A beat and its measure make a position of the converter. *)
Lemma position_of_beat_on_track (tc : TimeConverter) (b : Q) :
  converter_ok tc -> on_track tc (mkPosition b (beats_to_measures tc b)).
Proof.
  intros Hok. split; cbn [beat measure]; [reflexivity |].
  symmetry. now apply measures_of_beats_inverse.
Qed.

(** ** What the constructor of [SpData] establishes *)

Lemma converter_loop_length (resolution : Q) (tss : list TimeSignature) :
  forall st,
    length (timestamps (fold_left (converter_step resolution) tss st))
    = (length (timestamps st) + length tss)%nat.
Proof.
  induction tss as [| ts tss IH]; intros st; simpl.
  - lia.
  - rewrite IH. simpl. rewrite length_app. simpl. lia.
Qed.

Lemma TimeConverter_ctor_converter_ok (sync_track : SyncTrack) (resolution : Q) :
  0 < resolution ->
  sync_track_ok sync_track ->
  time_sigs sync_track <> [] ->
  converter_ok (TimeConverter_ctor sync_track resolution).
Proof.
  intros Hres Hsync Hne.
  destruct (TimeConverter_ctor_ok sync_track resolution Hres Hsync) as [Htbl Hrate].
  split; [exact Htbl |]. split; [| exact Hrate].
  intros Hnil. apply (f_equal (@length _)) in Hnil.
  unfold TimeConverter_ctor in Hnil. cbn [m_measure_timestamps] in Hnil.
  rewrite converter_loop_length in Hnil. simpl in Hnil.
  destruct (time_sigs sync_track); [congruence | discriminate].
Qed.

Lemma SpData_ctor_ok
  (beats_to_seconds seconds_to_beats : TimeConverter -> Q -> Q)
  (note_spans : list (Z * Z)) (phrases : list StarPower) (resolution : Z)
  (sync_track : SyncTrack) (early_whammy lazy_whammy : Q) :
  (0 < resolution)%Z ->
  sync_track_ok sync_track ->
  time_sigs sync_track <> [] ->
  SpData_ok
    (SpData_ctor beats_to_seconds seconds_to_beats note_spans phrases
       resolution sync_track early_whammy lazy_whammy).
Proof.
  intros Hres Hsync Hne.
  assert (Hres' : 0 < inject_Z resolution).
  { change 0 with (inject_Z 0). rewrite <- Zlt_Qlt. exact Hres. }
  pose proof (TimeConverter_ctor_converter_ok sync_track (inject_Z resolution)
                Hres' Hsync Hne) as Htc.
  unfold SpData_ok, SpData_ctor.
  cbn [m_converter m_beat_rates m_whammy_ranges].
  split; [exact Htc |].
  rewrite form_beat_rates_map.
  split; [| split].
  - destruct (time_sigs sync_track); [congruence | discriminate].
  - destruct Hsync as [_ Hsorted]. unfold rates_sorted.
    eapply StronglySorted_map; [| exact Hsorted].
    intros x y Hxy. unfold spec_beat_rate; cbn [br_position].
    apply Qdiv_le_mono; [exact Hres' |]. now rewrite <- Zle_Qle.
  - destruct (merged_ranges_separated beats_to_seconds seconds_to_beats
                (TimeConverter_ctor sync_track (inject_Z resolution))
                note_spans phrases resolution early_whammy lazy_whammy)
      as [Hnonempty Hsep].
    split; [| split].
    + apply Forall_forall. intros p Hp. apply in_map_iff in Hp.
      destruct Hp as (x & <- & Hx). rewrite Forall_forall in Hnonempty.
      exact (Hnonempty x Hx).
    + eapply StronglySorted_map; [| exact Hsep]. intros x y Hxy. exact Hxy.
    + apply Forall_forall. intros p Hp. apply in_map_iff in Hp.
      destruct Hp as (x & <- & _). cbn [wr_start wr_end].
      split; now apply position_of_beat_on_track.
Qed.

(** Ticks out of order break the table: with a time signature at tick 192
    followed by one at tick 0 the second anchor does not convert back. *)
Lemma anchors_need_ordered_ticks :
  let tc :=
    TimeConverter_ctor
      (mkSyncTrack [mkTimeSignature 192 4 4; mkTimeSignature 0 4 4] []) 192 in
  exists anchor,
    In anchor (m_measure_timestamps tc)
    /\ ~ beats_to_measures tc (mt_beat anchor) == mt_measure anchor.
Proof.
  intros tc. exists (nth 1 (m_measure_timestamps tc) (mkMeasureTimestamp 0 0)).
  split; [right; left; reflexivity |].
  vm_compute. discriminate.
Qed.

(** ** Bounds and exits of the forward integration *)

Section Integration.

Variable sd : SpData.
Variable end_ : Position.

(** Where the loop leaves the function, and with what: the sentinel after
    a whammy range, an amount that is not negative at the end of a range,
    a negative amount in a stretch without whammy. *)
Lemma max_loop_sites (ranges : list WhammyRange) :
  forall start sp,
    Forall range_nonempty ranges ->
    StronglySorted range_before ranges ->
    ahead start ranges ->
    beat start <= beat end_ -> 0 <= sp ->
    let run := max_loop sd end_ ranges start sp in
    (fst run = exit_whammy -> snd run = - (1))
    /\ (fst run = exit_range_end -> 0 <= snd run)
    /\ (fst run = exit_gap -> snd run < 0).
Proof.
  induction ranges as [| p ranges IH]; intros start sp Hne Hs Hahead Hle Hsp.
  - simpl. repeat split; intros; discriminate.
  - inversion Hne as [| ? ? Hp Hne']; inversion Hs as [| ? ? Hs' Hall]; subst.
    assert (Hahead' : ahead (wr_end p) ranges).
    { destruct ranges as [| nxt ranges]; simpl; [exact I |].
      inversion Hall as [| ? ? Hpn _]; inversion Hne' as [| ? ? Hn _]; subst.
      unfold range_before, range_nonempty in *. lra. }
    simpl in Hahead. unfold range_nonempty in Hp.
    rewrite max_loop_cons.
    destruct (Qlt_le_dec (beat (wr_start p)) (beat end_)) as [Hin | Hout];
      [| simpl; repeat split; intros; discriminate].
    assert (Hstage : forall start1 sp1,
               beat start1 < beat (wr_end p) -> beat start1 <= beat end_ ->
               0 <= sp1 ->
               let run := match max_in_range sd end_ p start1 sp1 with
                          | Return x => x
                          | Continue start sp => max_loop sd end_ ranges start sp
                          end in
               (fst run = exit_whammy -> snd run = - (1))
               /\ (fst run = exit_range_end -> 0 <= snd run)
               /\ (fst run = exit_gap -> snd run < 0)).
    { intros start1 sp1 Ha1 Hl1 Hsp1. unfold max_in_range.
      set (range_end := std_min (beat end_) (beat (wr_end p))).
      assert (Hre : beat start1 <= range_end).
      { unfold range_end. apply std_min_glb; lra. }
      destruct (propagate_over_whammy_range_cases sd (beat start1) range_end
                  sp1 Hre Hsp1) as [Hm1 | Hnn].
      - rewrite Hm1. cbv zeta.
        destruct (Qlt_le_dec (- (1)) 0) as [_ | H]; [| exfalso; lra].
        simpl. repeat split; intros; try discriminate; lra.
      - cbv zeta.
        destruct (Qlt_le_dec _ 0) as [? | _]; [lra |].
        destruct (Qlt_le_dec (beat (wr_end p)) (beat end_)) as [Hlt | ?].
        + apply IH; auto. lra.
        + simpl. repeat split; intros; try discriminate; assumption. }
    unfold max_body.
    destruct (Qlt_le_dec (beat start) (beat (wr_start p))) as [Hgap | Hnogap].
    + cbv zeta. destruct (Qlt_le_dec _ 0) as [Hneg | Hnn].
      * simpl. repeat split; intros; try discriminate; assumption.
      * apply Hstage; auto. lra.
    + apply Hstage; auto.
Qed.

Hypothesis tc_ok : converter_ok (m_converter sd).
Hypothesis end_track : on_track (m_converter sd) end_.

Lemma max_loop_le_1 (ranges : list WhammyRange) :
  forall start sp,
    Forall (fun p => on_track (m_converter sd) (wr_start p)
                     /\ on_track (m_converter sd) (wr_end p)) ranges ->
    on_track (m_converter sd) start ->
    beat start <= beat end_ -> sp <= 1 ->
    snd (max_loop sd end_ ranges start sp) <= 1.
Proof.
  assert (Htail : forall start sp,
             on_track (m_converter sd) start -> beat start <= beat end_ ->
             sp <= 1 -> max_tail start end_ sp <= 1).
  { intros start sp Hstart Hle Hsp. unfold max_tail.
    pose proof (measure_le _ tc_ok start end_ Hstart end_track Hle).
    qconst. lra. }
  induction ranges as [| p ranges IH]; intros start sp Ht Hstart Hle Hsp.
  - simpl. now apply Htail.
  - inversion Ht as [| ? ? [Hps Hpe] Ht']; subst.
    rewrite max_loop_cons.
    destruct (Qlt_le_dec (beat (wr_start p)) (beat end_)) as [Hin | Hout];
      [| simpl; now apply Htail].
    assert (Hstage : forall start1 sp1,
               sp1 <= 1 ->
               snd match max_in_range sd end_ p start1 sp1 with
                   | Return x => x
                   | Continue start sp => max_loop sd end_ ranges start sp
                   end <= 1).
    { intros start1 sp1 Hsp1. unfold max_in_range. cbv zeta.
      pose proof (propagate_over_whammy_range_le_1 sd (beat start1)
                    (std_min (beat end_) (beat (wr_end p))) sp1 Hsp1) as Hnew.
      destruct (Qlt_le_dec _ 0); [exact Hnew |].
      destruct (Qlt_le_dec (beat (wr_end p)) (beat end_)); [| exact Hnew].
      apply IH; auto. lra. }
    unfold max_body.
    destruct (Qlt_le_dec (beat start) (beat (wr_start p))) as [Hgap | Hnogap].
    + pose proof (measure_le _ tc_ok start (wr_start p) Hstart Hps
                    (Qlt_le_weak _ _ Hgap)) as Hmeas.
      cbv zeta.
      assert (Hsp1 : sp - (measure (wr_start p) - measure start) / MEASURES_PER_BAR
                     <= 1) by (qconst; lra).
      destruct (Qlt_le_dec _ 0); [exact Hsp1 |].
      now apply Hstage.
    + now apply Hstage.
Qed.

End Integration.

(** ** The claims on [SpData] *)

Lemma example_sp_data_ok : SpData_ok example_sp_data.
Proof.
  apply SpData_ctor_ok; [reflexivity | | discriminate].
  split; repeat constructor; simpl; lia.
Qed.

Lemma example_drain_sp_data_ok : SpData_ok example_drain_sp_data.
Proof.
  apply SpData_ctor_ok; [reflexivity | | discriminate].
  split; repeat constructor; simpl; lia.
Qed.

(** *** C1 *)

(** With a quarter bar at beat 0 and sixteen beats to go, of which four can
    be whammied, the maximum is a negative amount and the minimum is 0. *)
Lemma whammy_max_below_min :
  beat (example_position 0) <= beat (example_position 16)
  /\ 0 <= 1 # 4 /\ 1 # 4 <= 1
  /\ ~ (propagate_sp_over_whammy_min example_sp_data (example_position 0)
          (example_position 16) (1 # 4) (example_position 16)
        <= propagate_sp_over_whammy_max example_sp_data (example_position 0)
             (example_position 16) (1 # 4)).
Proof.
  split; [vm_compute; discriminate |].
  split; [vm_compute; discriminate |].
  split; [vm_compute; discriminate |].
  vm_compute. intros H. apply H. reflexivity.
Qed.

Lemma propagate_sp_over_whammy_max_nowhere (sd : SpData) (a b : Position)
  (s : Q) :
  beat a == beat b -> measure a == measure b -> 0 <= s -> s <= 1 ->
  propagate_sp_over_whammy_max sd a b s == s.
Proof.
  intros Hbeat Hmeas Hs0 Hs1. unfold propagate_sp_over_whammy_max, ranges_from.
  pose proof (lower_bound_skipn
                (fun (x : WhammyRange) (y : Position) =>
                   Qleb (beat (wr_end x)) (beat y))
                (m_whammy_ranges sd) a) as Hhead.
  destruct (skipn _ (m_whammy_ranges sd)) as [| p ranges].
  - simpl. unfold max_tail. qconst. lra.
  - qbool. rewrite max_loop_cons.
    destruct (Qlt_le_dec (beat (wr_start p)) (beat b)) as [Hin | Hout].
    + unfold max_body.
      destruct (Qlt_le_dec (beat a) (beat (wr_start p))); [lra |].
      rewrite max_in_range_outer by lra. cbv zeta.
      pose proof (propagate_over_whammy_range_same sd (beat a) (beat b) s
                    Hbeat Hs1) as Hsame.
      destruct (Qlt_le_dec _ 0); [lra | exact Hsame].
    + simpl. unfold max_tail. qconst. lra.
Qed.

(** C1 (amended).  With the required whammy end at the end of the range, the
    minimum is the maximum floored at 0: it equals the maximum when that is
    not negative and is 0 when the maximum signals that SP ran out, so the
    maximum never exceeds the minimum and is at least the minimum exactly
    when it is not negative. *)
Theorem propagate_sp_over_whammy_min_at_end (sd : SpData) (a b : Position)
  (s : Q)
  (Hbeat : beat a <= beat b)
  (Hmeas : beat a == beat b -> measure a == measure b)
  (Hs0 : 0 <= s) (Hs1 : s <= 1) :
  propagate_sp_over_whammy_min sd a b s b
  == std_max (propagate_sp_over_whammy_max sd a b s) 0
  /\ propagate_sp_over_whammy_max sd a b s
     <= propagate_sp_over_whammy_min sd a b s b
  /\ (0 <= propagate_sp_over_whammy_max sd a b s ->
      propagate_sp_over_whammy_min sd a b s b
      <= propagate_sp_over_whammy_max sd a b s)
  /\ (propagate_sp_over_whammy_max sd a b s < 0 ->
      propagate_sp_over_whammy_min sd a b s b == 0).
Proof.
  assert (Heq : propagate_sp_over_whammy_min sd a b s b
                == std_max (propagate_sp_over_whammy_max sd a b s) 0).
  { unfold propagate_sp_over_whammy_min.
    destruct (Qlt_le_dec (beat a) (beat b)) as [Hlt | Hge].
    - destruct (Qlt_le_dec (beat b) (beat b)); [lra | reflexivity].
    - destruct (Qlt_le_dec (beat a) (beat b)); [lra |].
      apply std_max_proper; [| reflexivity].
      symmetry. apply propagate_sp_over_whammy_max_nowhere; auto; lra. }
  split; [exact Heq |].
  destruct (std_max_spec (propagate_sp_over_whammy_max sd a b s) 0)
    as [[H Hm] | [H Hm]]; rewrite Hm in Heq; repeat split; intros; lra.
Qed.

Lemma propagate_sp_over_whammy_min_at_end_witness :
  propagate_sp_over_whammy_min example_sp_data (example_position 0)
    (example_position 16) (1 # 4) (example_position 16) == 0.
Proof.
  apply (propagate_sp_over_whammy_min_at_end example_sp_data
           (example_position 0) (example_position 16) (1 # 4)).
  - vm_compute; discriminate.
  - vm_compute; discriminate.
  - vm_compute; discriminate.
  - vm_compute; discriminate.
  - vm_compute; reflexivity.
Defined.

(** *** C10 *)

(** C10.  When the loop leaves after a whammy range because SP ran out
    there, the function returns exactly -1; an amount returned at the end of
    a whammy range is not negative; what is returned from a stretch without
    whammy is negative and is the amount held at the beginning of the stretch
    less the drain over it. *)
Theorem whammy_exhaustion_returns_sentinel (sd : SpData) (start end_ : Position)
  (sp : Q)
  (Hok : SpData_ok sd) (Hle : beat start <= beat end_) (Hsp : 0 <= sp) :
  let site := fst (max_loop sd end_ (ranges_from sd start) start sp) in
  (site = exit_whammy ->
   propagate_sp_over_whammy_max sd start end_ sp = - (1))
  /\ (site = exit_range_end ->
      0 <= propagate_sp_over_whammy_max sd start end_ sp)
  /\ (site = exit_gap ->
      propagate_sp_over_whammy_max sd start end_ sp < 0)
  /\ (forall p gap_start sp0 v,
        max_body sd end_ p gap_start sp0 = Return (exit_gap, v) ->
        v = sp0 - (measure (wr_start p) - measure gap_start) / MEASURES_PER_BAR).
Proof.
  destruct Hok as (_ & _ & _ & Hranges).
  destruct (ranges_from_ok sd start Hranges) as [(Hne & Hs & _) Hahead].
  destruct (max_loop_sites sd end_ (ranges_from sd start) start sp Hne Hs Hahead
              Hle Hsp) as (H1 & H2 & H3).
  split; [exact H1 |]. split; [exact H2 |]. split; [exact H3 |].
  intros p gap_start sp0 v. unfold max_body, max_in_range. cbv zeta.
  repeat match goal with
         | |- context [Qlt_le_dec ?x ?y] => destruct (Qlt_le_dec x y)
         end; intros H; try discriminate; now injection H.
Qed.

(** In 1/4 an eighth of a bar does not last forty beats of whammy: the rate
    of the range would leave less than -1, and -1 is returned. *)
Lemma whammy_exhaustion_returns_sentinel_witness :
  (1 # 8) + (40 - 0) * (1 / 30 - 1 / (8 * (1 * 4 / 4))) < - (1)
  /\ propagate_sp_over_whammy_max example_drain_sp_data
       (example_drain_position 0) (example_drain_position 40) (1 # 8)
     = - (1).
Proof.
  split; [vm_compute; reflexivity |].
  apply (whammy_exhaustion_returns_sentinel example_drain_sp_data
           (example_drain_position 0) (example_drain_position 40) (1 # 8)).
  - exact example_drain_sp_data_ok.
  - vm_compute; discriminate.
  - vm_compute; discriminate.
  - vm_compute; reflexivity.
Defined.

Section Claims.

Variable sd : SpData.
Hypothesis sd_ok : SpData_ok sd.
Variables start end_ : Position.
Hypothesis start_track : on_track (m_converter sd) start.
Hypothesis end_track : on_track (m_converter sd) end_.
Hypothesis start_le_end : beat start <= beat end_.
Variable sp : Q.
Hypothesis sp_range : 0 <= sp /\ sp <= 1.



End Claims.

(** *** C3 *)




(** *** C9 *)



(** ** Whammy lookups: [is_in_whammy_ranges] and [available_whammy] *)

Lemma ranges_separated_tail (p : WhammyRange) (ranges : list WhammyRange) :
  ranges_separated (p :: ranges) ->
  range_nonempty p /\ Forall (range_before p) ranges /\ ranges_separated ranges.
Proof.
  intros [Hne Hs]. inversion Hne; subst. inversion Hs; subst.
  repeat split; assumption.
Qed.

Lemma in_whammy_ranges_scan (b : Q) (ranges : list WhammyRange) :
  StronglySorted range_before ranges ->
  match
    skipn (lower_bound (fun x y => Qltb (beat (wr_end x)) y) ranges b) ranges
  with
  | [] => false
  | p :: _ => Qleb (beat (wr_start p)) b
  end = true
  <-> exists p, In p ranges /\ beat (wr_start p) <= b /\ b <= beat (wr_end p).
Proof.
  induction 1 as [| p ranges Hs IH Hall]; simpl.
  - split; [discriminate | intros (p & [] & _)].
  - destruct (Qltb (beat (wr_end p)) b) eqn:E; simpl.
    + apply Qltb_true in E. rewrite IH. split.
      * intros (q & Hq & Hb). exists q. split; [now right | exact Hb].
      * intros (q & [-> | Hq] & Hb); [lra |]. exists q. split; assumption.
    + apply Qltb_false in E. rewrite Qleb_true. split.
      * intros Hb. exists p. split; [now left | lra].
      * intros (q & [-> | Hq] & Hb); [lra |].
        rewrite Forall_forall in Hall. specialize (Hall q Hq).
        unfold range_before in Hall. lra.
Qed.

(** X1.  With whammy ranges that lie apart in order, as the constructor
    leaves them, [is_in_whammy_ranges] answers true exactly for the beats
    that lie in one of the ranges, both ends of a range included; with no
    whammy range at all it answers false. *)
Theorem is_in_whammy_ranges_spec (sd : SpData) (b : Q)
  (Hsep : ranges_separated (m_whammy_ranges sd)) :
  (is_in_whammy_ranges sd b = true
   <-> exists p, In p (m_whammy_ranges sd)
                 /\ beat (wr_start p) <= b /\ b <= beat (wr_end p))
  /\ (m_whammy_ranges sd = [] -> is_in_whammy_ranges sd b = false).
Proof.
  split.
  - unfold is_in_whammy_ranges. apply in_whammy_ranges_scan. apply Hsep.
  - intros E. unfold is_in_whammy_ranges. rewrite E. reflexivity.
Qed.
Ltac qminmax_at a b spec f :=
  let H := fresh "Hm" in
  let m := fresh "m" in
  pose proof (spec a b) as H;
  set (m := f a b) in *; clearbody m;
  destruct H as [[? ?] | [? ?]].

Ltac qminmax :=
  repeat match goal with
         | |- context [Qmax ?a ?b] => qminmax_at a b Q.max_spec Qmax
         | |- context [Qmin ?a ?b] => qminmax_at a b Q.min_spec Qmin
         | _ : context [Qmax ?a ?b] |- _ => qminmax_at a b Q.max_spec Qmax
         | _ : context [Qmin ?a ?b] |- _ => qminmax_at a b Q.min_spec Qmin
         end.

Lemma whammy_overlap_nonneg (a b : Q) (p : WhammyRange) :
  0 <= whammy_overlap a b p.
Proof. unfold whammy_overlap. apply Q.le_max_l. Qed.

Lemma whammy_overlap_split (a b c : Q) (p : WhammyRange) :
  range_nonempty p -> a <= b -> b <= c ->
  whammy_overlap a c p == whammy_overlap a b p + whammy_overlap b c p.
Proof.
  unfold range_nonempty, whammy_overlap. intros Hp Hab Hbc.
  qminmax; lra.
Qed.

Lemma Qsum_nonneg (l : list Q) : Forall (fun x => 0 <= x) l -> 0 <= Qsum l.
Proof.
  unfold Qsum. induction 1 as [| x l Hx _ IH]; simpl; lra.
Qed.

Lemma Qsum_overlap_nonneg (a b : Q) (ranges : list WhammyRange) :
  0 <= Qsum (map (whammy_overlap a b) ranges).
Proof.
  apply Qsum_nonneg, Forall_forall. intros x Hx. apply in_map_iff in Hx.
  destruct Hx as (p & <- & _). apply whammy_overlap_nonneg.
Qed.

Lemma Qsum_overlap_split (a b c : Q) (ranges : list WhammyRange) :
  Forall range_nonempty ranges -> a <= b -> b <= c ->
  Qsum (map (whammy_overlap a c) ranges)
  == Qsum (map (whammy_overlap a b) ranges)
     + Qsum (map (whammy_overlap b c) ranges).
Proof.
  intros Hne Hab Hbc. unfold Qsum.
  induction Hne as [| p ranges Hp _ IH]; simpl; [lra |].
  rewrite IH, (whammy_overlap_split a b c p Hp Hab Hbc). lra.
Qed.

(** Ranges that begin at or after [b] cover nothing of [[a, b]]. *)
Lemma Qsum_overlap_after (a b : Q) (ranges : list WhammyRange) :
  Forall range_nonempty ranges ->
  Forall (fun p => b <= beat (wr_start p)) ranges ->
  Qsum (map (whammy_overlap a b) ranges) == 0.
Proof.
  intros Hne. unfold Qsum.
  induction Hne as [| p ranges Hp _ IH]; simpl; intros Hall; [lra |].
  inversion Hall as [| ? ? Hb Hrest]; subst. specialize (IH Hrest).
  rewrite IH.
  unfold whammy_overlap, range_nonempty in *. qminmax; lra.
Qed.

Lemma available_whammy_loop_sum (a b : Q) (ranges : list WhammyRange) :
  ranges_separated ranges -> a <= b ->
  Forall (fun p => a < beat (wr_end p)) ranges ->
  forall total,
    available_whammy_loop ranges a b total
    == total + SP_GAIN_RATE * Qsum (map (whammy_overlap a b) ranges).
Proof.
  intros Hsep Hab. unfold Qsum.
  induction ranges as [| p ranges IH]; intros Hall total; simpl.
  - lra.
  - destruct (ranges_separated_tail p ranges Hsep) as (Hp & Hbefore & Hsep').
    inversion Hall as [| ? ? Ha Hrest]; subst.
    destruct (Qlt_le_dec (beat (wr_start p)) b) as [Hlt | Hge].
    + rewrite (IH Hsep' Hrest).
      assert (E : whammy_overlap a b p
                  == std_min (beat (wr_end p)) b - std_max (beat (wr_start p)) a).
      { unfold whammy_overlap, range_nonempty, std_min, std_max in *.
        qcases; qminmax; lra. }
      rewrite E. qconst. change (/ 30) with (1 # 30). lra.
    + assert (E : Qsum (map (whammy_overlap a b) (p :: ranges)) == 0).
      { apply Qsum_overlap_after; [apply Hsep |].
        constructor; [exact Hge |].
        rewrite Forall_forall in Hbefore |- *. intros q Hq.
        specialize (Hbefore q Hq). unfold range_before, range_nonempty in *. lra. }
      unfold Qsum in E. simpl in E. rewrite E. lra.
Qed.

(** The ranges that the lower bound passes over end at or before [a]; the
    ones it keeps end after [a]. *)
Lemma lower_bound_end_split (a b : Q) (ranges : list WhammyRange) :
  ranges_separated ranges -> a <= b ->
  exists kept,
    kept
    = skipn (lower_bound (fun x y => Qleb (beat (wr_end x)) y) ranges a) ranges
    /\ ranges_separated kept
    /\ Forall (fun p => a < beat (wr_end p)) kept
    /\ Qsum (map (whammy_overlap a b) kept)
       == Qsum (map (whammy_overlap a b) ranges).
Proof.
  intros Hsep Hab. induction ranges as [| p ranges IH].
  - exists []. split; [reflexivity |]. split; [split; constructor |].
    split; [constructor | reflexivity].
  - destruct (ranges_separated_tail p ranges Hsep) as (Hp & Hbefore & Hsep').
    cbn [lower_bound].
    destruct (Qleb (beat (wr_end p)) a) eqn:E.
    + apply Qleb_true in E.
      destruct (IH Hsep') as (kept & Hk & H1 & H2 & H3).
      exists kept. split; [exact Hk |]. split; [exact H1 |].
      split; [exact H2 |]. rewrite H3.
      assert (E0 : whammy_overlap a b p == 0).
      { unfold whammy_overlap, range_nonempty in *. qminmax; lra. }
      unfold Qsum. cbn [map fold_right]. rewrite E0. lra.
    + apply Qleb_false in E. exists (p :: ranges).
      split; [reflexivity |]. split; [exact Hsep |]. split; [| reflexivity].
      constructor; [exact E |].
      rewrite Forall_forall in Hbefore |- *. intros q Hq.
      specialize (Hbefore q Hq). destruct Hsep' as [Hne _].
      rewrite Forall_forall in Hne. specialize (Hne q Hq).
      unfold range_before, range_nonempty in *. lra.
Qed.

Lemma available_whammy_sum (sd : SpData) (a b : Q) :
  ranges_separated (m_whammy_ranges sd) -> a <= b ->
  available_whammy sd a b
  == SP_GAIN_RATE * Qsum (map (whammy_overlap a b) (m_whammy_ranges sd)).
Proof.
  intros Hsep Hab. unfold available_whammy.
  destruct (lower_bound_end_split a b _ Hsep Hab) as (kept & <- & H1 & H2 & H3).
  rewrite (available_whammy_loop_sum a b _ H1 Hab H2), H3. lra.
Qed.

(** Separated ranges cover no more of [[a, b]] than its length. *)
Lemma Qsum_overlap_le (ranges : list WhammyRange) :
  ranges_separated ranges ->
  forall a b, a <= b -> Qsum (map (whammy_overlap a b) ranges) <= b - a.
Proof.
  unfold Qsum.
  induction ranges as [| p ranges IH]; intros Hsep a b Hab; simpl; [lra |].
  destruct (ranges_separated_tail p ranges Hsep) as (Hp & Hbefore & Hsep').
  set (a' := Qmax a (Qmin (beat (wr_end p)) b)).
  assert (Ha' : a <= a' /\ a' <= b /\ whammy_overlap a b p <= a' - a).
  { unfold a', whammy_overlap, range_nonempty in *. qminmax; lra. }
  assert (E : Qsum (map (whammy_overlap a b) ranges)
              == Qsum (map (whammy_overlap a' b) ranges)).
  { clear IH Hsep. revert Hbefore Hsep'.
    induction ranges as [| q ranges IHr]; intros Hbefore Hsep'; simpl; [lra |].
    inversion Hbefore as [| ? ? Hq Hrest]; subst.
    destruct (ranges_separated_tail q ranges Hsep') as (Hqn & _ & Hsep'').
    rewrite (IHr Hrest Hsep'').
    assert (E1 : whammy_overlap a b q == whammy_overlap a' b q).
    { unfold a', whammy_overlap, range_before, range_nonempty in *.
      qminmax; lra. }
    rewrite E1. lra. }
  rewrite E. clearbody a'. destruct Ha' as (H1 & H2 & H3).
  specialize (IH Hsep' a' b H2). unfold Qsum in *. lra.
Qed.
Lemma SpData_ctor_ranges_separated
  (beats_to_seconds seconds_to_beats : TimeConverter -> Q -> Q)
  (note_spans : list (Z * Z)) (phrases : list StarPower) (resolution : Z)
  (sync_track : SyncTrack) (early_whammy lazy_whammy : Q) :
  ranges_separated
    (m_whammy_ranges
       (SpData_ctor beats_to_seconds seconds_to_beats note_spans phrases
          resolution sync_track early_whammy lazy_whammy)).
Proof.
  unfold SpData_ctor; cbn [m_whammy_ranges].
  destruct (merged_ranges_separated beats_to_seconds seconds_to_beats
              (TimeConverter_ctor sync_track (inject_Z resolution))
              note_spans phrases resolution early_whammy lazy_whammy)
    as [Hne Hs].
  split.
  - apply Forall_forall. intros p Hp. apply in_map_iff in Hp.
    destruct Hp as (x & <- & Hx). rewrite Forall_forall in Hne.
    exact (Hne x Hx).
  - eapply StronglySorted_map; [| exact Hs]. intros x y Hxy. exact Hxy.
Qed.

Lemma example_sp_data_separated :
  ranges_separated (m_whammy_ranges example_sp_data).
Proof. apply SpData_ctor_ranges_separated. Qed.

Lemma is_in_whammy_ranges_spec_witness :
  (is_in_whammy_ranges example_sp_data 6 = true
   <-> exists p, In p (m_whammy_ranges example_sp_data)
                 /\ beat (wr_start p) <= 6 /\ 6 <= beat (wr_end p))
  /\ (m_whammy_ranges example_sp_data = []
      -> is_in_whammy_ranges example_sp_data 6 = false).
Proof.
  apply (is_in_whammy_ranges_spec example_sp_data 6).
  exact example_sp_data_separated.
Defined.

(** X2.  With whammy ranges that lie apart in order and [start <= end],
    [available_whammy] is [SP_GAIN_RATE] (a thirtieth of a bar per beat)
    times the number of beats of [[start, end]] that whammy ranges cover. *)
Theorem available_whammy_covered_beats (sd : SpData) (start end_ : Q)
  (Hsep : ranges_separated (m_whammy_ranges sd)) (Hle : start <= end_) :
  available_whammy sd start end_
  == SP_GAIN_RATE
     * Qsum (map (whammy_overlap start end_) (m_whammy_ranges sd)).
Proof.
  unfold available_whammy.
  destruct (lower_bound_end_split start end_ _ Hsep Hle)
    as (kept & <- & Hkept & Hafter & Hsame).
  rewrite (available_whammy_loop_sum start end_ _ Hkept Hle Hafter), Hsame.
  lra.
Qed.

Lemma available_whammy_covered_beats_witness :
  available_whammy example_sp_data 2 6
  == SP_GAIN_RATE
     * Qsum (map (whammy_overlap 2 6) (m_whammy_ranges example_sp_data)).
Proof.
  apply (available_whammy_covered_beats example_sp_data 2 6
           example_sp_data_separated).
  vm_compute; discriminate.
Defined.

(** X3.  The whammy available over an interval is the sum of the whammy
    available over its two parts: for [start <= mid <= end],
    [available_whammy(start, end)
     = available_whammy(start, mid) + available_whammy(mid, end)]. *)
Theorem available_whammy_additive (sd : SpData) (start mid end_ : Q)
  (Hsep : ranges_separated (m_whammy_ranges sd))
  (Hsm : start <= mid) (Hme : mid <= end_) :
  available_whammy sd start end_
  == available_whammy sd start mid + available_whammy sd mid end_.
Proof.
  assert (Hse : start <= end_) by lra.
  rewrite (available_whammy_sum sd start end_ Hsep Hse),
    (available_whammy_sum sd start mid Hsep Hsm),
    (available_whammy_sum sd mid end_ Hsep Hme),
    (Qsum_overlap_split start mid end_ _ (proj1 Hsep) Hsm Hme).
  ring.
Qed.

Lemma available_whammy_additive_witness :
  available_whammy example_sp_data 2 10
  == available_whammy example_sp_data 2 6
     + available_whammy example_sp_data 6 10.
Proof.
  apply (available_whammy_additive example_sp_data 2 6 10
           example_sp_data_separated);
    vm_compute; discriminate.
Defined.

(** X4.  For [start <= end] the available whammy is not negative and is at
    most what whammying every beat of the interval gives,
    [(end - start) * SP_GAIN_RATE]; with no whammy range it is 0. *)
Theorem available_whammy_bounds (sd : SpData) (start end_ : Q)
  (Hsep : ranges_separated (m_whammy_ranges sd)) (Hle : start <= end_) :
  0 <= available_whammy sd start end_
  /\ available_whammy sd start end_ <= (end_ - start) * SP_GAIN_RATE
  /\ (m_whammy_ranges sd = [] -> available_whammy sd start end_ == 0).
Proof.
  rewrite (available_whammy_sum sd start end_ Hsep Hle).
  pose proof (Qsum_overlap_nonneg start end_ (m_whammy_ranges sd)) as H0.
  pose proof (Qsum_overlap_le (m_whammy_ranges sd) Hsep start end_ Hle) as H1.
  split; [| split].
  - qconst. change (/ 30) with (1 # 30). lra.
  - qconst. change (/ 30) with (1 # 30). lra.
  - intros E. rewrite E. unfold Qsum; simpl. ring.
Qed.

Lemma available_whammy_bounds_witness :
  0 <= available_whammy example_sp_data 2 6
  /\ available_whammy example_sp_data 2 6 <= (6 - 2) * SP_GAIN_RATE.
Proof.
  destruct (available_whammy_bounds example_sp_data 2 6
              example_sp_data_separated) as (H0 & H1 & _).
  - vm_compute; discriminate.
  - split; assumption.
Defined.
(** ** The conversions of a constructed [TimeConverter] *)

Lemma beats_of_measures_inverse (tc : TimeConverter) (measures : Q) :
  converter_ok tc ->
  beats_to_measures tc (measures_to_beats tc measures) == measures.
Proof.
  intros Hok.
  set (y := measures_to_beats tc measures).
  pose proof (measures_of_beats_inverse tc y Hok) as Hinv. fold y in Hinv.
  destruct (Qlt_le_dec (beats_to_measures tc y) measures) as [Hlt | Hge].
  - destruct (measures_to_beats_mono tc _ _ Hok (Qlt_le_weak _ _ Hlt))
      as [_ Hstrict].
    specialize (Hstrict Hlt). unfold y in *. lra.
  - destruct (Qlt_le_dec measures (beats_to_measures tc y)) as [Hlt | Hle];
      [| lra].
    destruct (measures_to_beats_mono tc _ _ Hok (Qlt_le_weak _ _ Hlt))
      as [_ Hstrict].
    specialize (Hstrict Hlt). unfold y in *. lra.
Qed.

(** X5.  For a positive resolution and a non-empty list of well-formed time
    signatures, both conversions of the constructed [TimeConverter] are
    strictly increasing: a later beat has a later measure and a later measure
    a later beat. *)
Theorem conversions_strictly_increasing (sync_track : SyncTrack)
  (resolution : Q) (x y : Q)
  (Hres : 0 < resolution) (Hsync : sync_track_ok sync_track)
  (Hne : time_sigs sync_track <> []) (Hlt : x < y) :
  beats_to_measures (TimeConverter_ctor sync_track resolution) x
  < beats_to_measures (TimeConverter_ctor sync_track resolution) y
  /\ measures_to_beats (TimeConverter_ctor sync_track resolution) x
     < measures_to_beats (TimeConverter_ctor sync_track resolution) y.
Proof.
  pose proof (TimeConverter_ctor_converter_ok sync_track resolution Hres Hsync
                Hne) as Hok.
  split.
  - now apply (beats_to_measures_mono _ x y Hok (Qlt_le_weak _ _ Hlt)).
  - now apply (measures_to_beats_mono _ x y Hok (Qlt_le_weak _ _ Hlt)).
Qed.

Lemma conversions_strictly_increasing_witness :
  let tc :=
    TimeConverter_ctor
      (mkSyncTrack [mkTimeSignature 0 4 4; mkTimeSignature 768 3 4] []) 192 in
  beats_to_measures tc (7 # 2) < beats_to_measures tc 6
  /\ measures_to_beats tc (7 # 2) < measures_to_beats tc 6.
Proof.
  apply (conversions_strictly_increasing
           (mkSyncTrack [mkTimeSignature 0 4 4; mkTimeSignature 768 3 4] [])
           192 (7 # 2) 6).
  - reflexivity.
  - split; repeat constructor; simpl; lia.
  - discriminate.
  - reflexivity.
Defined.

(** X6.  For a positive resolution and a non-empty list of well-formed time
    signatures, the two conversions of the constructed [TimeConverter] are
    inverse to one another at every beat and every measure, not only at the
    anchors of the table. *)
Theorem conversions_inverse_everywhere (sync_track : SyncTrack)
  (resolution : Q) (x : Q)
  (Hres : 0 < resolution) (Hsync : sync_track_ok sync_track)
  (Hne : time_sigs sync_track <> []) :
  measures_to_beats (TimeConverter_ctor sync_track resolution)
    (beats_to_measures (TimeConverter_ctor sync_track resolution) x) == x
  /\ beats_to_measures (TimeConverter_ctor sync_track resolution)
       (measures_to_beats (TimeConverter_ctor sync_track resolution) x) == x.
Proof.
  pose proof (TimeConverter_ctor_converter_ok sync_track resolution Hres Hsync
                Hne) as Hok.
  split.
  - now apply measures_of_beats_inverse.
  - now apply beats_of_measures_inverse.
Qed.

Lemma conversions_inverse_everywhere_witness :
  let tc :=
    TimeConverter_ctor
      (mkSyncTrack [mkTimeSignature 0 4 4; mkTimeSignature 768 3 4] []) 192 in
  measures_to_beats tc (beats_to_measures tc (11 # 2)) == 11 # 2
  /\ beats_to_measures tc (measures_to_beats tc (11 # 2)) == 11 # 2.
Proof.
  apply (conversions_inverse_everywhere
           (mkSyncTrack [mkTimeSignature 0 4 4; mkTimeSignature 768 3 4] [])
           192 (11 # 2)).
  - reflexivity.
  - split; repeat constructor; simpl; lia.
  - discriminate.
Defined.

(** ** More on SpBar *)

Lemma add_phrase_max (b : SpBar) :
  m_max (add_phrase b) = std_min (m_max b + SP_PHRASE_AMOUNT) 1.
Proof. reflexivity. Qed.

Lemma add_phrase_min (b : SpBar) :
  m_min (add_phrase b) = std_min (m_min b + SP_PHRASE_AMOUNT) 1.
Proof. reflexivity. Qed.

(** X7.  A phrase adds a quarter of a bar to both ends of the envelope,
    stopping at a full bar; so from any bar whose maximum is not negative two
    phrases make it full enough to activate, a bar that can activate still
    can after a phrase, and from any bar within [[0, 1]] four phrases fill it
    completely. *)
Theorem add_phrase_activation (b : SpBar) (H : sp_bar_ok b) :
  (m_max b <= 3 # 4 -> m_max (add_phrase b) == m_max b + (1 # 4))
  /\ (3 # 4 <= m_max b -> m_max (add_phrase b) == 1)
  /\ full_enough_to_activate (add_phrases 2 b) = true
  /\ (full_enough_to_activate b = true
      -> full_enough_to_activate (add_phrase b) = true)
  /\ m_min (add_phrases 4 b) == 1
  /\ m_max (add_phrases 4 b) == 1.
Proof.
  destruct H as (H0 & H1 & H2).
  unfold full_enough_to_activate, MINIMUM_SP_AMOUNT.
  cbn [add_phrases]. rewrite !add_phrase_max, !add_phrase_min.
  unfold SP_PHRASE_AMOUNT, std_min, Qleb.
  repeat split; intros; qcases; try reflexivity; try lra; try discriminate.
Qed.

Lemma add_phrase_activation_witness :
  full_enough_to_activate (add_phrases 2 (SpBar_ctor 0 0)) = true
  /\ m_min (add_phrases 4 (SpBar_ctor 0 0)) == 1.
Proof.
  destruct (add_phrase_activation (SpBar_ctor 0 0)) as (_ & _ & H & _ & K & _).
  - unfold sp_bar_ok; simpl; lra.
  - split; assumption.
Defined.

(** ** More on NoteTrack *)

Lemma note_less_asym (a b : Note) : note_less a b = true -> note_less b a = false.
Proof.
  intros H. apply not_true_iff_false. intros K.
  apply note_less_spec in H, K. lia.
Qed.

Lemma stable_sort_sorted_id (notes : list Note) :
  notes_strictly_sorted notes -> stable_sort note_less notes = notes.
Proof.
  induction 1 as [| x l Hl IH Hx]; [reflexivity |].
  simpl. rewrite IH. destruct l as [| y l']; [reflexivity |].
  simpl. inversion Hx as [| ? ? Hxy _]; subst.
  now rewrite (note_less_asym x y Hxy).
Qed.

Lemma push_distinct_sorted_id (notes : list Note) :
  forall prev,
    notes_strictly_sorted (prev :: notes) ->
    push_distinct prev notes = prev :: notes.
Proof.
  induction notes as [| p notes IH]; intros prev Hs; [reflexivity |].
  inversion Hs as [| ? ? Hs' Hall]; subst.
  inversion Hall as [| ? ? Hpp _]; subst.
  simpl. assert (Hd : note_differs p prev = true).
  { apply not_false_iff_true. rewrite note_differs_spec.
    apply note_less_spec in Hpp. lia. }
  rewrite Hd, (IH p Hs'). reflexivity.
Qed.

Lemma NoteTrack_notes_sorted_id (notes : list Note) :
  notes_strictly_sorted notes -> NoteTrack_notes notes = notes.
Proof.
  intros Hs. rewrite NoteTrack_notes_push, (stable_sort_sorted_id notes Hs).
  destruct notes as [| n rest]; [reflexivity |].
  now apply push_distinct_sorted_id.
Qed.

Lemma NoteTrack_notes_strictly_sorted (notes : list Note) :
  notes_strictly_sorted (NoteTrack_notes notes).
Proof.
  unfold notes_strictly_sorted. rewrite NoteTrack_notes_push.
  pose proof (stable_sort_sorted notes) as Hs.
  destruct (stable_sort note_less notes) as [| n rest]; [constructor |].
  now apply push_distinct_sorted.
Qed.

(** X8.  Notes that are already in strictly increasing order of
    [(position, colour)] go through the [NoteTrack] constructor unchanged;
    in particular constructing a track from the notes of a track gives the
    same notes, and no notes give no notes. *)
Theorem NoteTrack_notes_idempotent (notes : list Note) :
  (notes_strictly_sorted notes -> NoteTrack_notes notes = notes)
  /\ NoteTrack_notes (NoteTrack_notes notes) = NoteTrack_notes notes
  /\ NoteTrack_notes [] = [].
Proof.
  split; [apply NoteTrack_notes_sorted_id |].
  split; [| reflexivity].
  apply NoteTrack_notes_sorted_id, NoteTrack_notes_strictly_sorted.
Qed.

Lemma stable_insert_length {A : Type} (less : A -> A -> bool) (x : A)
  (l : list A) :
  length (stable_insert less x l) = S (length l).
Proof.
  induction l as [| y l IH]; [reflexivity |].
  simpl. destruct (less y x); simpl; [now rewrite IH | reflexivity].
Qed.

Lemma stable_sort_length {A : Type} (less : A -> A -> bool) (l : list A) :
  length (stable_sort less l) = length l.
Proof.
  induction l as [| x l IH]; [reflexivity |].
  simpl. now rewrite stable_insert_length, IH.
Qed.

Lemma push_distinct_length (notes : list Note) :
  forall prev, (length (push_distinct prev notes) <= S (length notes))%nat.
Proof.
  induction notes as [| p notes IH]; intros prev; simpl; [lia |].
  destruct (note_differs p prev); simpl; specialize (IH p); lia.
Qed.

(** X9.  The [NoteTrack] constructor invents nothing and loses no place:
    every note it keeps is a note of the input, it keeps no more notes than
    the input has, and for every input note it keeps a note with the same
    position and colour. *)
Theorem NoteTrack_notes_from_input (notes : list Note) :
  (forall n, In n (NoteTrack_notes notes) -> In n notes)
  /\ (length (NoteTrack_notes notes) <= length notes)%nat
  /\ (forall n, In n notes ->
        exists m, In m (NoteTrack_notes notes)
                  /\ note_position m = note_position n
                  /\ note_colour m = note_colour n).
Proof.
  split; [| split].
  - intros n Hn. rewrite NoteTrack_notes_push in Hn.
    apply (stable_sort_In note_less).
    destruct (stable_sort note_less notes) as [| x rest]; [destruct Hn |].
    now apply push_distinct_incl.
  - rewrite NoteTrack_notes_push, <- (stable_sort_length note_less notes).
    destruct (stable_sort note_less notes) as [| x rest]; [simpl; lia |].
    apply push_distinct_length.
  - intros n Hn.
    assert (Hin : In n (filter (note_at (note_position n) (note_colour n)) notes)).
    { apply filter_In. split; [exact Hn |].
      apply note_at_spec. split; reflexivity. }
    assert (Hkeep :
              filter (note_at (note_position n) (note_colour n))
                (NoteTrack_notes notes)
              = keep_last
                  (filter (note_at (note_position n) (note_colour n)) notes)).
    { rewrite NoteTrack_notes_push,
        <- (stable_sort_filter (note_position n) (note_colour n) notes).
      pose proof (stable_sort_sorted notes) as Hs.
      destruct (stable_sort note_less notes) as [| x rest]; [reflexivity |].
      now apply push_distinct_filter. }
    pose proof (keep_last_length
                  (filter (note_at (note_position n) (note_colour n)) notes))
      as Hlen.
    destruct (filter (note_at (note_position n) (note_colour n)) notes)
      as [| y l] eqn:E; [destruct Hin |].
    destruct (keep_last (y :: l)) as [| m k] eqn:Ek; [discriminate |].
    exists m.
    assert (Hm : In m (filter (note_at (note_position n) (note_colour n))
                         (NoteTrack_notes notes))).
    { rewrite Hkeep. now left. }
    apply filter_In in Hm. destruct Hm as [Hm Hat].
    apply note_at_spec in Hat. destruct Hat as [Hp Hc].
    split; [exact Hm |]. split; [exact Hp | exact Hc].
Qed.
(** ** What the whammy ranges of a constructed [SpData] cover *)

Lemma range_less_false (x y : Q * Q) :
  range_less x y = false -> fst y <= fst x.
Proof.
  unfold range_less. rewrite orb_false_iff. intros [H _].
  now apply Qltb_false in H.
Qed.

Lemma range_less_true (x y : Q * Q) :
  range_less x y = true -> fst x <= fst y.
Proof.
  unfold range_less. rewrite orb_true_iff, andb_true_iff, negb_true_iff.
  intros [H | [H _]]; qbool; lra.
Qed.

Lemma stable_insert_by_start (x : Q * Q) (l : list (Q * Q)) :
  StronglySorted (fun a b => fst a <= fst b) l ->
  StronglySorted (fun a b => fst a <= fst b) (stable_insert range_less x l).
Proof.
  induction 1 as [| y l Hl IH Hy]; simpl.
  - constructor; constructor.
  - destruct (range_less y x) eqn:Hless.
    + constructor; [exact IH |].
      apply Forall_forall. intros z Hz.
      apply stable_insert_In in Hz. destruct Hz as [-> | Hz].
      * now apply range_less_true.
      * rewrite Forall_forall in Hy. now apply Hy.
    + apply range_less_false in Hless.
      constructor; [constructor; assumption |].
      constructor; [exact Hless |].
      rewrite Forall_forall in Hy |- *. intros z Hz.
      specialize (Hy z Hz). simpl in *. lra.
Qed.

Lemma stable_sort_by_start (l : list (Q * Q)) :
  StronglySorted (fun a b => fst a <= fst b) (stable_sort range_less l).
Proof.
  induction l as [| x l IH]; simpl.
  - constructor.
  - now apply stable_insert_by_start.
Qed.

(** The merging loop keeps the beats covered: a beat lies in a merged range
    exactly when it lies in the range being grown or in one still to come. *)
Lemma merge_ranges_covers (b : Q) (ranges : list (Q * Q)) :
  forall pair_,
    StronglySorted (fun x y => fst x <= fst y) (pair_ :: ranges) ->
    (Exists (pair_covers b) (merge_ranges pair_ ranges)
     <-> Exists (pair_covers b) (pair_ :: ranges)).
Proof.
  induction ranges as [| p ranges IH]; intros pair_ Hs; simpl.
  - reflexivity.
  - inversion Hs as [| ? ? Hs' Hall]; subst.
    inversion Hall as [| ? ? Hp Hrest]; subst.
    inversion Hs' as [| ? ? Hs'' Hprest]; subst.
    destruct (Qleb (fst p) (snd pair_)) eqn:Hle.
    + apply Qleb_true in Hle. rewrite IH.
      * rewrite !Exists_cons. unfold pair_covers, std_max; simpl.
        split.
        -- intros [[H1 H2] | H]; [| tauto].
           revert H2. qcases; intros H2.
           ++ destruct (Qlt_le_dec (snd pair_) b); [right; left | left]; lra.
           ++ left. lra.
        -- intros [[H1 H2] | [[H1 H2] | H]]; [| | tauto]; left;
             qcases; lra.
      * constructor; [exact Hs'' |]. simpl. exact Hrest.
    + rewrite Exists_cons, (IH p Hs'), !Exists_cons. reflexivity.
Qed.

Lemma Exists_stable_sort {A : Type} (less : A -> A -> bool) (P : A -> Prop)
  (l : list A) :
  Exists P (stable_sort less l) <-> Exists P l.
Proof.
  rewrite !Exists_exists. split; intros (x & Hx & HP); exists x;
    (split; [| exact HP]); now apply (stable_sort_In less).
Qed.

Lemma merged_ranges_covers
  (beats_to_seconds seconds_to_beats : TimeConverter -> Q -> Q)
  (converter : TimeConverter) (note_spans : list (Z * Z))
  (phrases : list StarPower) (resolution : Z) (early_whammy lazy_whammy : Q)
  (b : Q) :
  Exists (pair_covers b)
    (merged_ranges beats_to_seconds seconds_to_beats converter note_spans
       phrases resolution early_whammy lazy_whammy)
  <-> Exists (pair_covers b)
        (flat_map
           (span_range beats_to_seconds seconds_to_beats converter phrases
              resolution ((7 # 100) * early_whammy) lazy_whammy)
           note_spans).
Proof.
  unfold merged_ranges.
  match goal with |- context [stable_sort range_less ?l] => set (ranges := l) end.
  rewrite <- (Exists_stable_sort range_less (pair_covers b) ranges).
  pose proof (stable_sort_by_start ranges) as Hs.
  destruct (stable_sort range_less ranges) as [| pair_ rest]; [reflexivity |].
  now apply merge_ranges_covers.
Qed.

Lemma span_range_In
  (beats_to_seconds seconds_to_beats : TimeConverter -> Q -> Q)
  (converter : TimeConverter) (phrases : list StarPower) (resolution : Z)
  (early_timing_window lazy_whammy : Q) (position length : Z) (x : Q * Q) :
  In x (span_range beats_to_seconds seconds_to_beats converter phrases
          resolution early_timing_window lazy_whammy (position, length))
  <-> length <> 0%Z
      /\ (exists phrase,
            In phrase phrases
            /\ (sp_position phrase <= position
                < sp_position phrase + sp_length phrase)%Z)
      /\ fst x < snd x
      /\ x = (seconds_to_beats converter
                (beats_to_seconds converter
                   (inject_Z position / inject_Z resolution)
                 - early_timing_window + lazy_whammy),
              inject_Z (position + length) / inject_Z resolution).
Proof.
  assert (Hphrase : forall p,
             phrase_contains_pos p position = true
             <-> (sp_position p <= position < sp_position p + sp_length p)%Z).
  { intros p. unfold phrase_contains_pos.
    destruct (position <? sp_position p)%Z eqn:E.
    - apply Z.ltb_lt in E. split; [discriminate | lia].
    - apply Z.ltb_ge in E. rewrite Z.ltb_lt. lia. }
  unfold span_range.
  destruct (length =? 0)%Z eqn:Hlen.
  { apply Z.eqb_eq in Hlen. simpl. split; [tauto | intros (H & _); tauto]. }
  apply Z.eqb_neq in Hlen.
  destruct (existsb (fun p => phrase_contains_pos p position) phrases) eqn:Hex;
    simpl.
  - apply existsb_exists in Hex. destruct Hex as (p & Hp & Hin).
    apply Hphrase in Hin.
    match goal with |- context [Qltb ?a ?b] => destruct (Qltb a b) eqn:E end.
    + apply Qltb_true in E. simpl. split.
      * intros [<- | []]. simpl. repeat split; eauto.
      * intros (_ & _ & _ & ->). now left.
    + apply Qltb_false in E. simpl. split; [tauto |].
      intros (_ & _ & Hlt & ->). simpl in Hlt. lra.
  - split; [tauto |]. intros (_ & (p & Hp & Hin) & _).
    apply Hphrase in Hin.
    assert (existsb (fun p => phrase_contains_pos p position) phrases = true).
    { apply existsb_exists. eauto. }
    congruence.
Qed.

(** X10.  Whatever the input of the [SpData] constructor, a beat is in the
    whammy ranges of the result exactly when some note span has a non-zero
    length and a position inside a phrase, and the beat lies, ends included,
    between the start of that note, moved by the early and lazy whammy
    times, and its end, the moved start being before the end: sorting and
    merging lose and add no beat. *)
Theorem is_in_whammy_ranges_of_spans
  (beats_to_seconds seconds_to_beats : TimeConverter -> Q -> Q)
  (note_spans : list (Z * Z)) (phrases : list StarPower) (resolution : Z)
  (sync_track : SyncTrack) (early_whammy lazy_whammy : Q) (b : Q) :
  is_in_whammy_ranges
    (SpData_ctor beats_to_seconds seconds_to_beats note_spans phrases
       resolution sync_track early_whammy lazy_whammy) b = true
  <-> exists position length phrase,
        In (position, length) note_spans
        /\ length <> 0%Z
        /\ In phrase phrases
        /\ (sp_position phrase <= position
            < sp_position phrase + sp_length phrase)%Z
        /\ let converter :=
             TimeConverter_ctor sync_track (inject_Z resolution) in
           let beat_start :=
             seconds_to_beats converter
               (beats_to_seconds converter
                  (inject_Z position / inject_Z resolution)
                - (7 # 100) * early_whammy + lazy_whammy) in
           let beat_end := inject_Z (position + length) / inject_Z resolution in
           beat_start < beat_end /\ beat_start <= b /\ b <= beat_end.
Proof.
  set (sd := SpData_ctor beats_to_seconds seconds_to_beats note_spans phrases
               resolution sync_track early_whammy lazy_whammy).
  set (tc := TimeConverter_ctor sync_track (inject_Z resolution)).
  pose proof (SpData_ctor_ranges_separated beats_to_seconds seconds_to_beats
                note_spans phrases resolution sync_track early_whammy
                lazy_whammy) as Hsep.
  fold sd in Hsep.
  unfold is_in_whammy_ranges.
  rewrite (in_whammy_ranges_scan b (m_whammy_ranges sd) (proj2 Hsep)).
  pose proof (merged_ranges_covers beats_to_seconds seconds_to_beats tc
                note_spans phrases resolution early_whammy lazy_whammy b)
    as Hcov.
  rewrite !Exists_exists in Hcov.
  split.
  - intros (p & Hp & H1 & H2).
    unfold sd, SpData_ctor in Hp; cbn [m_whammy_ranges] in Hp.
    apply in_map_iff in Hp. destruct Hp as (r & <- & Hr). simpl in H1, H2.
    destruct (proj1 Hcov (ex_intro _ r (conj Hr (conj H1 H2))))
      as (x & Hx & Hx1 & Hx2).
    apply in_flat_map in Hx. destruct Hx as ([position length] & Hspan & Hin).
    apply span_range_In in Hin.
    destruct Hin as (Hlen & (phrase & Hphrase & Hpos) & Hlt & ->).
    exists position, length, phrase. unfold pair_covers in *.
    simpl in Hlt, Hx1, Hx2. fold tc.
    split; [exact Hspan |]. split; [exact Hlen |]. split; [exact Hphrase |].
    split; [exact Hpos |]. cbv zeta. split; [exact Hlt |].
    split; [exact Hx1 | exact Hx2].
  - intros (position & length & phrase & Hspan & Hlen & Hphrase & Hpos
            & Hlt & H1 & H2).
    set (x := (seconds_to_beats tc
                 (beats_to_seconds tc (inject_Z position / inject_Z resolution)
                  - (7 # 100) * early_whammy + lazy_whammy),
               inject_Z (position + length) / inject_Z resolution)).
    assert (Hx : exists x0,
               In x0 (flat_map
                        (span_range beats_to_seconds seconds_to_beats tc
                           phrases resolution ((7 # 100) * early_whammy)
                           lazy_whammy) note_spans)
               /\ pair_covers b x0).
    { exists x. split; [| split; assumption].
      apply in_flat_map. exists (position, length). split; [exact Hspan |].
      apply span_range_In. repeat split; eauto. }
    destruct (proj2 Hcov Hx) as (r & Hr & Hr1 & Hr2).
    exists (mkWhammyRange
              (mkPosition (fst r) (beats_to_measures tc (fst r)))
              (mkPosition (snd r) (beats_to_measures tc (snd r)))).
    split; [| split; assumption].
    unfold sd, SpData_ctor; cbn [m_whammy_ranges].
    apply in_map_iff. exists r. split; [reflexivity | exact Hr].
Qed.
(** ** The two private walks over the beat rates *)



(** X11.  Over a stretch of whammy [[start, end]] entered with an amount in
    [[0, 1]], [propagate_over_whammy_range] returns exactly [-1] when the bar
    runs out and otherwise an amount in [[0, 1]]; over an empty stretch it
    returns the amount it was given. *)
Theorem propagate_over_whammy_range_result (sd : SpData) (start end_ sp : Q)
  (Hle : start <= end_) (Hsp0 : 0 <= sp) (Hsp1 : sp <= 1) :
  (propagate_over_whammy_range sd start end_ sp = - (1)
   \/ 0 <= propagate_over_whammy_range sd start end_ sp)
  /\ propagate_over_whammy_range sd start end_ sp <= 1
  /\ (start == end_ -> propagate_over_whammy_range sd start end_ sp == sp).
Proof.
  split; [| split].
  - now apply propagate_over_whammy_range_cases.
  - now apply propagate_over_whammy_range_le_1.
  - intros Heq. now apply propagate_over_whammy_range_same.
Qed.

Lemma propagate_over_whammy_range_result_witness :
  (propagate_over_whammy_range example_drain_sp_data 0 40 (1 # 4) = - (1)
   \/ 0 <= propagate_over_whammy_range example_drain_sp_data 0 40 (1 # 4))
  /\ propagate_over_whammy_range example_drain_sp_data 0 40 (1 # 4) <= 1
  /\ (0 == 40
      -> propagate_over_whammy_range example_drain_sp_data 0 40 (1 # 4)
         == 1 # 4).
Proof.
  apply (propagate_over_whammy_range_result example_drain_sp_data 0 40 (1 # 4));
    vm_compute; discriminate.
Defined.



(** ** The range of [propagate_sp_over_whammy_min] *)

(** X13.  For a well-formed [SpData], positions of its converter with
    [start] not after [end] and an amount of at most a full bar,
    [propagate_sp_over_whammy_min] returns an amount in [[0, 1]], wherever
    the required whammy ends. *)
Theorem propagate_sp_over_whammy_min_bounds (sd : SpData)
  (start end_ required_whammy_end : Position) (sp : Q)
  (Hok : SpData_ok sd)
  (Hstart : on_track (m_converter sd) start)
  (Hend : on_track (m_converter sd) end_)
  (Hreq : on_track (m_converter sd) required_whammy_end)
  (Hle : beat start <= beat end_) (Hsp1 : sp <= 1) :
  0 <= propagate_sp_over_whammy_min sd start end_ sp required_whammy_end
  /\ propagate_sp_over_whammy_min sd start end_ sp required_whammy_end <= 1.
Proof.
  destruct Hok as (Htc & _ & _ & _ & _ & Htrack).
  assert (Hmax : forall e, on_track (m_converter sd) e -> beat start <= beat e ->
                           propagate_sp_over_whammy_max sd start e sp <= 1).
  { intros e He Hse. unfold propagate_sp_over_whammy_max.
    apply max_loop_le_1; try assumption.
    unfold ranges_from. now apply Forall_skipn. }
  assert (Hmeas : forall x y, on_track (m_converter sd) x ->
                              on_track (m_converter sd) y ->
                              beat x <= beat y -> measure x <= measure y).
  { intros x y Hx Hy. exact (measure_le (m_converter sd) Htc x y Hx Hy). }
  unfold propagate_sp_over_whammy_min.
  destruct (Qlt_le_dec (beat start) (beat required_whammy_end)) as [Hsr | Hrs].
  - destruct (Qlt_le_dec (beat required_whammy_end) (beat end_)) as [Hre | Her].
    + pose proof (Hmax required_whammy_end Hreq (Qlt_le_weak _ _ Hsr)) as H1.
      pose proof (Hmeas _ _ Hreq Hend (Qlt_le_weak _ _ Hre)) as H2.
      unfold std_max. qconst. qcases; lra.
    + pose proof (Hmax end_ Hend Hle) as H1.
      unfold std_max. qcases; lra.
  - pose proof (Hmeas _ _ Hstart Hend Hle) as H2.
    unfold std_max. qconst. qcases; lra.
Qed.

Lemma propagate_sp_over_whammy_min_bounds_witness :
  0 <= propagate_sp_over_whammy_min example_sp_data (example_position 0)
         (example_position 16) (1 # 2) (example_position 6)
  /\ propagate_sp_over_whammy_min example_sp_data (example_position 0)
       (example_position 16) (1 # 2) (example_position 6) <= 1.
Proof.
  apply (propagate_sp_over_whammy_min_bounds example_sp_data).
  - exact example_sp_data_ok.
  - split; vm_compute; reflexivity.
  - split; vm_compute; reflexivity.
  - split; vm_compute; reflexivity.
  - vm_compute; discriminate.
  - vm_compute; discriminate.
Defined.

(** ** Walks over the beat rates compose *)

Lemma whammy_range_loop_nil (start end_ sp : Q) :
  whammy_range_loop [] start end_ sp = sp.
Proof. simpl. destruct (Qlt_le_dec start end_); reflexivity. Qed.

Lemma whammy_range_loop_done (rates : list BeatRate) (start end_ sp : Q) :
  end_ <= start -> whammy_range_loop rates start end_ sp = sp.
Proof.
  intros H. rewrite whammy_range_loop_eq.
  destruct (Qlt_le_dec start end_); [lra | reflexivity].
Qed.

Lemma gain_sign (a b r : Q) :
  a <= b ->
  (0 <= r -> 0 <= (b - a) * r) /\ (r <= 0 -> (b - a) * r <= 0).
Proof. intros H. split; intros Hr; nra. Qed.

(** One step of the loop from [s], written for any end [x] of the step. *)
Lemma gain_compose (s m x r sp : Q) :
  s <= m -> m <= x -> 0 <= sp -> sp <= 1 ->
  0 <= sp + (m - s) * r ->
  (sp + (x - s) * r < 0 <-> std_min (sp + (m - s) * r) 1 + (x - m) * r < 0)
  /\ std_min (sp + (x - s) * r) 1
     == std_min (std_min (sp + (m - s) * r) 1 + (x - m) * r) 1.
Proof.
  intros Hsm Hmx Hsp0 Hsp1 Hm.
  destruct (gain_sign s m r Hsm) as [Hp1 Hn1].
  destruct (gain_sign m x r Hmx) as [Hp2 Hn2].
  assert (E : (x - s) * r == (m - s) * r + (x - m) * r) by ring.
  destruct (Qlt_le_dec r 0) as [Hr | Hr].
  - specialize (Hn1 (Qlt_le_weak _ _ Hr)). specialize (Hn2 (Qlt_le_weak _ _ Hr)).
    unfold std_min. split; [split; intros H |]; qcases; lra.
  - specialize (Hp1 Hr). specialize (Hp2 Hr).
    unfold std_min. split; [split; intros H |]; qcases; lra.
Qed.
Lemma whammy_range_loop_compose (rates : list BeatRate) :
  forall s m e sp,
    rates_sorted rates -> rates <> [] ->
    next_not_before s rates ->
    match rates with p :: _ => br_position p <= s | [] => True end ->
    s <= m -> m <= e -> 0 <= sp -> sp <= 1 ->
    0 <= whammy_range_loop rates s m sp ->
    exists pre A,
      rates = pre ++ A /\ A <> []
      /\ match A with p :: _ => br_position p <= m | [] => True end
      /\ next_not_before m A
      /\ whammy_range_loop rates s e sp
         == whammy_range_loop A m e (whammy_range_loop rates s m sp).
Proof.
  induction rates as [| p rest IH];
    intros s m e sp Hs Hne Hnext Hhead Hsm Hme Hsp0 Hsp1 Hv; [congruence |].
  assert (Hstay : next_not_before m (p :: rest) ->
                  whammy_range_loop (p :: rest) s e sp
                  == whammy_range_loop (p :: rest) m e
                       (whammy_range_loop (p :: rest) s m sp) ->
                  exists pre A,
                    p :: rest = pre ++ A /\ A <> []
                    /\ match A with q :: _ => br_position q <= m | [] => True end
                    /\ next_not_before m A
                    /\ whammy_range_loop (p :: rest) s e sp
                       == whammy_range_loop A m e
                            (whammy_range_loop (p :: rest) s m sp)).
  { intros Hn E. exists [], (p :: rest).
    split; [reflexivity |]. split; [discriminate |].
    split; [lra |]. split; [exact Hn | exact E]. }
  destruct (Qlt_le_dec s m) as [Hlt | Hge].
  2:{ (* nothing to walk up to [m] *)
    apply Hstay.
    - destruct rest as [| next rest']; simpl in *; [exact I | lra].
    - rewrite (whammy_range_loop_done (p :: rest) s m sp Hge).
      apply whammy_range_loop_proper; [lra | reflexivity | reflexivity]. }
  clear Hstay.
  assert (Hse : s < e) by lra.
  rewrite (whammy_range_loop_eq (p :: rest) s m sp) in Hv |- *.
  rewrite (whammy_range_loop_eq (p :: rest) s e sp).
  destruct (Qlt_le_dec s m) as [_ | Hbad]; [| lra].
  destruct (Qlt_le_dec s e) as [_ | Hbad]; [| lra].
  destruct rest as [| next rest'].
  - (* the last entry *)
    cbv zeta in Hv |- *. rewrite !whammy_range_loop_nil in *.
    destruct (Qlt_le_dec (sp + (m - s) * net_sp_gain_rate p) 0) as [Hneg | Hpos];
      [exfalso; revert Hv; lra |].
    destruct (gain_compose s m e (net_sp_gain_rate p) sp
                (Qlt_le_weak _ _ Hlt) Hme Hsp0 Hsp1 Hpos) as [Hiff Heq].
    exists [], [p]. split; [reflexivity |]. split; [discriminate |].
    split; [simpl in Hhead; lra |]. split; [exact I |].
    rewrite (whammy_range_loop_eq [p] m e).
    destruct (Qlt_le_dec m e) as [Hme' | Hem].
    + cbv zeta. rewrite !whammy_range_loop_nil.
      destruct (Qlt_le_dec (sp + (e - s) * net_sp_gain_rate p) 0);
        destruct (Qlt_le_dec
                    (std_min (sp + (m - s) * net_sp_gain_rate p) 1
                     + (e - m) * net_sp_gain_rate p) 0);
        try reflexivity; try exact Heq; exfalso; tauto || lra.
    + assert (E : e == m) by lra.
      destruct (Qlt_le_dec (sp + (e - s) * net_sp_gain_rate p) 0) as [Hn | Hp].
      * exfalso. rewrite E in Hn. lra.
      * apply std_min_proper; [| reflexivity]. rewrite E. reflexivity.
  - (* an entry with a successor *)
    simpl in Hnext.
    cbv zeta in Hv |- *.
    destruct (Qlt_le_dec (br_position next) m) as [Hnm | Hmn].
    + (* [m] lies beyond the next entry: both walks take the same step *)
      assert (Em : std_min m (br_position next) = br_position next).
      { unfold std_min. destruct (Qlt_le_dec (br_position next) m); [reflexivity | lra]. }
      assert (Ee : std_min e (br_position next) = br_position next).
      { unfold std_min. destruct (Qlt_le_dec (br_position next) e); [reflexivity | lra]. }
      rewrite Em in Hv |- *. rewrite Ee.
      destruct (Qlt_le_dec
                  (sp + (br_position next - s) * net_sp_gain_rate p) 0)
        as [Hneg | Hpos]; [exfalso; revert Hv; lra |].
      inversion Hs as [| ? ? Hs' Hall]; subst.
      destruct (IH (br_position next) m e
                  (std_min (sp + (br_position next - s) * net_sp_gain_rate p) 1))
        as (pre & A & Hsplit & HA & HheadA & HnextA & Heq); try assumption.
      * discriminate.
      * now apply rates_sorted_next.
      * simpl. lra.
      * lra.
      * unfold std_min. qcases; lra.
      * apply std_min_le_r.
      * exists (p :: pre), A. split; [simpl; now rewrite Hsplit |].
        split; [exact HA |]. split; [exact HheadA |]. split; [exact HnextA |].
        exact Heq.
    + (* [m] lies within the step of the first entry *)
      assert (Em : std_min m (br_position next) = m).
      { unfold std_min. destruct (Qlt_le_dec (br_position next) m); [lra | reflexivity]. }
      rewrite Em in Hv |- *.
      rewrite (whammy_range_loop_done (next :: rest') m m) in Hv |- * by lra.
      destruct (Qlt_le_dec (sp + (m - s) * net_sp_gain_rate p) 0) as [Hneg | Hpos];
        [exfalso; revert Hv; lra |].
      set (x := std_min e (br_position next)).
      assert (Hx : m <= x /\ x <= e).
      { unfold x, std_min. qcases; split; lra. }
      destruct (gain_compose s m x (net_sp_gain_rate p) sp
                  (Qlt_le_weak _ _ Hlt) (proj1 Hx) Hsp0 Hsp1 Hpos) as [Hiff Heq].
      exists [], (p :: next :: rest'). split; [reflexivity |].
      split; [discriminate |]. split; [simpl in Hhead; lra |].
      split; [simpl; exact Hmn |].
      rewrite (whammy_range_loop_eq (p :: next :: rest') m e).
      destruct (Qlt_le_dec m e) as [Hme' | Hem].
      * cbv zeta. fold x.
        destruct (Qlt_le_dec (sp + (x - s) * net_sp_gain_rate p) 0);
          destruct (Qlt_le_dec
                      (std_min (sp + (m - s) * net_sp_gain_rate p) 1
                       + (x - m) * net_sp_gain_rate p) 0);
          try reflexivity; try (exfalso; tauto || lra).
        apply whammy_range_loop_proper; [reflexivity | reflexivity | exact Heq].
      * assert (E : x == m) by (destruct Hx; lra).
        destruct (Qlt_le_dec (sp + (x - s) * net_sp_gain_rate p) 0) as [Hn | Hp].
        -- exfalso. rewrite E in Hn. lra.
        -- rewrite (whammy_range_loop_done (next :: rest') x e) by (destruct Hx; lra).
           apply std_min_proper; [| reflexivity]. rewrite E. reflexivity.
Qed.
(** A step of no length changes nothing. *)
Lemma whammy_range_loop_skip (p next : BeatRate) (rest : list BeatRate)
  (m e v : Q) :
  br_position next == m -> 0 <= v -> v <= 1 ->
  whammy_range_loop (p :: next :: rest) m e v
  == whammy_range_loop (next :: rest) m e v.
Proof.
  intros Hpos Hv0 Hv1. rewrite (whammy_range_loop_eq (p :: next :: rest)).
  destruct (Qlt_le_dec m e) as [Hlt | Hge].
  - cbv zeta.
    assert (Ex : std_min e (br_position next) = br_position next).
    { unfold std_min. destruct (Qlt_le_dec (br_position next) e); [reflexivity | lra]. }
    rewrite Ex.
    assert (E0 : (br_position next - m) * net_sp_gain_rate p == 0).
    { rewrite Hpos. ring. }
    destruct (Qlt_le_dec (v + (br_position next - m) * net_sp_gain_rate p) 0);
      [exfalso; lra |].
    apply whammy_range_loop_proper; [exact Hpos | reflexivity |].
    unfold std_min. qcases; lra.
  - now rewrite (whammy_range_loop_done (next :: rest) m e v Hge).
Qed.

Lemma whammy_range_loop_skip_prefix (mid : list BeatRate) :
  forall p A m e v,
    rates_sorted (p :: mid ++ A) -> A <> [] ->
    match mid ++ A with q :: _ => m <= br_position q | [] => True end ->
    match A with q :: _ => br_position q <= m | [] => True end ->
    0 <= v -> v <= 1 ->
    whammy_range_loop (p :: mid ++ A) m e v == whammy_range_loop A m e v.
Proof.
  induction mid as [| y mid IH]; intros p A m e v Hs HA Hlo Hhi Hv0 Hv1.
  - destruct A as [| a A']; [congruence |]. simpl in *.
    apply whammy_range_loop_skip; lra.
  - inversion Hs as [| ? ? Hs' _]; subst.
    assert (Hy : br_position y == m).
    { simpl in Hlo. inversion Hs' as [| ? ? _ Hall]; subst.
      destruct A as [| a A']; [congruence |].
      rewrite Forall_forall in Hall.
      assert (Ha : In a (mid ++ a :: A')).
      { apply in_or_app. right. now left. }
      specialize (Hall a Ha). simpl in Hhi. lra. }
    change (p :: (y :: mid) ++ A) with (p :: y :: mid ++ A).
    rewrite (whammy_range_loop_skip p y (mid ++ A) m e v Hy Hv0 Hv1).
    apply (IH y A m e v Hs' HA); try assumption.
    inversion Hs' as [| ? ? _ Hall]; subst.
    destruct (mid ++ A) as [| q l]; [exact I |].
    inversion Hall; subst. simpl in *. lra.
Qed.

(** [propagate_over_whammy_range] picks its first entry by [lower_bound];
    every entry that can serve at [m] gives the same walk. *)
Lemma propagate_over_whammy_range_restart (pre : list BeatRate) :
  forall tc ranges A m e v,
    rates_sorted (pre ++ A) -> A <> [] ->
    match A with q :: _ => br_position q <= m | [] => True end ->
    next_not_before m A ->
    m <= e -> 0 <= v -> v <= 1 ->
    propagate_over_whammy_range (mkSpData tc (pre ++ A) ranges) m e v
    == whammy_range_loop A m e v.
Proof.
  assert (Hfirst : forall (x : BeatRate) (l : list BeatRate) (m e v : Q),
             br_position x == m -> m <= e -> 0 <= v -> v <= 1 ->
             whammy_range_loop (x :: l) (std_min e (br_position x)) e
               (std_min
                  (v + (std_min e (br_position x) - m) * DEFAULT_NET_SP_GAIN_RATE)
                  1)
             == whammy_range_loop (x :: l) m e v).
  { intros x l m e v Hx Hme Hv0 Hv1.
    assert (E : std_min e (br_position x) == m).
    { unfold std_min. qcases; lra. }
    apply whammy_range_loop_proper; [exact E | reflexivity |].
    set (y := std_min e (br_position x)) in *. clearbody y.
    unfold std_min. qconst. qcases; lra. }
  induction pre as [| x pre IH]; intros tc ranges A m e v Hs HA Hhi Hnext Hme Hv0 Hv1;
    unfold propagate_over_whammy_range; cbn [m_beat_rates].
  - destruct A as [| a A']; [congruence |]. cbn [app lower_bound].
    destruct (Qltb (br_position a) m) eqn:Ea.
    + assert (E0 : lower_bound (fun ts y => Qltb (br_position ts) y) A' m = O).
      { destruct A' as [| a' A'']; [reflexivity |]. simpl in Hnext |- *.
        apply Qltb_false in Hnext. now rewrite Hnext. }
      rewrite E0. reflexivity.
    + apply Qltb_false in Ea. simpl in Hhi. apply Hfirst; lra.
  - cbn [app lower_bound].
    assert (Hs' : rates_sorted (pre ++ A)) by (now inversion Hs).
    assert (Hxa : match A with q :: _ => br_position x <= br_position q
                          | [] => True end).
    { destruct A as [| a A']; [exact I |].
      inversion Hs as [| ? ? _ Hall]; subst. rewrite Forall_forall in Hall.
      apply (Hall a). apply in_or_app. right. now left. }
    assert (Hxh : match pre ++ A with q :: _ => br_position x <= br_position q
                                 | [] => True end).
    { inversion Hs as [| ? ? _ Hall]; subst.
      destruct (pre ++ A) as [| q l]; [exact I |]. now inversion Hall. }
    destruct (Qltb (br_position x) m) eqn:Ex.
    + destruct (lower_bound (fun ts y => Qltb (br_position ts) y) (pre ++ A) m)
        as [| j] eqn:Ej.
      * cbn [skipn].
        apply whammy_range_loop_skip_prefix; try assumption.
        pose proof (lower_bound_skipn (fun ts y => Qltb (br_position ts) y)
                      (pre ++ A) m) as Hlb.
        rewrite Ej in Hlb. cbn [skipn] in Hlb.
        destruct (pre ++ A) as [| q l]; [exact I |].
        now apply Qltb_false in Hlb.
      * cbn [skipn].
        specialize (IH tc ranges A m e v Hs' HA Hhi Hnext Hme Hv0 Hv1).
        unfold propagate_over_whammy_range in IH; cbn [m_beat_rates] in IH.
        rewrite Ej in IH. exact IH.
    + apply Qltb_false in Ex.
      assert (Hx : br_position x == m).
      { destruct A as [| a A']; [congruence |]. simpl in Hhi. lra. }
      rewrite (Hfirst x (pre ++ A) m e v Hx Hme Hv0 Hv1).
      apply whammy_range_loop_skip_prefix; try assumption.
      destruct (pre ++ A) as [| q l]; [exact I | lra].
Qed.

Lemma propagate_over_whammy_range_rates (sd : SpData) (s e sp : Q) :
  propagate_over_whammy_range sd s e sp
  = propagate_over_whammy_range
      (mkSpData (m_converter sd) (m_beat_rates sd) (m_whammy_ranges sd)) s e sp.
Proof. destruct sd; reflexivity. Qed.

(** Walking to [m] and on to [e] is walking to [e], as long as the bar has
    not run out at [m]. *)
Lemma propagate_over_whammy_range_compose (sd : SpData) (s m e sp : Q) :
  rates_sorted (m_beat_rates sd) -> m_beat_rates sd <> [] ->
  s <= m -> m <= e -> 0 <= sp -> sp <= 1 ->
  0 <= propagate_over_whammy_range sd s m sp ->
  propagate_over_whammy_range sd s e sp
  == propagate_over_whammy_range sd m e
       (propagate_over_whammy_range sd s m sp).
Proof.
  intros Hs Hne Hsm Hme Hsp0 Hsp1 Hv.
  pose proof (propagate_over_whammy_range_le_1 sd s m sp Hsp1) as Hv1.
  rewrite (propagate_over_whammy_range_rates sd m e).
  set (F := propagate_over_whammy_range
              (mkSpData (m_converter sd) (m_beat_rates sd) (m_whammy_ranges sd))
              m e).
  unfold propagate_over_whammy_range in Hv, Hv1 |- *.
  destruct (lower_bound (fun ts y => Qltb (br_position ts) y)
              (m_beat_rates sd) s) as [| i] eqn:Ei.
  - destruct (m_beat_rates sd) as [| r0 rest] eqn:Er; [congruence |].
    apply lower_bound_O in Ei. apply Qltb_false in Ei.
    cbv zeta in Hv, Hv1 |- *.
    destruct (Qlt_le_dec (br_position r0) m) as [Hrm | Hmr].
    + (* [m] lies beyond the first entry *)
      assert (Em : std_min m (br_position r0) = br_position r0).
      { unfold std_min. destruct (Qlt_le_dec (br_position r0) m); [reflexivity | lra]. }
      assert (Ee : std_min e (br_position r0) = br_position r0).
      { unfold std_min. destruct (Qlt_le_dec (br_position r0) e); [reflexivity | lra]. }
      rewrite Em in Hv, Hv1 |- *. rewrite Ee.
      set (sp1 := std_min (sp + (br_position r0 - s) * DEFAULT_NET_SP_GAIN_RATE) 1)
        in *.
      assert (Hsp1' : 0 <= sp1 /\ sp1 <= 1).
      { unfold sp1, std_min. qconst. qcases; split; lra. }
      assert (Hn0 : next_not_before (br_position r0) (r0 :: rest))
        by now apply rates_sorted_next.
      destruct (whammy_range_loop_compose (r0 :: rest) (br_position r0) m e sp1
                  Hs Hne Hn0 (Qle_refl _) (Qlt_le_weak _ _ Hrm) Hme
                  (proj1 Hsp1') (proj2 Hsp1') Hv)
        as (pre & A & Hsplit & HA & HheadA & HnextA & Heq).
      rewrite Heq. symmetry. unfold F. rewrite Hsplit in Hs, Hv, Hv1 |- *.
      apply propagate_over_whammy_range_restart; assumption.
    + (* [m] lies in the stretch before the first entry *)
      assert (Em : std_min m (br_position r0) = m).
      { unfold std_min. destruct (Qlt_le_dec (br_position r0) m); [lra | reflexivity]. }
      rewrite Em in Hv, Hv1 |- *.
      rewrite (whammy_range_loop_done (r0 :: rest) m m) in Hv, Hv1 |- * by lra.
      unfold F, propagate_over_whammy_range; cbn [m_beat_rates].
      assert (E0 : lower_bound (fun ts y => Qltb (br_position ts) y)
                     (r0 :: rest) m = O).
      { simpl. apply Qltb_false in Hmr. now rewrite Hmr. }
      rewrite E0. cbv zeta.
      set (x := std_min e (br_position r0)).
      assert (Hx : m <= x /\ x <= e).
      { unfold x, std_min. qcases; split; lra. }
      apply whammy_range_loop_proper; [reflexivity | reflexivity |].
      unfold std_min. qconst. qcases; lra.
  - destruct (lower_bound_S _ _ _ _ Ei) as (p & rest & Hskip & Hp & Hrest).
    apply Qltb_true in Hp.
    rewrite Hskip in Hv, Hv1 |- *.
    assert (Hs' : rates_sorted (p :: rest)).
    { rewrite <- Hskip. now apply StronglySorted_skipn. }
    assert (Hpr : p :: rest <> []) by discriminate.
    assert (Hn0 : next_not_before s (p :: rest)).
    { destruct rest as [| next rest']; simpl; [exact I |].
      now apply Qltb_false in Hrest. }
    destruct (whammy_range_loop_compose (p :: rest) s m e sp
                Hs' Hpr Hn0
                (Qlt_le_weak _ _ Hp) Hsm Hme Hsp0 Hsp1 Hv)
      as (pre & A & Hsplit & HA & HheadA & HnextA & Heq).
    rewrite Heq. symmetry.
    assert (Hall : m_beat_rates sd = (firstn i (m_beat_rates sd) ++ pre) ++ A).
    { rewrite <- app_assoc, <- Hsplit, <- Hskip. symmetry.
      apply firstn_skipn. }
    unfold F. rewrite Hall in Hs |- *.
    apply propagate_over_whammy_range_restart; assumption.
Qed.
(** ** Propagation composes *)

Lemma lower_bound_ext {A V : Type} (comp : A -> V -> bool) (l : list A)
  (v v' : V) :
  (forall x, comp x v = comp x v') ->
  lower_bound comp l v = lower_bound comp l v'.
Proof.
  intros H. induction l as [| x l IH]; simpl; [reflexivity |].
  now rewrite H, IH.
Qed.

Lemma Qltb_proper (a b b' : Q) : b == b' -> Qltb a b = Qltb a b'.
Proof. intros H. unfold Qltb. qcases; try reflexivity; lra. Qed.

Lemma Qleb_proper (a b b' : Q) : b == b' -> Qleb a b = Qleb a b'.
Proof. intros H. unfold Qleb. qcases; try reflexivity; lra. Qed.

Lemma propagate_over_whammy_range_proper_all (sd : SpData)
  (s s' e e' sp sp' : Q) :
  s == s' -> e == e' -> sp == sp' ->
  propagate_over_whammy_range sd s e sp
  == propagate_over_whammy_range sd s' e' sp'.
Proof.
  intros Hs He Hsp. unfold propagate_over_whammy_range.
  rewrite (lower_bound_ext (fun ts y => Qltb (br_position ts) y)
             (m_beat_rates sd) s s')
    by (intros x; now apply Qltb_proper).
  destruct (lower_bound _ (m_beat_rates sd) s') as [| i].
  - destruct (m_beat_rates sd) as [| p rates]; [exact Hsp |].
    cbv zeta.
    assert (Hx : std_min e (br_position p) == std_min e' (br_position p)).
    { apply std_min_proper; [exact He | reflexivity]. }
    apply whammy_range_loop_proper; [exact Hx | exact He |].
    apply std_min_proper; [| reflexivity].
    rewrite Hx, Hs, Hsp. reflexivity.
  - now apply whammy_range_loop_proper.
Qed.

(** The loop of [propagate_sp_over_whammy_max] from two starts with the same
    beat and measure, with the same amount. *)
Lemma max_loop_proper (sd : SpData) (c : Position) (ranges : list WhammyRange) :
  forall st st' sp sp',
    beat st == beat st' -> measure st == measure st' -> sp == sp' ->
    fst (max_loop sd c ranges st sp) = fst (max_loop sd c ranges st' sp')
    /\ snd (max_loop sd c ranges st sp) == snd (max_loop sd c ranges st' sp').
Proof.
  induction ranges as [| p rest IH]; intros st st' sp sp' Hb Hm Hsp.
  - simpl. split; [reflexivity |]. unfold max_tail. qconst. lra.
  - rewrite !max_loop_cons.
    destruct (Qlt_le_dec (beat (wr_start p)) (beat c)) as [Hpc | Hcp].
    2:{ simpl. split; [reflexivity |]. unfold max_tail. qconst. lra. }
    assert (Hrange : forall a a' v v',
               beat a == beat a' -> v == v' ->
               fst match max_in_range sd c p a v with
                   | Return r => r
                   | Continue s0 v0 => max_loop sd c rest s0 v0
                   end
               = fst match max_in_range sd c p a' v' with
                     | Return r => r
                     | Continue s0 v0 => max_loop sd c rest s0 v0
                     end
               /\ snd match max_in_range sd c p a v with
                      | Return r => r
                      | Continue s0 v0 => max_loop sd c rest s0 v0
                      end
                  == snd match max_in_range sd c p a' v' with
                         | Return r => r
                         | Continue s0 v0 => max_loop sd c rest s0 v0
                         end).
    { intros a a' v v' Ha Hv. unfold max_in_range.
      pose proof (propagate_over_whammy_range_proper_all sd (beat a) (beat a')
                    (std_min (beat c) (beat (wr_end p)))
                    (std_min (beat c) (beat (wr_end p))) v v' Ha
                    (Qeq_refl _) Hv) as Hw.
      cbv zeta.
      destruct (Qlt_le_dec (propagate_over_whammy_range sd (beat a)
                              (std_min (beat c) (beat (wr_end p))) v) 0);
        destruct (Qlt_le_dec (propagate_over_whammy_range sd (beat a')
                                (std_min (beat c) (beat (wr_end p))) v') 0);
        try (exfalso; lra).
      - simpl. split; [reflexivity | exact Hw].
      - destruct (Qlt_le_dec (beat (wr_end p)) (beat c)).
        + apply IH; [reflexivity | reflexivity | exact Hw].
        + simpl. split; [reflexivity | exact Hw]. }
    unfold max_body.
    destruct (Qlt_le_dec (beat st) (beat (wr_start p)));
      destruct (Qlt_le_dec (beat st') (beat (wr_start p)));
      try (exfalso; lra).
    + cbv zeta.
      assert (Hd : sp - (measure (wr_start p) - measure st) / MEASURES_PER_BAR
                   == sp' - (measure (wr_start p) - measure st')
                            / MEASURES_PER_BAR).
      { qconst. lra. }
      destruct (Qlt_le_dec
                  (sp - (measure (wr_start p) - measure st) / MEASURES_PER_BAR) 0);
        destruct (Qlt_le_dec
                    (sp' - (measure (wr_start p) - measure st')
                           / MEASURES_PER_BAR) 0);
        try (exfalso; lra).
      * simpl. split; [reflexivity | exact Hd].
      * apply Hrange; [reflexivity | exact Hd].
    + apply Hrange; assumption.
Qed.

Lemma max_tail_compose (start b c : Position) (sp : Q) :
  max_tail b c (max_tail start b sp) == max_tail start c sp.
Proof. unfold max_tail. qconst. lra. Qed.

Lemma lower_bound_skipn_mono {A V : Type} (comp : A -> V -> bool) (l : list A)
  (v w : V) :
  (forall x, comp x v = true -> comp x w = true) ->
  skipn (lower_bound comp (skipn (lower_bound comp l v) l) w)
    (skipn (lower_bound comp l v) l)
  = skipn (lower_bound comp l w) l.
Proof.
  intros H. induction l as [| x l IH]; [reflexivity |].
  simpl. destruct (comp x v) eqn:Ev.
  - rewrite (H x Ev). simpl. exact IH.
  - reflexivity.
Qed.
Section Compose.

Variable sd : SpData.
Hypothesis sd_ok : SpData_ok sd.
Variables b c : Position.
Hypothesis b_track : on_track (m_converter sd) b.
Hypothesis c_track : on_track (m_converter sd) c.
Hypothesis b_le_c : beat b <= beat c.

Lemma compose_rates : rates_sorted (m_beat_rates sd) /\ m_beat_rates sd <> [].
Proof. destruct sd_ok as (_ & H1 & H2 & _). split; assumption. Qed.

Lemma compose_measure_eq (x y : Position) :
  on_track (m_converter sd) x -> on_track (m_converter sd) y ->
  beat x == beat y -> measure x == measure y.
Proof.
  intros Hx Hy. apply (measure_eq (m_converter sd)); try assumption.
  apply sd_ok.
Qed.

(** The part of the loop body after the gap, for a range that begins
    before [b]. *)
Lemma max_in_range_compose (p : WhammyRange) (rest : list WhammyRange)
  (st : Position) (sp : Q) :
  ranges_ok (m_converter sd) (p :: rest) ->
  (forall start v,
      ahead start rest -> on_track (m_converter sd) start ->
      beat start <= beat b -> 0 <= v -> v <= 1 ->
      0 <= snd (max_loop sd b rest start v) ->
      snd (max_loop sd c rest start v)
      == snd (max_loop sd c
                (skipn (lower_bound (fun x y => Qleb (beat (wr_end x)) (beat y))
                          rest b) rest)
                b (snd (max_loop sd b rest start v)))) ->
  beat (wr_start p) < beat b ->
  beat st <= beat b -> 0 <= sp -> sp <= 1 ->
  0 <= snd match max_in_range sd b p st sp with
           | Return r => r
           | Continue s0 v0 => max_loop sd b rest s0 v0
           end ->
  snd match max_in_range sd c p st sp with
      | Return r => r
      | Continue s0 v0 => max_loop sd c rest s0 v0
      end
  == snd (max_loop sd c
            (skipn (lower_bound (fun x y => Qleb (beat (wr_end x)) (beat y))
                      (p :: rest) b) (p :: rest))
            b
            (snd match max_in_range sd b p st sp with
                 | Return r => r
                 | Continue s0 v0 => max_loop sd b rest s0 v0
                 end)).
Proof.
  intros Hranges IH Hpb Hst Hsp0 Hsp1.
  destruct compose_rates as [Hrs Hrne].
  destruct (ranges_ok_head _ _ _ Hranges) as (Hp & Hps & Hpe & Hnext).
  destruct (ranges_ok_tail _ _ _ Hranges) as (Hrest & Hahead).
  unfold range_nonempty in Hp.
  assert (Hc0 : beat (wr_start p) < beat c) by lra.
  cbn [lower_bound].
  destruct (Qlt_le_dec (beat (wr_end p)) (beat b)) as [Hpeb | Hbpe].
  - (* the range ends before [b]: both runs cross it alike *)
    assert (Ecomp : Qleb (beat (wr_end p)) (beat b) = true).
    { apply Qleb_true. lra. }
    rewrite Ecomp. cbn [skipn].
    rewrite (max_in_range_inner sd b p st sp Hpeb).
    rewrite (max_in_range_inner sd c p st sp) by lra.
    cbv zeta.
    pose proof (propagate_over_whammy_range_le_1 sd (beat st) (beat (wr_end p))
                  sp Hsp1) as Hv1.
    destruct (Qlt_le_dec (propagate_over_whammy_range sd (beat st)
                            (beat (wr_end p)) sp) 0) as [Hneg | Hpos].
    + cbn [snd]. intros Hv. exfalso. lra.
    + intros Hv. apply IH; try assumption. lra.
  - (* [b] lies in the range *)
    rewrite (max_in_range_outer sd b p st sp Hbpe). cbv zeta.
    set (v := propagate_over_whammy_range sd (beat st) (beat b) sp).
    pose proof (propagate_over_whammy_range_le_1 sd (beat st) (beat b) sp Hsp1)
      as Hv1. fold v in Hv1.
    assert (Hrun : match (if Qlt_le_dec v 0
                          then @Return (exit_site * Q) (exit_whammy, v)
                          else Return (exit_range_end, v)) with
                   | Return r => r
                   | Continue s0 v0 => max_loop sd b rest s0 v0
                   end
                   = (if Qlt_le_dec v 0 then (exit_whammy, v)
                      else (exit_range_end, v))).
    { destruct (Qlt_le_dec v 0); reflexivity. }
    rewrite Hrun.
    assert (Hsnd' : snd (if Qlt_le_dec v 0
                         then (exit_whammy, v) else (exit_range_end, v)) = v).
    { destruct (Qlt_le_dec v 0); reflexivity. }
    rewrite Hsnd'. intros Hv. clear Hrun Hsnd'.
    destruct (Qlt_le_dec (beat (wr_end p)) (beat c)) as [Hpec | Hcpe].
    + (* the range ends before [c] *)
      rewrite (max_in_range_inner sd c p st sp Hpec). cbv zeta.
      set (w := propagate_over_whammy_range sd (beat st) (beat (wr_end p)) sp).
      assert (Hw : w == propagate_over_whammy_range sd (beat b)
                          (beat (wr_end p)) v).
      { apply propagate_over_whammy_range_compose; assumption. }
      destruct (Qleb (beat (wr_end p)) (beat b)) eqn:Ecomp.
      * (* [b] is the end of the range *)
        apply Qleb_true in Ecomp. cbn [skipn].
        assert (Ebe : beat b == beat (wr_end p)) by lra.
        assert (Hwv : w == v).
        { rewrite Hw. apply propagate_over_whammy_range_same; assumption. }
        assert (E0 : lower_bound (fun x y => Qleb (beat (wr_end x)) (beat y))
                       rest b = O).
        { destruct rest as [| q rest']; [reflexivity |]. simpl.
          destruct (ranges_ok_head _ _ _ Hrest) as (Hq & _).
          unfold range_nonempty in Hq.
          assert (Eq : Qleb (beat (wr_end q)) (beat b) = false).
          { apply Qleb_false. lra. }
          now rewrite Eq. }
        rewrite E0. cbn [skipn].
        destruct (Qlt_le_dec w 0) as [Hneg | Hpos]; [exfalso; lra |].
        apply max_loop_proper; [lra | | exact Hwv].
        apply compose_measure_eq; try assumption. lra.
      * (* [b] lies strictly inside the range *)
        apply Qleb_false in Ecomp. cbn [skipn].
        rewrite max_loop_cons.
        destruct (Qlt_le_dec (beat (wr_start p)) (beat c)) as [_ | Hbad];
          [| exfalso; lra].
        unfold max_body.
        destruct (Qlt_le_dec (beat b) (beat (wr_start p))) as [Hbad | _];
          [exfalso; lra |].
        rewrite (max_in_range_inner sd c p b v Hpec). cbv zeta.
        destruct (Qlt_le_dec w 0);
          destruct (Qlt_le_dec (propagate_over_whammy_range sd (beat b)
                                  (beat (wr_end p)) v) 0);
          try (exfalso; lra).
        -- cbn [snd]. exact Hw.
        -- apply max_loop_proper; [reflexivity | reflexivity | exact Hw].
    + (* [c] lies in the range too *)
      rewrite (max_in_range_outer sd c p st sp Hcpe). cbv zeta.
      set (w := propagate_over_whammy_range sd (beat st) (beat c) sp).
      assert (Hw : w == propagate_over_whammy_range sd (beat b) (beat c) v).
      { apply propagate_over_whammy_range_compose; assumption. }
      assert (Hsndw : snd match (if Qlt_le_dec w 0
                                 then @Return (exit_site * Q) (exit_whammy, w)
                                 else Return (exit_range_end, w)) with
                          | Return r => r
                          | Continue s0 v0 => max_loop sd c rest s0 v0
                          end = w).
      { destruct (Qlt_le_dec w 0); reflexivity. }
      rewrite Hsndw. clear Hsndw.
      destruct (Qleb (beat (wr_end p)) (beat b)) eqn:Ecomp.
      * apply Qleb_true in Ecomp. cbn [skipn].
        assert (Ebc : beat b == beat c) by lra.
        assert (Hwv : w == v).
        { rewrite Hw. apply propagate_over_whammy_range_same; assumption. }
        assert (E0 : lower_bound (fun x y => Qleb (beat (wr_end x)) (beat y))
                       rest b = O).
        { destruct rest as [| q rest']; [reflexivity |]. simpl.
          destruct (ranges_ok_head _ _ _ Hrest) as (Hq & _).
          unfold range_nonempty in Hq.
          assert (Eq : Qleb (beat (wr_end q)) (beat b) = false).
          { apply Qleb_false. lra. }
          now rewrite Eq. }
        rewrite E0. cbn [skipn].
        rewrite max_loop_stop.
        -- cbn [snd]. unfold max_tail.
           pose proof (compose_measure_eq b c b_track c_track Ebc). qconst. lra.
        -- destruct rest as [| q rest']; [exact I | lra].
      * apply Qleb_false in Ecomp. cbn [skipn].
        rewrite max_loop_cons.
        destruct (Qlt_le_dec (beat (wr_start p)) (beat c)) as [_ | Hbad];
          [| exfalso; lra].
        unfold max_body.
        destruct (Qlt_le_dec (beat b) (beat (wr_start p))) as [Hbad | _];
          [exfalso; lra |].
        rewrite (max_in_range_outer sd c p b v Hcpe). cbv zeta.
        destruct (Qlt_le_dec (propagate_over_whammy_range sd (beat b) (beat c) v) 0);
          cbn [snd]; exact Hw.
Qed.

Lemma max_loop_compose (ranges : list WhammyRange) :
  forall start sp,
    ranges_ok (m_converter sd) ranges -> ahead start ranges ->
    on_track (m_converter sd) start ->
    beat start <= beat b -> 0 <= sp -> sp <= 1 ->
    0 <= snd (max_loop sd b ranges start sp) ->
    snd (max_loop sd c ranges start sp)
    == snd (max_loop sd c
              (skipn (lower_bound (fun x y => Qleb (beat (wr_end x)) (beat y))
                        ranges b) ranges)
              b (snd (max_loop sd b ranges start sp))).
Proof.
  induction ranges as [| p rest IH];
    intros start sp Hranges Hahead Hstart Hsb Hsp0 Hsp1.
  - simpl. intros _. rewrite max_tail_compose. reflexivity.
  - destruct (ranges_ok_head _ _ _ Hranges) as (Hp & Hps & Hpe & Hnext).
    destruct (ranges_ok_tail _ _ _ Hranges) as (Hrest & Hahead').
    unfold range_nonempty in Hp. simpl in Hahead.
    assert (Hmeas : measure start <= measure (wr_start p)
                    \/ beat (wr_start p) < beat start).
    { destruct (Qlt_le_dec (beat (wr_start p)) (beat start)); [now right | left].
      apply (measure_le (m_converter sd)); try assumption. apply sd_ok. }
    destruct (Qlt_le_dec (beat (wr_start p)) (beat b)) as [Hpb | Hbp].
    + (* the range begins before [b]: both runs enter the body *)
      rewrite (max_loop_cons sd b), (max_loop_cons sd c).
      destruct (Qlt_le_dec (beat (wr_start p)) (beat b)) as [_ | Hbad];
        [| exfalso; lra].
      destruct (Qlt_le_dec (beat (wr_start p)) (beat c)) as [_ | Hbad];
        [| exfalso; lra].
      unfold max_body.
      destruct (Qlt_le_dec (beat start) (beat (wr_start p))) as [Hgap | Hin].
      * cbv zeta.
        destruct (Qlt_le_dec
                    (sp - (measure (wr_start p) - measure start)
                          / MEASURES_PER_BAR) 0) as [Hneg | Hpos].
        -- cbn [snd]. intros Hv. exfalso. lra.
        -- apply max_in_range_compose; try assumption.
           ++ intros s0 v0 Ha Ht Hle H0 H1. now apply IH.
           ++ lra.
           ++ destruct Hmeas as [Hm | Hm]; [| exfalso; lra].
              revert Hm. qconst. intros Hm. lra.
      * apply max_in_range_compose; try assumption.
        intros s0 v0 Ha Ht Hle H0 H1. now apply IH.
    + (* the range begins at or after [b]: the run to [b] is the tail *)
      rewrite (max_loop_stop sd b (p :: rest) start sp) by exact Hbp.
      cbn [snd]. intros Hv.
      assert (E0 : Qleb (beat (wr_end p)) (beat b) = false).
      { apply Qleb_false. lra. }
      cbn [lower_bound]. rewrite E0. cbn [skipn].
      destruct (Qlt_le_dec (beat (wr_start p)) (beat c)) as [Hpc | Hcp].
      2:{ rewrite !max_loop_stop by exact Hcp. cbn [snd].
          rewrite max_tail_compose. reflexivity. }
      rewrite !(max_loop_cons sd c).
      destruct (Qlt_le_dec (beat (wr_start p)) (beat c)) as [_ | Hbad];
        [| exfalso; lra].
      pose proof (max_loop_proper sd c rest) as Hproper.
      assert (Hrange : forall a a' v v',
                 beat a == beat a' -> v == v' ->
                 snd match max_in_range sd c p a v with
                     | Return r => r
                     | Continue s0 v0 => max_loop sd c rest s0 v0
                     end
                 == snd match max_in_range sd c p a' v' with
                        | Return r => r
                        | Continue s0 v0 => max_loop sd c rest s0 v0
                        end).
      { intros a a' v v' Ha Hvv. unfold max_in_range.
        pose proof (propagate_over_whammy_range_proper_all sd (beat a) (beat a')
                      (std_min (beat c) (beat (wr_end p)))
                      (std_min (beat c) (beat (wr_end p))) v v' Ha
                      (Qeq_refl _) Hvv) as Hw.
        cbv zeta.
        destruct (Qlt_le_dec (propagate_over_whammy_range sd (beat a)
                                (std_min (beat c) (beat (wr_end p))) v) 0);
          destruct (Qlt_le_dec (propagate_over_whammy_range sd (beat a')
                                  (std_min (beat c) (beat (wr_end p))) v') 0);
          try (exfalso; lra).
        - cbn [snd]. exact Hw.
        - destruct (Qlt_le_dec (beat (wr_end p)) (beat c)).
          + apply Hproper; [reflexivity | reflexivity | exact Hw].
          + cbn [snd]. exact Hw. }
      unfold max_tail in Hv |- *. unfold max_body.
      assert (Hmb : measure start <= measure b).
      { apply (measure_le (m_converter sd)); try assumption. apply sd_ok. }
      assert (Hmp : measure b <= measure (wr_start p)).
      { apply (measure_le (m_converter sd)); try assumption. apply sd_ok. }
      destruct (Qlt_le_dec (beat b) (beat (wr_start p))) as [Hbgap | Hbin].
      * (* [b] lies in the gap before the range *)
        destruct (Qlt_le_dec (beat start) (beat (wr_start p))) as [_ | Hbad];
          [| exfalso; lra].
        cbv zeta.
        assert (Hd : sp - (measure (wr_start p) - measure start)
                          / MEASURES_PER_BAR
                     == sp - (measure b - measure start) / MEASURES_PER_BAR
                        - (measure (wr_start p) - measure b) / MEASURES_PER_BAR).
        { qconst. lra. }
        destruct (Qlt_le_dec
                    (sp - (measure (wr_start p) - measure start)
                          / MEASURES_PER_BAR) 0);
          destruct (Qlt_le_dec
                      (sp - (measure b - measure start) / MEASURES_PER_BAR
                       - (measure (wr_start p) - measure b) / MEASURES_PER_BAR)
                      0);
          try (exfalso; lra).
        -- cbn [snd]. exact Hd.
        -- apply Hrange; [reflexivity | exact Hd].
      * (* [b] is the start of the range *)
        assert (Eb : beat b == beat (wr_start p)) by lra.
        pose proof (compose_measure_eq b (wr_start p) b_track Hps Eb) as Em.
        destruct (Qlt_le_dec (beat start) (beat (wr_start p))) as [Hgap | Hin].
        -- cbv zeta.
           assert (Hd : sp - (measure (wr_start p) - measure start)
                             / MEASURES_PER_BAR
                        == sp - (measure b - measure start) / MEASURES_PER_BAR).
           { qconst. lra. }
           destruct (Qlt_le_dec
                       (sp - (measure (wr_start p) - measure start)
                             / MEASURES_PER_BAR) 0);
             [exfalso; lra |].
           apply Hrange; [lra | exact Hd].
        -- assert (Es : beat start == beat b) by lra.
           pose proof (compose_measure_eq start b Hstart b_track Es) as Ems.
           apply Hrange; [exact Es |]. qconst. lra.
Qed.

End Compose.


Lemma propagate_sp_over_whammy_max_compose (sd : SpData)
  (a b c : Position) (sp : Q) :
  SpData_ok sd ->
  on_track (m_converter sd) a -> on_track (m_converter sd) b ->
  on_track (m_converter sd) c ->
  beat a <= beat b -> beat b <= beat c -> 0 <= sp -> sp <= 1 ->
  0 <= propagate_sp_over_whammy_max sd a b sp ->
  propagate_sp_over_whammy_max sd a c sp
  == propagate_sp_over_whammy_max sd b c
       (propagate_sp_over_whammy_max sd a b sp).
Proof.
  intros Hok Ha Hb Hc Hab Hbc Hsp0 Hsp1 Hmid.
  unfold propagate_sp_over_whammy_max in *.
  assert (Hranges : ranges_ok (m_converter sd) (m_whammy_ranges sd))
    by apply Hok.
  destruct (ranges_from_ok sd a Hranges) as [Hfrom Hahead].
  rewrite (max_loop_compose sd Hok b c Hb Hc Hbc (ranges_from sd a) a sp
             Hfrom Hahead Ha Hab Hsp0 Hsp1 Hmid).
  unfold ranges_from.
  rewrite (lower_bound_skipn_mono
             (fun x y => Qleb (beat (wr_end x)) (beat y))
             (m_whammy_ranges sd) a b).
  - reflexivity.
  - intros x Hx. apply Qleb_true in Hx. apply Qleb_true. lra.
Qed.



(** ** The table integrates the time signatures *)

Lemma converter_fold_anchors (resolution : Q) (tss : list TimeSignature) :
  forall st,
    timestamps (fold_left (converter_step resolution) tss st)
    = timestamps st
      ++ anchors_from resolution (last_tick st) (last_beat_rate st)
           (last_measure st) tss
    /\ last_beat_rate (fold_left (converter_step resolution) tss st)
       = final_rate (last_beat_rate st) tss.
Proof.
  induction tss as [| ts tss IH]; intros st; simpl.
  - now rewrite app_nil_r.
  - destruct (IH (converter_step resolution st ts)) as [H1 H2].
    rewrite H1, H2. simpl. rewrite <- app_assoc. split; reflexivity.
Qed.

Lemma measure_rate_pos (ts : TimeSignature) :
  time_sig_ok ts -> 0 < measure_rate ts.
Proof.
  intros (_ & Hnum & Hden). unfold measure_rate. apply Qdiv_pos.
  - apply Qmult_lt_0_compat; [| unfold DEFAULT_BEAT_RATE; lra].
    change 0 with (inject_Z 0). rewrite <- Zlt_Qlt. lia.
  - change 0 with (inject_Z 0). rewrite <- Zlt_Qlt. lia.
Qed.

Lemma tick_beat_le (resolution : Q) (t p : Z) :
  0 < resolution -> (t <= p)%Z ->
  inject_Z t / resolution <= inject_Z p / resolution.
Proof.
  intros Hres Hle. apply Qdiv_le_mono; [exact Hres |]. now rewrite <- Zle_Qle.
Qed.

Lemma tick_beat_lt_inv (resolution : Q) (t p : Z) :
  0 < resolution ->
  inject_Z t / resolution < inject_Z p / resolution -> (t < p)%Z.
Proof.
  intros Hres Hlt. destruct (Z_lt_le_dec t p) as [H | H]; [exact H |].
  pose proof (tick_beat_le resolution p t Hres H). lra.
Qed.

(** One anchor further: the step of the interpolation. *)
Lemma interp_step (resolution rate meas b : Q) (t p : Z) :
  0 < resolution -> 0 < rate -> (t < p)%Z ->
  meas
  + (meas + inject_Z (p - t) / (resolution * rate) - meas)
    * ((b - inject_Z t / resolution)
       / (inject_Z p / resolution - inject_Z t / resolution))
  == meas + (b - inject_Z t / resolution) / rate.
Proof.
  intros Hres Hrate Hlt.
  assert (Hd : 0 < inject_Z p - inject_Z t).
  { assert (inject_Z t < inject_Z p) by (now rewrite <- Zlt_Qlt). lra. }
  unfold Zminus. rewrite inject_Z_plus, inject_Z_opp.
  field. repeat split; lra.
Qed.

Lemma beats_to_measures_from_spec (resolution : Q) (tss : list TimeSignature) :
  0 < resolution ->
  forall tick rate meas a b,
    0 < rate -> (0 <= tick < 2 ^ 32)%Z ->
    Forall time_sig_ok tss ->
    StronglySorted (fun x y => (ts_position x <= ts_position y)%Z) tss ->
    Forall (fun ts => (tick <= ts_position ts)%Z) tss ->
    mt_beat a == inject_Z tick / resolution -> mt_measure a == meas ->
    mt_beat a < b ->
    beats_to_measures_from (final_rate rate tss) (Some a)
      (anchors_from resolution tick rate meas tss) b
    == spec_measure resolution tick rate meas tss b.
Proof.
  intros Hres.
  induction tss as [| ts tss IH];
    intros tick rate meas a b Hrate Htick Hok Hsorted Hfrom Ha Hm Hab.
  - simpl. unfold to_measure. rewrite Ha, Hm. reflexivity.
  - inversion Hok as [| ? ? Hts Hok']; subst.
    inversion Hsorted as [| ? ? Hsorted' Hle]; subst.
    inversion Hfrom as [| ? ? Hfirst _]; subst.
    assert (Hsub : uint32_sub (ts_position ts) tick
                   = (ts_position ts - tick)%Z).
    { unfold uint32_sub. apply Z.mod_small. destruct Hts as (Hp & _). lia. }
    cbn [anchors_from final_rate spec_measure beats_to_measures_from mt_beat
           mt_measure].
    rewrite Hsub.
    unfold Qltb.
    destruct (Qlt_le_dec (inject_Z (ts_position ts) / resolution) b)
      as [Hlt | Hge].
    + apply IH; try assumption.
      * now apply measure_rate_pos.
      * apply Hts.
      * reflexivity.
      * reflexivity.
    + cbn [mt_beat mt_measure].
      assert (Htp : (tick < ts_position ts)%Z).
      { apply (tick_beat_lt_inv resolution); [exact Hres |]. lra. }
      rewrite Ha, Hm. now apply interp_step.
Qed.
Lemma TimeConverter_ctor_anchors (sync_track : SyncTrack) (resolution : Q) :
  TimeConverter_ctor sync_track resolution
  = mkTimeConverter
      (anchors_from resolution 0 DEFAULT_BEAT_RATE 0 (time_sigs sync_track))
      (final_rate DEFAULT_BEAT_RATE (time_sigs sync_track)).
Proof.
  unfold TimeConverter_ctor.
  destruct (converter_fold_anchors resolution (time_sigs sync_track)
              (mkConverterLoop 0%Z DEFAULT_BEAT_RATE 0 [])) as [H1 H2].
  rewrite H1, H2. reflexivity.
Qed.

Lemma beats_to_measures_spec (sync_track : SyncTrack) (resolution : Q) (b : Q) :
  0 < resolution -> sync_track_ok sync_track -> time_sigs sync_track <> [] ->
  beats_to_measures (TimeConverter_ctor sync_track resolution) b
  == spec_measure resolution 0 DEFAULT_BEAT_RATE 0 (time_sigs sync_track) b.
Proof.
  intros Hres [Hok Hsorted] Hne.
  rewrite TimeConverter_ctor_anchors. unfold beats_to_measures.
  cbn [m_measure_timestamps m_last_beat_rate].
  destruct (time_sigs sync_track) as [| ts tss]; [congruence |].
  inversion Hok as [| ? ? Hts Hok']; subst.
  inversion Hsorted as [| ? ? Hsorted' Hle]; subst.
  assert (Hsub : uint32_sub (ts_position ts) 0 = ts_position ts).
  { unfold uint32_sub. rewrite Z.sub_0_r. apply Z.mod_small. apply Hts. }
  cbn [anchors_from final_rate spec_measure beats_to_measures_from mt_beat
         mt_measure].
  rewrite Hsub, Z.sub_0_r. unfold Qltb.
  destruct (Qlt_le_dec (inject_Z (ts_position ts) / resolution) b) as [Hlt | Hge].
  - apply beats_to_measures_from_spec; try assumption.
    + now apply measure_rate_pos.
    + apply Hts.
    + reflexivity.
    + reflexivity.
  - cbn [mt_beat mt_measure]. qconst.
    change (inject_Z 0) with 0. field. lra.
Qed.

(** X16.  For a positive resolution and a non-empty list of well-formed time
    signatures, the measure that the constructed [TimeConverter] gives a
    beat is the one got by going through the time signatures in order and
    counting, between one signature and the next, a measure for every
    [numerator * 4 / denominator] beats (four beats before the first
    signature); in particular beat 0 is measure 0. *)
Theorem beats_to_measures_integrates (sync_track : SyncTrack) (resolution : Q)
  (b : Q)
  (Hres : 0 < resolution) (Hsync : sync_track_ok sync_track)
  (Hne : time_sigs sync_track <> []) :
  beats_to_measures (TimeConverter_ctor sync_track resolution) b
  == spec_measure resolution 0 DEFAULT_BEAT_RATE 0 (time_sigs sync_track) b
  /\ beats_to_measures (TimeConverter_ctor sync_track resolution) 0 == 0.
Proof.
  split; [now apply beats_to_measures_spec |].
  rewrite beats_to_measures_spec by assumption.
  destruct Hsync as [Hok _].
  destruct (time_sigs sync_track) as [| ts tss]; [congruence |].
  inversion Hok as [| ? ? ((Hp & _) & _) _]; subst.
  cbn [spec_measure].
  destruct (Qlt_le_dec (inject_Z (ts_position ts) / resolution) 0) as [Hlt | _].
  - exfalso.
    pose proof (tick_beat_le resolution 0 (ts_position ts) Hres Hp) as H.
    revert H. change (inject_Z 0) with 0. unfold Qdiv at 1.
    rewrite Qmult_0_l. lra.
  - qconst. change (inject_Z 0) with 0. field. lra.
Qed.

Lemma beats_to_measures_integrates_witness :
  let sync_track :=
    mkSyncTrack [mkTimeSignature 0 4 4; mkTimeSignature 768 3 4] [] in
  beats_to_measures (TimeConverter_ctor sync_track 192) 7
  == spec_measure 192 0 DEFAULT_BEAT_RATE 0 (time_sigs sync_track) 7
  /\ beats_to_measures (TimeConverter_ctor sync_track 192) 0 == 0.
Proof.
  intros sync_track. apply (beats_to_measures_integrates sync_track 192 7).
  - reflexivity.
  - split; repeat constructor; simpl; lia.
  - discriminate.
Defined.
(** ** The beat rates are the drain of the converter's measures *)

Lemma spec_measure_at_start (resolution : Q) (tss : list TimeSignature) :
  0 < resolution ->
  forall tick rate meas b,
    Forall (fun ts => (tick <= ts_position ts)%Z) tss ->
    b == inject_Z tick / resolution ->
    spec_measure resolution tick rate meas tss b == meas.
Proof.
  intros Hres. destruct tss as [| ts tss]; intros tick rate meas b Hfrom Hb;
    cbn [spec_measure].
  - rewrite Hb. unfold Qdiv. ring.
  - inversion Hfrom as [| ? ? Hfirst _]; subst.
    pose proof (tick_beat_le resolution tick (ts_position ts) Hres Hfirst).
    destruct (Qlt_le_dec (inject_Z (ts_position ts) / resolution) b);
      [exfalso; lra |].
    rewrite Hb. unfold Qdiv. ring.
Qed.

(** From the next time signature on, its state can be used. *)
Lemma spec_measure_step (resolution : Q) (ts : TimeSignature)
  (tss : list TimeSignature) (tick : Z) (rate meas b : Q) :
  0 < resolution -> 0 < rate -> (tick <= ts_position ts)%Z ->
  Forall (fun x => (ts_position ts <= ts_position x)%Z) tss ->
  inject_Z (ts_position ts) / resolution <= b ->
  spec_measure resolution tick rate meas (ts :: tss) b
  == spec_measure resolution (ts_position ts) (measure_rate ts)
       (meas + inject_Z (ts_position ts - tick) / (resolution * rate)) tss b.
Proof.
  intros Hres Hrate Hle Hfrom Hb. cbn [spec_measure].
  destruct (Qlt_le_dec (inject_Z (ts_position ts) / resolution) b) as [Hlt | Hge];
    [reflexivity |].
  assert (E : b == inject_Z (ts_position ts) / resolution) by lra.
  rewrite (spec_measure_at_start resolution tss Hres (ts_position ts)
             (measure_rate ts) _ b Hfrom E).
  rewrite E. unfold Zminus. rewrite inject_Z_plus, inject_Z_opp.
  field. split; lra.
Qed.

Lemma drain_of_rate (x y rate : Q) :
  0 < rate ->
  ((y - x) / rate) / MEASURES_PER_BAR
  == (y - x) * (SP_GAIN_RATE - (SP_GAIN_RATE - 1 / (MEASURES_PER_BAR * rate))).
Proof. intros H. qconst. field. lra. Qed.

Lemma rates_match_from_spec (resolution : Z) (tss : list TimeSignature) :
  (0 < resolution)%Z ->
  forall tick rate meas F,
    0 < rate ->
    Forall time_sig_ok tss ->
    StronglySorted (fun x y => (ts_position x <= ts_position y)%Z) tss ->
    Forall (fun ts => (tick <= ts_position ts)%Z) tss ->
    (forall b, inject_Z tick / inject_Z resolution <= b ->
               F b == spec_measure (inject_Z resolution) tick rate meas tss b) ->
    rates_match_from F (map (spec_beat_rate resolution) tss)
    /\ drain_matches F (SP_GAIN_RATE - 1 / (MEASURES_PER_BAR * rate))
         (inject_Z tick / inject_Z resolution)
         match tss with
         | [] => None
         | ts :: _ => Some (inject_Z (ts_position ts) / inject_Z resolution)
         end.
Proof.
  intros Hres.
  assert (HresQ : 0 < inject_Z resolution).
  { change 0 with (inject_Z 0). now rewrite <- Zlt_Qlt. }
  induction tss as [| ts tss IH]; intros tick rate meas F Hrate Hok Hsorted Hfrom HF.
  - split; [exact I |]. intros x y Hx Hxy _.
    rewrite (HF x Hx), (HF y) by lra. cbn [spec_measure].
    rewrite <- drain_of_rate by exact Hrate. unfold Qdiv. ring.
  - inversion Hok as [| ? ? Hts Hok']; subst.
    inversion Hsorted as [| ? ? Hsorted' Hle]; subst.
    inversion Hfrom as [| ? ? Hfirst _]; subst.
    pose proof (tick_beat_le (inject_Z resolution) tick (ts_position ts) HresQ
                  Hfirst) as Hbeat.
    destruct (IH (ts_position ts) (measure_rate ts)
                (meas + inject_Z (ts_position ts - tick)
                        / (inject_Z resolution * rate)) F)
      as [Hrest Hhere]; try assumption.
    { now apply measure_rate_pos. }
    { intros b Hb. rewrite (HF b) by lra.
      now apply spec_measure_step. }
    split.
    + cbn [map rates_match_from]. split; [| exact Hrest].
      unfold spec_beat_rate at 1 2. cbn [net_sp_gain_rate br_position].
      destruct tss as [| ts' tss']; exact Hhere.
    + intros x y Hx Hxy Hy.
      rewrite (HF x Hx), (HF y) by lra. cbn [spec_measure].
      destruct (Qlt_le_dec (inject_Z (ts_position ts) / inject_Z resolution) x);
        [exfalso; lra |].
      destruct (Qlt_le_dec (inject_Z (ts_position ts) / inject_Z resolution) y);
        [exfalso; lra |].
      rewrite <- drain_of_rate by exact Hrate. unfold Qdiv. ring.
Qed.
Lemma SpData_ctor_rates_match (resolution : Z) (sync_track : SyncTrack) :
  (0 < resolution)%Z -> sync_track_ok sync_track ->
  time_sigs sync_track <> [] ->
  rates_match (TimeConverter_ctor sync_track (inject_Z resolution))
    (form_beat_rates resolution sync_track).
Proof.
  intros Hres Hsync Hne.
  assert (HresQ : 0 < inject_Z resolution).
  { change 0 with (inject_Z 0). now rewrite <- Zlt_Qlt. }
  rewrite form_beat_rates_map.
  pose proof (fun b => beats_to_measures_spec sync_track (inject_Z resolution) b
                         HresQ Hsync Hne) as HF.
  destruct Hsync as [Hok Hsorted].
  assert (Hfrom : Forall (fun ts => (0 <= ts_position ts)%Z)
                    (time_sigs sync_track)).
  { rewrite Forall_forall in Hok |- *. intros ts Hts.
    destruct (Hok ts Hts) as (Hp & _). lia. }
  destruct (rates_match_from_spec resolution (time_sigs sync_track) Hres 0
              DEFAULT_BEAT_RATE 0
              (beats_to_measures
                 (TimeConverter_ctor sync_track (inject_Z resolution))))
    as [Hmatch _]; try assumption.
  { reflexivity. }
  { intros b _. apply HF. }
  split; [| exact Hmatch].
  destruct (time_sigs sync_track) as [| ts tss]; [congruence |].
  cbn [map]. unfold spec_beat_rate at 1. cbn [br_position].
  intros x y Hxy Hy. rewrite (HF x), (HF y). cbn [spec_measure].
  destruct (Qlt_le_dec (inject_Z (ts_position ts) / inject_Z resolution) x);
    [exfalso; lra |].
  destruct (Qlt_le_dec (inject_Z (ts_position ts) / inject_Z resolution) y);
    [exfalso; lra |].
  qconst. change (/ 30) with (1 # 30). change (inject_Z 0) with 0. field. lra.
Qed.

Lemma SpData_ctor_consistent
  (beats_to_seconds seconds_to_beats : TimeConverter -> Q -> Q)
  (note_spans : list (Z * Z)) (phrases : list StarPower) (resolution : Z)
  (sync_track : SyncTrack) (early_whammy lazy_whammy : Q) :
  (0 < resolution)%Z -> sync_track_ok sync_track ->
  time_sigs sync_track <> [] ->
  SpData_consistent
    (SpData_ctor beats_to_seconds seconds_to_beats note_spans phrases
       resolution sync_track early_whammy lazy_whammy).
Proof.
  intros Hres Hsync Hne. split.
  - now apply SpData_ctor_ok.
  - unfold SpData_ctor; cbn [m_converter m_beat_rates].
    now apply SpData_ctor_rates_match.
Qed.

Lemma example_sp_data_consistent : SpData_consistent example_sp_data.
Proof.
  apply SpData_ctor_consistent; [reflexivity | | discriminate].
  split; repeat constructor; simpl; lia.
Qed.

Lemma example_drain_sp_data_consistent :
  SpData_consistent example_drain_sp_data.
Proof.
  apply SpData_ctor_consistent; [reflexivity | | discriminate].
  split; repeat constructor; simpl; lia.
Qed.
(** ** Whammy never costs Star Power *)

Lemma rates_match_from_skipn (F : Q -> Q) (rates : list BeatRate) :
  forall n, rates_match_from F rates -> rates_match_from F (skipn n rates).
Proof.
  induction rates as [| p rates IH]; intros [| n] H; simpl; auto.
  apply IH. apply H.
Qed.

(** The walk over the beat rates ends with at least what the drain of the
    measures alone would leave. *)
Lemma whammy_range_loop_ge (F : Q -> Q) (rates : list BeatRate) :
  (forall x y, x <= y -> F x <= F y) ->
  forall s e sp,
    rates_match_from F rates -> rates_sorted rates -> rates <> [] ->
    match rates with p :: _ => br_position p <= s | [] => True end ->
    next_not_before s rates ->
    s <= e -> sp <= 1 ->
    0 <= sp - (F e - F s) / MEASURES_PER_BAR ->
    sp - (F e - F s) / MEASURES_PER_BAR <= whammy_range_loop rates s e sp.
Proof.
  intros Hmono.
  induction rates as [| p rest IH];
    intros s e sp Hmatch Hsorted Hne Hhead Hnext Hse Hsp1 Hleft; [congruence |].
  rewrite whammy_range_loop_eq.
  pose proof (Hmono s e Hse) as Hse'.
  destruct (Qlt_le_dec s e) as [Hlt | Hge]; [| revert Hse'; qconst; lra].
  destruct Hmatch as [Hp Hrest].
  cbv zeta.
  set (x := match rest with
            | [] => e
            | next :: _ => std_min e (br_position next)
            end).
  assert (Hx : s <= x /\ x <= e
               /\ match rest with
                  | [] => True
                  | next :: _ => x <= br_position next
                  end).
  { unfold x. destruct rest as [| next rest']; [repeat split; lra |].
    simpl in Hnext. unfold std_min. qcases; repeat split; lra. }
  destruct Hx as (Hsx & Hxe & Hxhi).
  assert (Hdrain : (F x - F s) / MEASURES_PER_BAR
                   == (x - s) * (SP_GAIN_RATE - net_sp_gain_rate p)).
  { apply Hp; [exact Hhead | exact Hsx |].
    destruct rest as [| next rest']; [exact I | exact Hxhi]. }
  pose proof (Hmono s x Hsx) as Hsx'. pose proof (Hmono x e Hxe) as Hxe'.
  assert (Hgain : sp - (F x - F s) / MEASURES_PER_BAR
                  <= sp + (x - s) * net_sp_gain_rate p).
  { rewrite Hdrain. qconst. change (/ 30) with (1 # 30). lra. }
  assert (Hsplit : (F e - F s) / MEASURES_PER_BAR
                   == (F x - F s) / MEASURES_PER_BAR
                      + (F e - F x) / MEASURES_PER_BAR).
  { qconst. lra. }
  assert (Hpos1 : 0 <= (F x - F s) / MEASURES_PER_BAR) by (qconst; lra).
  assert (Hpos2 : 0 <= (F e - F x) / MEASURES_PER_BAR) by (qconst; lra).
  remember ((F x - F s) / MEASURES_PER_BAR) as d1 eqn:Hd1.
  remember ((F e - F x) / MEASURES_PER_BAR) as d2 eqn:Hd2.
  remember ((F e - F s) / MEASURES_PER_BAR) as d eqn:Hd.
  remember (sp + (x - s) * net_sp_gain_rate p) as sp1 eqn:Hsp1'.
  destruct (Qlt_le_dec sp1 0) as [Hneg | Hpos]; [exfalso; lra |].
  assert (Hcap : sp - d1 <= std_min sp1 1 /\ std_min sp1 1 <= 1).
  { unfold std_min. qcases; split; lra. }
  destruct Hcap as [Hcap Hcap1].
  destruct (Qlt_le_dec x e) as [Hxlt | Hxge].
  - (* the walk goes on from the next entry *)
    destruct rest as [| next rest']; [unfold x in Hxlt; lra |].
    assert (Ex : x = br_position next).
    { unfold x, std_min in *.
      destruct (Qlt_le_dec (br_position next) e); [reflexivity | lra]. }
    assert (Hsorted' : rates_sorted (next :: rest')) by (now inversion Hsorted).
    assert (Hne' : next :: rest' <> []) by discriminate.
    assert (Hhead' : br_position next <= x) by (rewrite Ex; apply Qle_refl).
    assert (Hnext' : next_not_before x (next :: rest')).
    { rewrite Ex. now apply rates_sorted_next. }
    pose proof (IH x e (std_min sp1 1) Hrest Hsorted' Hne' Hhead' Hnext' Hxe
                  Hcap1) as Hgo.
    rewrite <- Hd2 in Hgo.
    assert (H0 : 0 <= std_min sp1 1 - d2) by lra.
    specialize (Hgo H0). lra.
  - rewrite whammy_range_loop_done by exact Hxge.
    assert (E : x == e) by lra.
    assert (Hd2z : d2 == 0).
    { pose proof (Hmono e x Hxge). rewrite Hd2. revert H Hxe'. qconst. lra. }
    lra.
Qed.
Section Never_costs.

Variable sd : SpData.
Hypothesis sd_consistent : SpData_consistent sd.

Lemma consistent_mono (x y : Q) :
  x <= y ->
  beats_to_measures (m_converter sd) x <= beats_to_measures (m_converter sd) y.
Proof.
  intros H. destruct sd_consistent as [(Htc & _) _].
  now apply beats_to_measures_mono.
Qed.

Lemma propagate_over_whammy_range_ge (s e sp : Q) :
  s <= e -> sp <= 1 ->
  0 <= sp - (beats_to_measures (m_converter sd) e
             - beats_to_measures (m_converter sd) s) / MEASURES_PER_BAR ->
  sp - (beats_to_measures (m_converter sd) e
        - beats_to_measures (m_converter sd) s) / MEASURES_PER_BAR
  <= propagate_over_whammy_range sd s e sp.
Proof.
  intros Hse Hsp1 Hleft.
  destruct sd_consistent as [(Htc & Hne & Hsorted & _) [Hfirst Hmatch]].
  set (F := beats_to_measures (m_converter sd)) in *.
  unfold propagate_over_whammy_range.
  destruct (lower_bound (fun ts y => Qltb (br_position ts) y)
              (m_beat_rates sd) s) as [| i] eqn:Ei.
  - destruct (m_beat_rates sd) as [| r0 rest] eqn:Er; [congruence |].
    apply lower_bound_O in Ei. apply Qltb_false in Ei.
    cbv zeta.
    set (x := std_min e (br_position r0)).
    assert (Hx : s <= x /\ x <= e /\ x <= br_position r0).
    { unfold x, std_min. qcases; repeat split; lra. }
    destruct Hx as (Hsx & Hxe & Hxr).
    pose proof (Hfirst s x Hsx Hxr) as Hdrain. fold F in Hdrain.
    pose proof (consistent_mono s x Hsx) as Hm1.
    pose proof (consistent_mono x e Hxe) as Hm2. fold F in Hm1, Hm2.
    remember ((F x - F s) / MEASURES_PER_BAR) as d1 eqn:Hd1.
    remember ((F e - F x) / MEASURES_PER_BAR) as d2 eqn:Hd2.
    remember ((F e - F s) / MEASURES_PER_BAR) as d eqn:Hd.
    assert (Hsplit : d == d1 + d2 /\ 0 <= d1 /\ 0 <= d2).
    { rewrite Hd, Hd1, Hd2. revert Hm1 Hm2. qconst. intros. repeat split; lra. }
    destruct Hsplit as (Hsplit & Hd1p & Hd2p).
    remember (sp + (x - s) * DEFAULT_NET_SP_GAIN_RATE) as sp1 eqn:Hsp1'.
    assert (Hgain : sp - d1 <= sp1).
    { rewrite Hsp1'. revert Hdrain. qconst. change (/ 30) with (1 # 30).
      intros. lra. }
    assert (Hcap : sp - d1 <= std_min sp1 1 /\ std_min sp1 1 <= 1).
    { unfold std_min. qcases; split; lra. }
    destruct Hcap as [Hcap Hcap1].
    destruct (Qlt_le_dec x e) as [Hxlt | Hxge].
    + assert (Ex : x = br_position r0).
      { unfold x, std_min in *.
        destruct (Qlt_le_dec (br_position r0) e); [reflexivity | lra]. }
      assert (Hhead : br_position r0 <= x) by (rewrite Ex; apply Qle_refl).
      assert (Hnext : next_not_before x (r0 :: rest)).
      { rewrite Ex. now apply rates_sorted_next. }
      pose proof (whammy_range_loop_ge F (r0 :: rest) consistent_mono x e
                    (std_min sp1 1) Hmatch Hsorted Hne Hhead Hnext Hxe Hcap1)
        as Hgo.
      rewrite <- Hd2 in Hgo.
      assert (H0 : 0 <= std_min sp1 1 - d2) by lra.
      specialize (Hgo H0). lra.
    + rewrite whammy_range_loop_done by exact Hxge.
      assert (Hd2z : d2 == 0).
      { pose proof (consistent_mono e x Hxge) as H. fold F in H.
        rewrite Hd2. revert H Hm2. qconst. lra. }
      lra.
  - destruct (lower_bound_S _ _ _ _ Ei) as (p & rest & Hskip & Hp & Hrest).
    apply Qltb_true in Hp. rewrite Hskip.
    apply (whammy_range_loop_ge F (p :: rest) consistent_mono); try assumption.
    + rewrite <- Hskip. now apply rates_match_from_skipn.
    + rewrite <- Hskip. now apply StronglySorted_skipn.
    + discriminate.
    + simpl. lra.
    + destruct rest as [| next rest']; simpl; [exact I |].
      now apply Qltb_false in Hrest.
Qed.

Lemma consistent_measure (x : Position) :
  on_track (m_converter sd) x ->
  beats_to_measures (m_converter sd) (beat x) == measure x.
Proof. intros [H _]. symmetry. exact H. Qed.

(** The loop of [propagate_sp_over_whammy_max] ends with at least what the
    drain alone would leave. *)
Lemma max_loop_ge (c : Position) :
  on_track (m_converter sd) c ->
  forall ranges start sp,
    ranges_ok (m_converter sd) ranges -> ahead start ranges ->
    on_track (m_converter sd) start ->
    beat start <= beat c -> sp <= 1 ->
    0 <= max_tail start c sp ->
    max_tail start c sp <= snd (max_loop sd c ranges start sp).
Proof.
  intros Hc.
  assert (Htc : converter_ok (m_converter sd)) by apply sd_consistent.
  induction ranges as [| p rest IH];
    intros start sp Hranges Hahead Hstart Hsc Hsp1 Hleft.
  - simpl. apply Qle_refl.
  - destruct (ranges_ok_head _ _ _ Hranges) as (Hp & Hps & Hpe & Hnext).
    destruct (ranges_ok_tail _ _ _ Hranges) as (Hrest & Hahead').
    unfold range_nonempty in Hp. simpl in Hahead.
    rewrite max_loop_cons.
    destruct (Qlt_le_dec (beat (wr_start p)) (beat c)) as [Hpc | Hcp];
      [| simpl; apply Qle_refl].
    pose proof (measure_le _ Htc _ _ Hps Hc (Qlt_le_weak _ _ Hpc)) as Hmpc.
    pose proof (measure_le _ Htc _ _ Hps Hpe (Qlt_le_weak _ _ Hp)) as Hmpp.
    assert (Hrange : forall st v,
               on_track (m_converter sd) st ->
               beat (wr_start p) <= beat st -> beat st < beat (wr_end p) ->
               beat st <= beat c -> v <= 1 ->
               0 <= max_tail st c v ->
               max_tail st c v
               <= snd match max_in_range sd c p st v with
                      | Return r => r
                      | Continue s0 v0 => max_loop sd c rest s0 v0
                      end).
    { intros st v Hst Hpst Hste Hstc Hv1 Hv.
      destruct (Qlt_le_dec (beat (wr_end p)) (beat c)) as [Hpec | Hcpe].
      - rewrite (max_in_range_inner sd c p st v Hpec). cbv zeta.
        pose proof (propagate_over_whammy_range_ge (beat st) (beat (wr_end p)) v
                      (Qlt_le_weak _ _ Hste) Hv1) as Hge.
        rewrite (consistent_measure st Hst), (consistent_measure _ Hpe) in Hge.
        pose proof (propagate_over_whammy_range_le_1 sd (beat st)
                      (beat (wr_end p)) v Hv1) as Hw1.
        pose proof (measure_le _ Htc _ _ Hpe Hc (Qlt_le_weak _ _ Hpec)) as Hmec.
        pose proof (measure_le _ Htc _ _ Hst Hpe (Qlt_le_weak _ _ Hste)) as Hmse.
        unfold max_tail in Hv |- *.
        remember (propagate_over_whammy_range sd (beat st) (beat (wr_end p)) v)
          as w eqn:Hw.
        assert (Hge' : v - (measure (wr_end p) - measure st) / MEASURES_PER_BAR
                       <= w).
        { apply Hge. revert Hv Hmec. qconst. lra. }
        destruct (Qlt_le_dec w 0) as [Hneg | Hpos].
        + exfalso. revert Hge' Hv Hmec. qconst. lra.
        + assert (Hgo : max_tail (wr_end p) c w
                        <= snd (max_loop sd c rest (wr_end p) w)).
          { apply IH; try assumption; [lra |].
            unfold max_tail. revert Hge' Hv. qconst. lra. }
          unfold max_tail in Hgo. revert Hgo Hge'. qconst. lra.
      - rewrite (max_in_range_outer sd c p st v Hcpe). cbv zeta.
        pose proof (propagate_over_whammy_range_ge (beat st) (beat c) v
                      Hstc Hv1) as Hge.
        rewrite (consistent_measure st Hst), (consistent_measure _ Hc) in Hge.
        unfold max_tail in Hv |- *. specialize (Hge Hv).
        destruct (Qlt_le_dec (propagate_over_whammy_range sd (beat st) (beat c) v)
                    0); cbn [snd]; exact Hge. }
    unfold max_body.
    destruct (Qlt_le_dec (beat start) (beat (wr_start p))) as [Hgap | Hin].
    + cbv zeta.
      pose proof (measure_le _ Htc _ _ Hstart Hps (Qlt_le_weak _ _ Hgap)) as Hmsp.
      unfold max_tail in Hleft.
      destruct (Qlt_le_dec
                  (sp - (measure (wr_start p) - measure start)
                        / MEASURES_PER_BAR) 0) as [Hneg | Hpos].
      * exfalso. revert Hneg Hleft Hmpc. qconst. lra.
      * assert (Hgo : max_tail (wr_start p) c
                        (sp - (measure (wr_start p) - measure start)
                              / MEASURES_PER_BAR)
                      <= snd match max_in_range sd c p (wr_start p)
                                     (sp - (measure (wr_start p) - measure start)
                                           / MEASURES_PER_BAR) with
                             | Return r => r
                             | Continue s0 v0 => max_loop sd c rest s0 v0
                             end).
        { apply Hrange; try assumption; try lra.
          - revert Hmsp. qconst. lra.
          - unfold max_tail. revert Hleft. qconst. lra. }
        unfold max_tail in Hgo |- *. revert Hgo. qconst. lra.
    + apply Hrange; assumption.
Qed.

End Never_costs.
Lemma std_max_ge_0 (x : Q) : 0 <= std_max x 0.
Proof. unfold std_max. qcases; lra. Qed.

Lemma std_max_ge_l (x : Q) : x <= std_max x 0.
Proof. unfold std_max. qcases; lra. Qed.

(** X17.  For an [SpData] whose beat rates and converter come from the same
    time signatures (as the constructor makes them), whammy never costs
    Star Power: when the drain of the measures from [start] to [end] alone
    leaves the bar some amount, [propagate_sp_over_whammy_max] does not run
    out and returns at least that amount. *)
Theorem whammy_never_costs (sd : SpData) (start end_ : Position) (sp : Q)
  (Hsd : SpData_consistent sd)
  (Hstart : on_track (m_converter sd) start)
  (Hend : on_track (m_converter sd) end_)
  (Hle : beat start <= beat end_) (Hsp1 : sp <= 1)
  (Hleft : 0 <= sp - (measure end_ - measure start) / MEASURES_PER_BAR) :
  sp - (measure end_ - measure start) / MEASURES_PER_BAR
  <= propagate_sp_over_whammy_max sd start end_ sp.
Proof.
  unfold propagate_sp_over_whammy_max.
  assert (Hranges : ranges_ok (m_converter sd) (m_whammy_ranges sd))
    by apply Hsd.
  destruct (ranges_from_ok sd start Hranges) as [Hfrom Hahead].
  exact (max_loop_ge sd Hsd end_ Hend (ranges_from sd start) start sp Hfrom
           Hahead Hstart Hle Hsp1 Hleft).
Qed.

Lemma whammy_never_costs_witness :
  (1 # 2) - (measure (example_position 10) - measure (example_position 0))
            / MEASURES_PER_BAR
  <= propagate_sp_over_whammy_max example_sp_data (example_position 0)
       (example_position 10) (1 # 2).
Proof.
  apply (whammy_never_costs example_sp_data).
  - exact example_sp_data_consistent.
  - split; vm_compute; reflexivity.
  - split; vm_compute; reflexivity.
  - vm_compute; discriminate.
  - vm_compute; discriminate.
  - vm_compute; discriminate.
Defined.

(** X18.  For an [SpData] as the constructor makes it, positions of its
    converter with [start] not after [end] and an amount in [[0, 1]]:
    wherever the required whammy ends, the minimum that
    [propagate_sp_over_whammy_min] returns is at most the maximum that
    [propagate_sp_over_whammy_max] returns, a negative maximum (the bar ran
    out) counting as nothing left. *)
Theorem propagate_sp_over_whammy_min_le_max (sd : SpData)
  (start end_ required_whammy_end : Position) (sp : Q)
  (Hsd : SpData_consistent sd)
  (Hstart : on_track (m_converter sd) start)
  (Hend : on_track (m_converter sd) end_)
  (Hreq : on_track (m_converter sd) required_whammy_end)
  (Hle : beat start <= beat end_) (Hsp0 : 0 <= sp) (Hsp1 : sp <= 1) :
  propagate_sp_over_whammy_min sd start end_ sp required_whammy_end
  <= std_max (propagate_sp_over_whammy_max sd start end_ sp) 0.
Proof.
  assert (Hok : SpData_ok sd) by apply Hsd.
  assert (Htc : converter_ok (m_converter sd)) by apply Hok.
  pose proof (std_max_ge_0 (propagate_sp_over_whammy_max sd start end_ sp))
    as H0.
  pose proof (std_max_ge_l (propagate_sp_over_whammy_max sd start end_ sp))
    as Hl.
  unfold propagate_sp_over_whammy_min.
  destruct (Qlt_le_dec (beat start) (beat required_whammy_end)) as [Hsr | Hrs].
  - destruct (Qlt_le_dec (beat required_whammy_end) (beat end_)) as [Hre | Her].
    + (* whammy up to the required end, none after it *)
      remember (propagate_sp_over_whammy_max sd start required_whammy_end sp)
        as s1 eqn:Hs1.
      pose proof (measure_le _ Htc _ _ Hreq Hend (Qlt_le_weak _ _ Hre)) as Hm.
      remember (s1 - (measure end_ - measure required_whammy_end)
                     / MEASURES_PER_BAR) as s2 eqn:Hs2.
      destruct (Qlt_le_dec s2 0) as [Hneg | Hpos].
      * unfold std_max at 1. destruct (Qlt_le_dec s2 0); lra.
      * assert (Hs1p : 0 <= s1).
        { revert Hpos. rewrite Hs2. revert Hm. qconst. lra. }
        assert (Hs1le : s1 <= 1).
        { rewrite Hs1. unfold propagate_sp_over_whammy_max.
          apply max_loop_le_1; try assumption; [| lra].
          unfold ranges_from. apply Forall_skipn. apply Hok. }
        pose proof (propagate_sp_over_whammy_max_compose sd start
                      required_whammy_end end_ sp Hok Hstart Hreq Hend
                      (Qlt_le_weak _ _ Hsr) (Qlt_le_weak _ _ Hre) Hsp0 Hsp1)
          as Hcomp.
        rewrite <- Hs1 in Hcomp. specialize (Hcomp Hs1p).
        pose proof (max_loop_ge sd Hsd end_ Hend
                      (ranges_from sd required_whammy_end) required_whammy_end
                      s1) as Hge.
        destruct (ranges_from_ok sd required_whammy_end (proj2 (proj2 (proj2 Hok))))
          as [Hfrom Hahead].
        specialize (Hge Hfrom Hahead Hreq (Qlt_le_weak _ _ Hre) Hs1le).
        unfold max_tail in Hge. rewrite <- Hs2 in Hge. specialize (Hge Hpos).
        fold (propagate_sp_over_whammy_max sd required_whammy_end end_ s1)
          in Hge.
        unfold std_max at 1. destruct (Qlt_le_dec s2 0); lra.
    + (* the required whammy covers everything *)
      apply Qle_refl.
  - destruct (Qlt_le_dec (beat start) (beat end_)) as [Hse | Hes].
    + (* no whammy is required *)
      remember (sp - (measure end_ - measure start) / MEASURES_PER_BAR)
        as s2 eqn:Hs2.
      destruct (Qlt_le_dec s2 0) as [Hneg | Hpos].
      * unfold std_max at 1. destruct (Qlt_le_dec s2 0); lra.
      * pose proof (max_loop_ge sd Hsd end_ Hend (ranges_from sd start) start sp)
          as Hge.
        destruct (ranges_from_ok sd start (proj2 (proj2 (proj2 Hok))))
          as [Hfrom Hahead].
        specialize (Hge Hfrom Hahead Hstart Hle Hsp1).
        unfold max_tail in Hge. rewrite <- Hs2 in Hge. specialize (Hge Hpos).
        fold (propagate_sp_over_whammy_max sd start end_ sp) in Hge.
        unfold std_max at 1. destruct (Qlt_le_dec s2 0); lra.
    + assert (Eb : beat start == beat end_) by lra.
      pose proof (measure_eq _ Htc _ _ Hstart Hend Eb) as Em.
      pose proof (propagate_sp_over_whammy_max_nowhere sd start end_ sp Eb Em
                    Hsp0 Hsp1) as Hsame.
      unfold std_max at 1. destruct (Qlt_le_dec sp 0); lra.
Qed.

Lemma propagate_sp_over_whammy_min_le_max_witness :
  propagate_sp_over_whammy_min example_sp_data (example_position 0)
    (example_position 10) (1 # 2) (example_position 6)
  <= std_max
       (propagate_sp_over_whammy_max example_sp_data (example_position 0)
          (example_position 10) (1 # 2)) 0.
Proof.
  apply (propagate_sp_over_whammy_min_le_max example_sp_data).
  - exact example_sp_data_consistent.
  - split; vm_compute; reflexivity.
  - split; vm_compute; reflexivity.
  - split; vm_compute; reflexivity.
  - vm_compute; discriminate.
  - vm_compute; discriminate.
  - vm_compute; discriminate.
Defined.

(** ** The helpers of the chart parser *)

Lemma sv_eqb_true (a b : string_view) : sv_eqb a b = true <-> a = b.
Proof.
  unfold sv_eqb. destruct (list_eq_dec ascii_dec a b); split; intros; congruence.
Qed.

Lemma sv_eqb_false (a b : string_view) : sv_eqb a b = false <-> a <> b.
Proof.
  unfold sv_eqb. destruct (list_eq_dec ascii_dec a b); split; intros; congruence.
Qed.

(** What [find_if] finds: the characters before the place fail the test and
    the one at the place passes it. *)
Lemma find_if_some (f : ascii -> bool) (s : string_view) :
  forall i,
    find_if f s = Some i ->
    exists c rest,
      s = firstn i s ++ c :: rest
      /\ length (firstn i s) = i
      /\ forallb (fun x => negb (f x)) (firstn i s) = true
      /\ f c = true
      /\ skipn i s = c :: rest.
Proof.
  induction s as [| x s IH]; intros i H; simpl in H; [discriminate |].
  destruct (f x) eqn:Hx.
  - injection H as <-. exists x, s. simpl. repeat split; auto.
  - destruct (find_if f s) as [j |] eqn:Hj; [| discriminate].
    injection H as <-.
    destruct (IH j eq_refl) as (c & rest & Hs & Hlen & Hall & Hc & Hskip).
    exists c, rest. simpl. rewrite Hx, Hall, Hlen. simpl.
    repeat split; auto. now rewrite <- Hs.
Qed.

Lemma find_if_none (f : ascii -> bool) (s : string_view) :
  find_if f s = None <-> forallb (fun x => negb (f x)) s = true.
Proof.
  induction s as [| x s IH]; simpl; [tauto |].
  destruct (f x); simpl.
  - split; discriminate.
  - rewrite <- IH. destruct (find_if f s); simpl; split; congruence.
Qed.

Lemma find_if_lt (f : ascii -> bool) (s : string_view) (i : nat) :
  find_if f s = Some i -> (i < length s)%nat.
Proof.
  intros H. destruct (find_if_some f s i H) as (c & rest & Hs & Hlen & _).
  apply (f_equal (@length ascii)) in Hs.
  rewrite length_app, Hlen in Hs. simpl in Hs. lia.
Qed.

Lemma forallb_negb_negb (f : ascii -> bool) (s : string_view) :
  forallb (fun x => negb (negb (f x))) s = forallb f s.
Proof.
  induction s as [| x s IH]; simpl; [reflexivity |].
  now rewrite negb_involutive, IH.
Qed.

(** *** string_starts_with *)

(** X19.  [string_starts_with(input, pattern)] is true exactly when [input]
    is [pattern] followed by something; every input starts with the empty
    pattern. *)
Theorem string_starts_with_prefix (input pattern : string_view) :
  (string_starts_with input pattern = true
   <-> exists rest, input = pattern ++ rest)
  /\ string_starts_with input [] = true.
Proof.
  split.
  - unfold string_starts_with, substr. simpl.
    destruct (length input <? length pattern)%nat eqn:E.
    + apply Nat.ltb_lt in E. split; [discriminate |].
      intros (rest & ->). rewrite length_app in E. lia.
    + apply Nat.ltb_ge in E. rewrite sv_eqb_true. split.
      * intros H. exists (skipn (length pattern) input).
        rewrite <- H at 1. apply eq_sym, firstn_skipn.
      * intros (rest & ->). rewrite firstn_app, Nat.sub_diag, firstn_all.
        simpl. apply app_nil_r.
  - unfold string_starts_with. simpl. apply sv_eqb_true. reflexivity.
Qed.

(** *** skip_whitespace *)

Lemma skip_whitespace_split (input : string_view) :
  exists skipped,
    input = skipped ++ skip_whitespace input
    /\ all_chars (char_in whitespace) skipped
    /\ no_leading (char_in whitespace) (skip_whitespace input).
Proof.
  unfold skip_whitespace, find_first_not_of, remove_prefix.
  destruct (find_if (fun c => negb (char_in whitespace c)) input) as [i |] eqn:E.
  - pose proof (find_if_lt _ _ _ E) as Hlt.
    destruct (find_if_some _ _ _ E) as (c & rest & Hs & Hlen & Hall & Hc & Hskip).
    rewrite Nat.min_l by lia. exists (firstn i input).
    split; [symmetry; apply firstn_skipn |]. split.
    + unfold all_chars. rewrite <- Hall. symmetry. apply forallb_negb_negb.
    + rewrite Hskip. simpl. now apply negb_true_iff in Hc.
  - apply find_if_none in E. exists input. rewrite skipn_all.
    split; [now rewrite app_nil_r |]. split; [| exact I].
    unfold all_chars. rewrite <- E. symmetry. apply forallb_negb_negb.
Qed.

Lemma skip_whitespace_fixed (input : string_view) :
  no_leading (char_in whitespace) input -> skip_whitespace input = input.
Proof.
  intros H. destruct input as [| c input]; [reflexivity |]. simpl in H.
  unfold skip_whitespace, find_first_not_of, remove_prefix. simpl.
  rewrite H. reflexivity.
Qed.

(** X20.  [skip_whitespace] drops a run of characters of [" \f\n\r\t\v"] from
    the front and nothing else: what is left does not begin with such a
    character; applying it again changes nothing. *)
Theorem skip_whitespace_spec (input : string_view) :
  (exists skipped,
      input = skipped ++ skip_whitespace input
      /\ all_chars (char_in whitespace) skipped)
  /\ no_leading (char_in whitespace) (skip_whitespace input)
  /\ skip_whitespace (skip_whitespace input) = skip_whitespace input.
Proof.
  destruct (skip_whitespace_split input) as (skipped & H1 & H2 & H3).
  split; [exists skipped; split; assumption |].
  split; [exact H3 |].
  now apply skip_whitespace_fixed.
Qed.
(** *** break_off_newline *)

Lemma newline_is_whitespace (c : ascii) :
  char_in [char_return; char_newline] c = true -> char_in whitespace c = true.
Proof.
  unfold char_in, whitespace. simpl. rewrite !orb_false_r, !orb_true_iff.
  intros [H | H]; auto 10.
Qed.

Lemma skip_whitespace_cons (c : ascii) (s : string_view) :
  char_in whitespace c = true ->
  skip_whitespace (c :: s) = skip_whitespace s.
Proof.
  intros H. unfold skip_whitespace, find_first_not_of, remove_prefix.
  cbn [find_if]. rewrite H. cbn [negb].
  destruct (find_if (fun c0 => negb (char_in whitespace c0)) s) as [i |] eqn:E;
    cbn [option_map length].
  - pose proof (find_if_lt _ _ _ E). rewrite !Nat.min_l by lia. reflexivity.
  - reflexivity.
Qed.

Lemma skip_whitespace_length (s : string_view) :
  (length (skip_whitespace s) <= length s)%nat.
Proof.
  destruct (skip_whitespace_split s) as (skipped & H & _).
  rewrite H at 2. rewrite length_app. lia.
Qed.

Lemma break_off_newline_parts (input : string_view) :
  all_chars (fun c => negb (char_in [char_return; char_newline] c))
    (fst (break_off_newline input))
  /\ ((input = fst (break_off_newline input) /\ snd (break_off_newline input) = [])
      \/ exists c more,
           input = fst (break_off_newline input) ++ c :: more
           /\ char_in [char_return; char_newline] c = true
           /\ snd (break_off_newline input) = skip_whitespace more)
  /\ no_leading (char_in whitespace) (snd (break_off_newline input))
  /\ (input <> [] ->
      (length (snd (break_off_newline input)) < length input)%nat).
Proof.
  unfold break_off_newline, find_first_of, substr, remove_prefix.
  destruct (find_if (char_in [char_return; char_newline]) input) as [i |] eqn:E;
    cbn [fst snd].
  - destruct (find_if_some _ _ _ E) as (c & more & Hs & Hlen & Hall & Hc & Hskip).
    rewrite Hskip, (skip_whitespace_cons c more (newline_is_whitespace c Hc)).
    simpl skipn.
    split; [exact Hall |].
    split; [right; exists c, more; auto |].
    split.
    + destruct (skip_whitespace_split more) as (skipped & _ & _ & H). exact H.
    + intros _. pose proof (skip_whitespace_length more) as Hle.
      apply (f_equal (@length ascii)) in Hs.
      rewrite length_app in Hs. simpl in Hs. lia.
  - apply find_if_none in E. rewrite skipn_all. simpl.
    split; [exact E |]. split; [now left |]. split; [exact I |].
    intros H. destruct input; [congruence | simpl; lia].
Qed.

(** X21.  [break_off_newline] returns the input up to its first carriage
    return or newline, which has neither; the input becomes empty when there
    is none, and otherwise what follows that character with the whitespace
    at its front dropped.  The new input does not begin with whitespace, and
    it is shorter than the old one unless that was empty, when the line and
    the new input are empty too. *)
Theorem break_off_newline_spec (input : string_view) :
  let line := fst (break_off_newline input) in
  let rest := snd (break_off_newline input) in
  all_chars (fun c => negb (char_in [char_return; char_newline] c)) line
  /\ ((input = line /\ rest = [])
      \/ exists c more,
           input = line ++ c :: more
           /\ char_in [char_return; char_newline] c = true
           /\ rest = skip_whitespace more)
  /\ no_leading (char_in whitespace) rest
  /\ (input <> [] -> (length rest < length input)%nat)
  /\ (input = [] -> line = [] /\ rest = []).
Proof.
  cbv zeta.
  destruct (break_off_newline_parts input) as (H1 & H2 & H3 & H4).
  split; [exact H1 |]. split; [exact H2 |]. split; [exact H3 |].
  split; [exact H4 |].
  intros ->. split; reflexivity.
Qed.

(** *** split_by_space *)

Lemma split_by_space_loop_acc (fuel : nat) :
  forall input acc,
    split_by_space_loop fuel input acc
    = acc ++ split_by_space_loop fuel input [].
Proof.
  induction fuel as [| fuel IH]; intros input acc; simpl.
  - destruct (find_if (Ascii.eqb char_space) input); reflexivity.
  - destruct (find_if (Ascii.eqb char_space) input) as [i |]; [| reflexivity].
    rewrite IH, (IH _ [_]), app_assoc. reflexivity.
Qed.

Lemma split_by_space_loop_nonempty (fuel : nat) (input : string_view) :
  split_by_space_loop fuel input [] <> [].
Proof.
  destruct fuel as [| fuel]; simpl.
  - destruct (find_if (Ascii.eqb char_space) input); discriminate.
  - destruct (find_if (Ascii.eqb char_space) input) as [i |]; [| discriminate].
    rewrite split_by_space_loop_acc. discriminate.
Qed.

Lemma join_space_cons (piece : string_view) (pieces : list string_view) :
  pieces <> [] ->
  join_space (piece :: pieces) = piece ++ char_space :: join_space pieces.
Proof. destruct pieces; [congruence | reflexivity]. Qed.

Lemma find_space_some (input : string_view) (i : nat) :
  find_if (Ascii.eqb char_space) input = Some i ->
  input = firstn i input ++ char_space :: skipn (i + 1) input
  /\ all_chars (fun c => negb (Ascii.eqb char_space c)) (firstn i input)
  /\ (length (skipn (i + 1) input) < length input)%nat.
Proof.
  intros E.
  destruct (find_if_some _ _ _ E) as (c & more & Hs & Hlen & Hall & Hc & Hskip).
  apply Ascii.eqb_eq in Hc. subst c.
  assert (Hmore : skipn (i + 1) input = more).
  { rewrite Nat.add_comm, <- skipn_skipn, Hskip. reflexivity. }
  rewrite Hmore. split; [exact Hs |]. split; [exact Hall |].
  apply (f_equal (@length ascii)) in Hs.
  rewrite length_app in Hs. simpl in Hs. lia.
Qed.

Lemma split_by_space_loop_join (fuel : nat) :
  forall input,
    (length input <= fuel)%nat ->
    join_space (split_by_space_loop fuel input []) = input
    /\ Forall (all_chars (fun c => negb (Ascii.eqb char_space c)))
         (split_by_space_loop fuel input []).
Proof.
  induction fuel as [| fuel IH]; intros input Hlen; simpl.
  - destruct input; [| simpl in Hlen; lia]. simpl.
    split; [reflexivity | repeat constructor].
  - destruct (find_if (Ascii.eqb char_space) input) as [i |] eqn:E.
    + destruct (find_space_some input i E) as (Hs & Hall & Hlt).
      rewrite split_by_space_loop_acc. unfold substr, remove_prefix. simpl skipn.
      destruct (IH (skipn (i + 1) input)) as [Hjoin Hpieces]; [lia |].
      split.
      * cbn [app].
        rewrite join_space_cons by apply split_by_space_loop_nonempty.
        rewrite Hjoin. symmetry. exact Hs.
      * constructor; assumption.
    + apply find_if_none in E. simpl. split; [reflexivity |].
      constructor; [exact E | constructor].
Qed.

Lemma find_space_app (piece rest : string_view) :
  all_chars (fun c => negb (Ascii.eqb char_space c)) piece ->
  find_if (Ascii.eqb char_space) (piece ++ char_space :: rest)
  = Some (length piece).
Proof.
  unfold all_chars.
  induction piece as [| c piece IH]; cbn [find_if app forallb length]; intros H.
  - rewrite Ascii.eqb_refl. reflexivity.
  - apply andb_true_iff in H. destruct H as [Hc Hrest].
    apply negb_true_iff in Hc. rewrite Hc, (IH Hrest). reflexivity.
Qed.

Lemma split_by_space_loop_of_join (pieces : list string_view) :
  forall fuel,
    pieces <> [] ->
    Forall (all_chars (fun c => negb (Ascii.eqb char_space c))) pieces ->
    (length (join_space pieces) <= fuel)%nat ->
    split_by_space_loop fuel (join_space pieces) [] = pieces.
Proof.
  induction pieces as [| piece pieces IH]; intros fuel Hne Hall Hlen;
    [congruence |].
  inversion Hall as [| ? ? Hpiece Hrest]; subst.
  destruct pieces as [| piece' pieces'].
  - simpl in *.
    assert (E : find_if (Ascii.eqb char_space) piece = None).
    { apply find_if_none. exact Hpiece. }
    destruct fuel; simpl; now rewrite E.
  - rewrite join_space_cons in * by discriminate.
    rewrite length_app in Hlen. cbn [length] in Hlen.
    destruct fuel as [| fuel]; [lia |].
    cbn [split_by_space_loop].
    rewrite (find_space_app piece _ Hpiece).
    rewrite split_by_space_loop_acc. unfold substr, remove_prefix.
    cbn [skipn].
    rewrite firstn_app, Nat.sub_diag, firstn_all. cbn [firstn].
    rewrite app_nil_r.
    replace (skipn (length piece + 1)
               (piece ++ char_space :: join_space (piece' :: pieces')))
      with (join_space (piece' :: pieces')).
    + rewrite IH; [reflexivity | discriminate | exact Hrest | lia].
    + rewrite Nat.add_comm, <- skipn_skipn, skipn_app, Nat.sub_diag, skipn_all.
      reflexivity.
Qed.

(** X22.  [split_by_space] cuts a line at every space and nowhere else: it
    yields at least one piece, no piece has a space, the pieces joined by
    single spaces are the line again, and a list of pieces without spaces
    joined by single spaces is split into those pieces. *)
Theorem split_by_space_round_trip (input : string_view)
  (pieces : list string_view) :
  split_by_space input <> []
  /\ Forall (all_chars (fun c => negb (Ascii.eqb char_space c)))
       (split_by_space input)
  /\ join_space (split_by_space input) = input
  /\ (pieces <> [] ->
      Forall (all_chars (fun c => negb (Ascii.eqb char_space c))) pieces ->
      split_by_space (join_space pieces) = pieces).
Proof.
  unfold split_by_space.
  destruct (split_by_space_loop_join (length input) input (Nat.le_refl _))
    as [Hjoin Hall].
  split; [apply split_by_space_loop_nonempty |].
  split; [exact Hall |]. split; [exact Hjoin |].
  intros Hne Hpieces. now apply split_by_space_loop_of_join.
Qed.
(** *** trim_quotes *)

Lemma find_if_repeat (f : ascii -> bool) (q c : ascii) (rest : string_view)
  (k : nat) :
  f q = false -> f c = true ->
  find_if f (repeat q k ++ c :: rest) = Some k.
Proof.
  intros Hq Hc. induction k as [| k IH]; cbn [repeat app find_if].
  - now rewrite Hc.
  - now rewrite Hq, IH.
Qed.

Lemma find_if_all_repeat (f : ascii -> bool) (q : ascii) (k : nat) :
  f q = false -> find_if f (repeat q k) = None.
Proof.
  intros Hq. induction k as [| k IH]; cbn [repeat find_if]; [reflexivity |].
  now rewrite Hq, IH.
Qed.

Lemma find_last_if_all_repeat (f : ascii -> bool) (q : ascii) (k : nat) :
  f q = false -> find_last_if f (repeat q k) = None.
Proof.
  intros Hq. induction k as [| k IH]; cbn [repeat find_last_if]; [reflexivity |].
  now rewrite IH, Hq.
Qed.

Lemma find_last_if_app (f : ascii -> bool) (s t : string_view) :
  forall i,
    find_last_if f t = Some i ->
    find_last_if f (s ++ t) = Some (length s + i)%nat.
Proof.
  induction s as [| x s IH]; intros i H; cbn [app find_last_if length].
  - exact H.
  - now rewrite (IH i H).
Qed.

Lemma find_last_if_last (f : ascii -> bool) (s : string_view) (c : ascii)
  (q : ascii) (m : nat) :
  f c = true -> f q = false ->
  find_last_if f (s ++ c :: repeat q m) = Some (length s).
Proof.
  intros Hc Hq.
  rewrite (find_last_if_app f s (c :: repeat q m) O).
  - now rewrite Nat.add_0_r.
  - cbn [find_last_if]. now rewrite find_last_if_all_repeat, Hc.
Qed.

Lemma firstn_app_repeat (body : string_view) (q : ascii) (k m : nat) :
  firstn (k + length body) (body ++ repeat q m)
  = body ++ repeat q (Nat.min k m).
Proof.
  rewrite firstn_app, firstn_all2 by lia.
  replace (k + length body - length body)%nat with k by lia.
  f_equal. revert m. induction k as [| k IH]; intros [| m]; simpl; auto.
  now rewrite IH.
Qed.

(** X23.  [trim_quotes] drops the quotation marks at the front of its input,
    and of those at the end only what exceeds their number at the front:
    [k] quotes, a body that neither begins nor ends with a quote, [m] quotes
    give the body followed by [min k m] quotes.  So the result has no quote
    at the front, and none at the end when the input has none at the front
    or more at the end than at the front; an input of quotes alone gives the
    empty view. *)
Theorem trim_quotes_spec (k m : nat) (first last : ascii)
  (middle : string_view) :
  let single := [first] in
  let body := first :: middle ++ [last] in
  (first <> char_quote ->
   trim_quotes (repeat char_quote k ++ single ++ repeat char_quote m)
   = single ++ repeat char_quote (Nat.min k m))
  /\ (first <> char_quote -> last <> char_quote ->
      trim_quotes (repeat char_quote k ++ body ++ repeat char_quote m)
      = body ++ repeat char_quote (Nat.min k m))
  /\ trim_quotes (repeat char_quote k) = [].
Proof.
  assert (Hq : negb (char_in [char_quote] char_quote) = false) by reflexivity.
  assert (Hother : forall c, c <> char_quote ->
                             negb (char_in [char_quote] c) = true).
  { intros c Hc. unfold char_in. cbn [existsb]. rewrite orb_false_r.
    apply negb_true_iff. now apply Ascii.eqb_neq. }
  cbv zeta. split; [| split].
  - intros Hfirst. unfold trim_quotes, find_first_not_of, find_last_not_of.
    cbn [app].
    rewrite (find_if_repeat _ char_quote first _ k Hq (Hother _ Hfirst)).
    rewrite (find_last_if_last _ (repeat char_quote k) first char_quote m
               (Hother _ Hfirst) Hq).
    rewrite repeat_length. unfold substr.
    rewrite skipn_app, repeat_length, Nat.sub_diag, skipn_all2
      by (rewrite repeat_length; lia).
    cbn [skipn app].
    replace (k + 1)%nat with (k + length [first])%nat by reflexivity.
    exact (firstn_app_repeat [first] char_quote k m).
  - intros Hfirst Hlast. unfold trim_quotes, find_first_not_of, find_last_not_of.
    cbn [app].
    rewrite (find_if_repeat _ char_quote first _ k Hq (Hother _ Hfirst)).
    replace (repeat char_quote k ++ first :: (middle ++ [last]) ++ repeat char_quote m)
      with ((repeat char_quote k ++ first :: middle)
            ++ last :: repeat char_quote m).
    2:{ rewrite <- !app_assoc. reflexivity. }
    rewrite (find_last_if_last _ _ last char_quote m (Hother _ Hlast) Hq).
    rewrite <- app_assoc. cbn [app].
    unfold substr.
    rewrite skipn_app, repeat_length, Nat.sub_diag, skipn_all2
      by (rewrite repeat_length; lia).
    cbn [skipn app].
    rewrite length_app, repeat_length. cbn [length].
    replace (k + S (length middle) + 1)%nat
      with (k + length (first :: middle ++ [last]))%nat.
    2:{ cbn [length]. rewrite length_app. simpl. lia. }
    replace (first :: middle ++ last :: repeat char_quote m)
      with ((first :: middle ++ [last]) ++ repeat char_quote m).
    2:{ cbn [app]. rewrite <- app_assoc. reflexivity. }
    exact (firstn_app_repeat (first :: middle ++ [last]) char_quote k m).
  - unfold trim_quotes, find_first_not_of.
    rewrite (find_if_all_repeat _ char_quote k Hq). reflexivity.
Qed.

(** *** string_view_to_uint *)

Lemma digit_value_of_digit (d : Z) :
  (0 <= d < 10)%Z ->
  digit_value (ascii_of_nat (48 + Z.to_nat d)) = Some d.
Proof.
  intros Hd. unfold digit_value.
  rewrite nat_ascii_embedding by lia.
  assert (E : ((48 <=? 48 + Z.to_nat d) && (48 + Z.to_nat d <=? 57))%nat = true).
  { apply andb_true_iff. split; apply Nat.leb_le; lia. }
  rewrite E. f_equal. lia.
Qed.

Lemma digits_value_snoc (s : string_view) (c : ascii) :
  forall acc,
    digits_value acc (s ++ [c])
    = match digits_value acc s with
      | Some v =>
          match digit_value c with
          | Some d => Some (10 * v + d)%Z
          | None => None
          end
      | None => None
      end.
Proof.
  induction s as [| x s IH]; intros acc; cbn [app digits_value].
  - destruct (digit_value c); reflexivity.
  - destruct (digit_value x); [apply IH | reflexivity].
Qed.

Lemma decimal_digits_value (fuel : nat) :
  forall n,
    (0 <= n < 10 ^ Z.of_nat fuel)%Z -> (0 < fuel)%nat ->
    digits_value 0 (decimal_digits fuel n) = Some n
    /\ decimal_digits fuel n <> [].
Proof.
  induction fuel as [| fuel IH]; intros n Hn Hfuel; [lia |].
  cbn [decimal_digits].
  assert (Hmod : (0 <= n mod 10 < 10)%Z) by (apply Z.mod_pos_bound; lia).
  split.
  - rewrite digits_value_snoc, (digit_value_of_digit _ Hmod).
    destruct (n <? 10)%Z eqn:E.
    + apply Z.ltb_lt in E. cbn [digits_value].
      rewrite Z.mod_small by lia. f_equal; lia.
    + apply Z.ltb_ge in E.
      assert (Hfuel' : (0 < fuel)%nat).
      { destruct fuel; [simpl in Hn; lia | lia]. }
      destruct (IH (n / 10)%Z) as [Hv _]; [| exact Hfuel' |].
      * rewrite Nat2Z.inj_succ, Z.pow_succ_r in Hn by lia.
        split; [apply Z.div_pos; lia |].
        apply Z.div_lt_upper_bound; lia.
      * rewrite Hv. f_equal. symmetry. rewrite Z.mul_comm.
        rewrite (Z.div_mod n 10) at 1 by lia. ring.
  - destruct (if (n <? 10)%Z then [] else decimal_digits fuel (n / 10)%Z);
      discriminate.
Qed.

Lemma digits_value_bounds (s : string_view) :
  forall acc v,
    (0 <= acc)%Z -> digits_value acc s = Some v ->
    (acc <= v)%Z /\ Forall (fun c => digit_value c <> None) s.
Proof.
  induction s as [| c s IH]; intros acc v Hacc H; cbn [digits_value] in H.
  - injection H as <-. split; [lia | constructor].
  - destruct (digit_value c) as [d |] eqn:Hd; [| discriminate].
    assert (Hd0 : (0 <= d)%Z).
    { unfold digit_value in Hd.
      destruct ((48 <=? nat_of_ascii c) && (nat_of_ascii c <=? 57))%nat eqn:E;
        [| discriminate].
      apply andb_true_iff in E. destruct E as [E1 _].
      apply Nat.leb_le in E1. injection Hd as <-. lia. }
    destruct (IH (10 * acc + d)%Z v) as [Hle Hall]; [lia | exact H |].
    split; [lia |]. constructor; [congruence | exact Hall].
Qed.

(** X24.  [string_view_to_uint] reads back the decimal digits of every
    32-bit number, and it gives a value only for a non-empty input made of
    the digits 0 to 9 alone (no sign, no space), the value being below
    [2^32]; the empty input gives none. *)
Theorem string_view_to_uint_round_trip (n : Z) (input : string_view) :
  ((0 <= n < 2 ^ 32)%Z -> string_view_to_uint (decimal n) = Some n)
  /\ (forall v, string_view_to_uint input = Some v ->
                input <> []
                /\ Forall (fun c => digit_value c <> None) input
                /\ (0 <= v < 2 ^ 32)%Z)
  /\ string_view_to_uint [] = None.
Proof.
  split; [| split; [| reflexivity]].
  - intros Hn. unfold string_view_to_uint, decimal.
    destruct (decimal_digits_value 10 n) as [Hv Hne]; [lia | lia |].
    destruct (decimal_digits 10 n) as [| c s]; [congruence |].
    rewrite Hv.
    assert (E : (n <? 2 ^ 32)%Z = true) by (apply Z.ltb_lt; lia).
    now rewrite E.
  - intros v H. unfold string_view_to_uint in H.
    destruct input as [| c s]; [discriminate |].
    destruct (digits_value 0 (c :: s)) as [r |] eqn:Hr; [| discriminate].
    destruct (r <? 2 ^ 32)%Z eqn:E; [| discriminate].
    injection H as <-. apply Z.ltb_lt in E.
    destruct (digits_value_bounds (c :: s) 0 r (Z.le_refl 0) Hr) as [H0 Hall].
    split; [discriminate |]. split; [exact Hall | lia].
Qed.
(** *** skip_section *)

Lemma break_off_newline_nil : break_off_newline [] = ([], []).
Proof. reflexivity. Qed.

Lemma skip_section_loop_nil (fuel : nat) : skip_section_loop fuel [] = Running.
Proof. induction fuel as [| fuel IH]; [reflexivity | exact IH]. Qed.

Lemma skip_section_loop_more (fuel : nat) :
  forall input r fuel',
    skip_section_loop fuel input = Done r -> (fuel <= fuel')%nat ->
    skip_section_loop fuel' input = Done r.
Proof.
  induction fuel as [| fuel IH]; intros input r fuel' H Hle; [discriminate |].
  destruct fuel' as [| fuel']; [lia |].
  cbn [skip_section_loop] in *.
  destruct (break_off_newline input) as [line rest].
  destruct (sv_eqb line (sv "}")); [exact H |].
  apply (IH rest r fuel' H). lia.
Qed.

Lemma skip_section_loop_bound (fuel : nat) :
  forall input r,
    skip_section_loop fuel input = Done r ->
    skip_section_loop (S (length input)) input = Done r.
Proof.
  induction fuel as [| fuel IH]; intros input r H; [discriminate |].
  destruct input as [| c input].
  - rewrite skip_section_loop_nil in H. discriminate.
  - cbn [skip_section_loop] in *.
    pose proof (break_off_newline_parts (c :: input)) as (_ & _ & _ & Hlt).
    destruct (break_off_newline (c :: input)) as [line rest].
    cbn [fst snd] in Hlt.
    destruct (sv_eqb line (sv "}")); [exact H |].
    apply (skip_section_loop_more (S (length rest)) rest r); [now apply IH |].
    assert (Hne : c :: input <> []) by discriminate. specialize (Hlt Hne). lia.
Qed.

Lemma break_off_newline_length (input : string_view) :
  (length (snd (break_off_newline input)) <= length input)%nat.
Proof.
  destruct input as [| c input]; [simpl; lia |].
  pose proof (break_off_newline_parts (c :: input)) as (_ & _ & _ & Hlt).
  assert (Hne : c :: input <> []) by discriminate. specialize (Hlt Hne). lia.
Qed.

Lemma break_off_newline_chars (input : string_view) (c : ascii) :
  ~ In c input ->
  ~ In c (fst (break_off_newline input))
  /\ ~ In c (snd (break_off_newline input)).
Proof.
  intros Hnot.
  destruct (break_off_newline_parts input) as (_ & [[H1 H2] | H] & _).
  - rewrite <- H1, H2. split; [exact Hnot | intros []].
  - destruct H as (x & more & Hs & _ & Hrest).
    destruct (skip_whitespace_split more) as (skipped & Hmore & _).
    split.
    + intros Hin. apply Hnot. rewrite Hs. apply in_or_app. now left.
    + rewrite Hrest. intros Hin. apply Hnot. rewrite Hs, Hmore.
      apply in_or_app. right. right. apply in_or_app. now right.
Qed.

Lemma skip_section_loop_unclosed (fuel : nat) :
  forall input,
    ~ In "}"%char input -> skip_section_loop fuel input = Running.
Proof.
  induction fuel as [| fuel IH]; intros input Hnot; [reflexivity |].
  cbn [skip_section_loop].
  destruct (break_off_newline_chars input _ Hnot) as [Hline Hrest].
  destruct (break_off_newline input) as [line rest]. cbn [fst snd] in *.
  destruct (sv_eqb line (sv "}")) eqn:E.
  - apply sv_eqb_true in E. subst line. exfalso. apply Hline. now left.
  - now apply IH.
Qed.

(** X25.  [skip_section] throws [runtime_error] when the first line is not
    ["{"]; otherwise it returns only if it reads a line ["}"], which then
    happens within as many passes as the input has characters, plus one.
    On an input in which no ["}"] is left it never returns: once the input
    is used up every line read is empty and the loop goes on. *)
Theorem skip_section_spec (input : string_view) (fuel : nat) :
  (fst (break_off_newline input) <> sv "{" ->
   skip_section fuel input
   = Raised (std_runtime_error "Section does not open with {"))
  /\ (forall r, skip_section fuel input = Done r ->
                skip_section (S (length input)) input = Done r)
  /\ (~ In "}"%char input -> forall r, skip_section fuel input <> Done r)
  /\ (fst (break_off_newline input) = sv "{" -> ~ In "}"%char input ->
      skip_section fuel input = Running).
Proof.
  unfold skip_section.
  pose proof (break_off_newline_length input) as Hlen.
  pose proof (break_off_newline_chars input "}"%char) as Hchars.
  destruct (break_off_newline input) as [line rest]. cbn [fst snd] in *.
  split; [| split; [| split]].
  - intros H. apply sv_eqb_false in H. now rewrite H.
  - intros r H. destruct (sv_eqb line (sv "{")); [| discriminate].
    cbn [negb] in *.
    apply skip_section_loop_bound in H.
    apply (skip_section_loop_more _ _ _ _ H). lia.
  - intros Hnot r. destruct (sv_eqb line (sv "{")); [| discriminate].
    cbn [negb]. rewrite skip_section_loop_unclosed; [discriminate |].
    now apply Hchars.
  - intros -> Hnot. cbn [negb].
    assert (E : sv_eqb (sv "{") (sv "{") = true) by (now apply sv_eqb_true).
    rewrite E. cbn [negb]. apply skip_section_loop_unclosed. now apply Hchars.
Qed.

Lemma skip_section_spec_witness :
  skip_section 5 (sv "{") = Running.
Proof.
  apply (skip_section_spec (sv "{") 5).
  - reflexivity.
  - intros [H | []]. discriminate.
Defined.
(** *** read_sync_track *)

Lemma read_sync_track_line_nil (sync_track : PreSyncTrack) :
  read_sync_track_line [] sync_track
  = Raise (std_invalid_argument "Event missing data").
Proof. reflexivity. Qed.

Lemma read_sync_track_loop_total (fuel : nat) :
  forall input sync_track,
    (length input < fuel)%nat ->
    read_sync_track_loop fuel input sync_track <> Running.
Proof.
  induction fuel as [| fuel IH]; intros input sync_track Hlen; [lia |].
  destruct input as [| c input].
  - cbn [read_sync_track_loop]. rewrite break_off_newline_nil.
    rewrite read_sync_track_line_nil. discriminate.
  - cbn [read_sync_track_loop].
    pose proof (break_off_newline_parts (c :: input)) as (_ & _ & _ & Hlt).
    destruct (break_off_newline (c :: input)) as [line rest].
    cbn [fst snd] in Hlt.
    destruct (read_sync_track_line line sync_track) as [| next | e];
      try discriminate.
    apply IH.
    assert (Hne : c :: input <> []) by discriminate. specialize (Hlt Hne).
    simpl in Hlen, Hlt. lia.
Qed.

(** X26.  [read_sync_track] always comes to an end: within as many passes
    as the input has characters, plus one, it has returned or thrown.  An
    input that is used up before a line ["}"] is read makes it throw
    [invalid_argument], the empty line having fewer than four fields. *)
Theorem read_sync_track_terminates (input : string_view)
  (sync_track : PreSyncTrack) :
  read_sync_track (S (length input)) input sync_track <> Running
  /\ (forall fuel, (0 < fuel)%nat ->
        read_sync_track_loop fuel [] sync_track
        = Raised (std_invalid_argument "Event missing data")).
Proof.
  split.
  - unfold read_sync_track.
    pose proof (break_off_newline_length input) as Hlen.
    destruct (break_off_newline input) as [line rest]. cbn [fst snd] in Hlen.
    destruct (negb (sv_eqb line (sv "{"))); [discriminate |].
    apply read_sync_track_loop_total. lia.
  - intros [| fuel] H; [lia |]. reflexivity.
Qed.

Lemma decimal_digits_no_space (fuel : nat) :
  forall n,
    all_chars (fun c => negb (Ascii.eqb char_space c)) (decimal_digits fuel n).
Proof.
  unfold all_chars.
  induction fuel as [| fuel IH]; intros n; cbn [decimal_digits]; [reflexivity |].
  rewrite forallb_app. apply andb_true_iff. split.
  - destruct (n <? 10)%Z; [reflexivity | apply IH].
  - cbn [forallb]. rewrite andb_true_r. apply negb_true_iff.
    apply Ascii.eqb_neq. intros H.
    apply (f_equal nat_of_ascii) in H.
    assert (Hmod : (0 <= n mod 10 < 10)%Z) by (apply Z.mod_pos_bound; lia).
    rewrite nat_ascii_embedding in H by lia.
    change (nat_of_ascii char_space) with 32%nat in H. lia.
Qed.

Lemma decimal_to_uint (n : Z) :
  (0 <= n < 2 ^ 32)%Z -> string_view_to_uint (decimal n) = Some n.
Proof.
  intros Hn. unfold string_view_to_uint, decimal.
  destruct (decimal_digits_value 10 n) as [Hv Hne]; [lia | lia |].
  destruct (decimal_digits 10 n) as [| c s]; [congruence |].
  rewrite Hv.
  assert (E : (n <? 2 ^ 32)%Z = true) by (apply Z.ltb_lt; lia).
  now rewrite E.
Qed.

Lemma split_by_space_of_join (pieces : list string_view) :
  pieces <> [] ->
  Forall (all_chars (fun c => negb (Ascii.eqb char_space c))) pieces ->
  split_by_space (join_space pieces) = pieces.
Proof.
  intros Hne Hall. unfold split_by_space.
  now apply split_by_space_loop_of_join.
Qed.

Lemma join_space_not_brace (a b : string_view) (rest : list string_view) :
  sv_eqb (join_space (a :: b :: rest)) (sv "}") = false.
Proof.
  apply sv_eqb_false. intros H.
  assert (Hin : In char_space (join_space (a :: b :: rest))).
  { rewrite join_space_cons by discriminate. apply in_or_app. right. now left. }
  rewrite H in Hin. destruct Hin as [Hin | []]. discriminate.
Qed.

(** X27.  The lines of [[SyncTrack]]: a line of fewer than four fields that
    is not ["}"] makes the reader throw [invalid_argument]; for 32-bit
    numbers written in decimal, the line [position = TS numerator] adds the
    time signature [numerator / 4], the line
    [position = TS numerator exponent], with an exponent below 32, the time
    signature [numerator / 2^exponent], and the line [position = B bpm] the
    tempo; nothing else of the sync track changes. *)
Theorem read_sync_track_line_spec (sync_track : PreSyncTrack)
  (position numerator exponent bpm : Z) (line : string_view)
  (Hposition : (0 <= position < 2 ^ 32)%Z)
  (Hnumerator : (0 <= numerator < 2 ^ 32)%Z)
  (Hexponent : (0 <= exponent < 32)%Z)
  (Hbpm : (0 <= bpm < 2 ^ 32)%Z) :
  (line <> sv "}" -> (length (split_by_space line) < 4)%nat ->
   read_sync_track_line line sync_track
   = Raise (std_invalid_argument "Event missing data"))
  /\ read_sync_track_line
       (join_space [decimal position; sv "="; sv "TS"; decimal numerator])
       sync_track
     = Next (mkPreSyncTrack
               (pre_time_sigs sync_track
                ++ [mkTimeSignature position numerator 4])
               (pre_bpms sync_track))
  /\ read_sync_track_line
       (join_space [decimal position; sv "="; sv "TS"; decimal numerator;
                    decimal exponent])
       sync_track
     = Next (mkPreSyncTrack
               (pre_time_sigs sync_track
                ++ [mkTimeSignature position numerator (2 ^ exponent)])
               (pre_bpms sync_track))
  /\ read_sync_track_line
       (join_space [decimal position; sv "="; sv "B"; decimal bpm])
       sync_track
     = Next (mkPreSyncTrack (pre_time_sigs sync_track)
               (pre_bpms sync_track ++ [mkBPM position bpm])).
Proof.
  assert (Hfields : forall n, all_chars (fun c => negb (Ascii.eqb char_space c))
                                (decimal n)).
  { intros n. apply decimal_digits_no_space. }
  assert (Hexp32 : (0 <= exponent < 2 ^ 32)%Z) by lia.
  split; [| split; [| split]].
  - intros Hline Hlen. unfold read_sync_track_line.
    apply sv_eqb_false in Hline. rewrite Hline.
    apply Nat.ltb_lt in Hlen. now rewrite Hlen.
  - unfold read_sync_track_line.
    rewrite join_space_not_brace, split_by_space_of_join.
    + cbn [length Nat.ltb Nat.leb nth].
      rewrite !decimal_to_uint by assumption. reflexivity.
    + discriminate.
    + repeat constructor; auto.
  - unfold read_sync_track_line.
    rewrite join_space_not_brace, split_by_space_of_join.
    + cbn [length Nat.ltb Nat.leb nth].
      rewrite !decimal_to_uint by assumption.
      change (sv_eqb (sv "TS") (sv "TS")) with true. cbv iota.
      unfold uint32_shl. rewrite Z.shiftl_1_l, Z.mod_small; [reflexivity |].
      split; [apply Z.pow_nonneg; lia |].
      apply Z.pow_lt_mono_r; lia.
    + discriminate.
    + repeat constructor; auto.
  - unfold read_sync_track_line.
    rewrite join_space_not_brace, split_by_space_of_join.
    + cbn [length Nat.ltb Nat.leb nth].
      rewrite !decimal_to_uint by assumption. reflexivity.
    + discriminate.
    + repeat constructor; auto.
Qed.

Lemma read_sync_track_line_spec_witness :
  read_sync_track_line (sv "768 = TS 3 3") (mkPreSyncTrack [] [])
  = Next (mkPreSyncTrack [mkTimeSignature 768 3 8] []).
Proof.
  apply (read_sync_track_line_spec (mkPreSyncTrack [] []) 768 3 3 0 []); lia.
Defined.

(** ** Whammy gives no more than is available *)

(** The walk over the beat rates ends, when the bar has not run out, with at
    most the amount given plus the gain of every beat walked, less the
    drain of the measures. *)
Lemma whammy_range_loop_le (F : Q -> Q) (rates : list BeatRate) :
  (forall x y, x <= y -> F x <= F y) ->
  forall s e sp,
    rates_match_from F rates -> rates_sorted rates -> rates <> [] ->
    match rates with p :: _ => br_position p <= s | [] => True end ->
    next_not_before s rates ->
    s <= e ->
    0 <= whammy_range_loop rates s e sp ->
    whammy_range_loop rates s e sp
    <= sp + (e - s) * SP_GAIN_RATE - (F e - F s) / MEASURES_PER_BAR.
Proof.
  intros Hmono.
  induction rates as [| p rest IH];
    intros s e sp Hmatch Hsorted Hne Hhead Hnext Hse; [congruence |].
  rewrite whammy_range_loop_eq.
  pose proof (Hmono s e Hse) as Hse'.
  destruct (Qlt_le_dec s e) as [Hlt | Hge].
  2:{ intros _. pose proof (Hmono e s Hge) as Hes'.
      assert (E : e == s) by lra.
      assert (E0 : (e - s) * SP_GAIN_RATE == 0) by (rewrite E; ring).
      revert Hse' Hes'. rewrite E0. qconst. lra. }
  destruct Hmatch as [Hp Hrest].
  cbv zeta.
  set (x := match rest with
            | [] => e
            | next :: _ => std_min e (br_position next)
            end).
  assert (Hx : s <= x /\ x <= e
               /\ match rest with
                  | [] => True
                  | next :: _ => x <= br_position next
                  end).
  { unfold x. destruct rest as [| next rest']; [repeat split; lra |].
    simpl in Hnext. unfold std_min. qcases; repeat split; lra. }
  destruct Hx as (Hsx & Hxe & Hxhi).
  assert (Hdrain : (F x - F s) / MEASURES_PER_BAR
                   == (x - s) * (SP_GAIN_RATE - net_sp_gain_rate p)).
  { apply Hp; [exact Hhead | exact Hsx |].
    destruct rest as [| next rest']; [exact I | exact Hxhi]. }
  assert (Hsplit : (F e - F s) / MEASURES_PER_BAR
                   == (F x - F s) / MEASURES_PER_BAR
                      + (F e - F x) / MEASURES_PER_BAR).
  { qconst. lra. }
  assert (Hgain : sp + (x - s) * net_sp_gain_rate p
                  == sp + (x - s) * SP_GAIN_RATE
                     - (F x - F s) / MEASURES_PER_BAR).
  { rewrite Hdrain. ring. }
  assert (Hlen : (e - s) * SP_GAIN_RATE
                 == (x - s) * SP_GAIN_RATE + (e - x) * SP_GAIN_RATE) by ring.
  remember ((F x - F s) / MEASURES_PER_BAR) as d1 eqn:Hd1.
  remember ((F e - F x) / MEASURES_PER_BAR) as d2 eqn:Hd2.
  remember ((F e - F s) / MEASURES_PER_BAR) as d eqn:Hd.
  remember ((x - s) * SP_GAIN_RATE) as g1 eqn:Hg1.
  remember ((e - x) * SP_GAIN_RATE) as g2 eqn:Hg2.
  remember ((e - s) * SP_GAIN_RATE) as g eqn:Hg.
  remember (sp + (x - s) * net_sp_gain_rate p) as sp1 eqn:Hsp1'.
  destruct (Qlt_le_dec sp1 0) as [Hneg | Hpos]; [intros H; exfalso; lra |].
  assert (Hcap : std_min sp1 1 <= sp1) by apply std_min_le_l.
  destruct (Qlt_le_dec x e) as [Hxlt | Hxge].
  - destruct rest as [| next rest']; [unfold x in Hxlt; lra |].
    assert (Ex : x = br_position next).
    { unfold x, std_min in *.
      destruct (Qlt_le_dec (br_position next) e); [reflexivity | lra]. }
    assert (Hsorted' : rates_sorted (next :: rest')) by (now inversion Hsorted).
    assert (Hne' : next :: rest' <> []) by discriminate.
    assert (Hhead' : br_position next <= x) by (rewrite Ex; apply Qle_refl).
    assert (Hnext' : next_not_before x (next :: rest')).
    { rewrite Ex. now apply rates_sorted_next. }
    intros Hw.
    pose proof (IH x e (std_min sp1 1) Hrest Hsorted' Hne' Hhead' Hnext' Hxe Hw)
      as Hgo.
    rewrite <- Hd2, <- Hg2 in Hgo. lra.
  - rewrite whammy_range_loop_done by exact Hxge. intros _.
    assert (E : x == e) by lra.
    assert (Hd2z : d2 == 0).
    { pose proof (Hmono e x Hxge) as H. pose proof (Hmono x e Hxe) as H'.
      rewrite Hd2. revert H H'. qconst. lra. }
    assert (Hg2z : g2 == 0) by (rewrite Hg2, E; ring).
    lra.
Qed.

Section Upper.

Variable sd : SpData.
Hypothesis sd_consistent : SpData_consistent sd.

Lemma propagate_over_whammy_range_upper (s e sp : Q) :
  s <= e ->
  0 <= propagate_over_whammy_range sd s e sp ->
  propagate_over_whammy_range sd s e sp
  <= sp + (e - s) * SP_GAIN_RATE
     - (beats_to_measures (m_converter sd) e
        - beats_to_measures (m_converter sd) s) / MEASURES_PER_BAR.
Proof.
  intros Hse.
  destruct sd_consistent as [(Htc & Hne & Hsorted & _) [Hfirst Hmatch]].
  pose proof (consistent_mono sd sd_consistent) as Hmono.
  set (F := beats_to_measures (m_converter sd)) in *.
  unfold propagate_over_whammy_range.
  destruct (lower_bound (fun ts y => Qltb (br_position ts) y)
              (m_beat_rates sd) s) as [| i] eqn:Ei.
  - destruct (m_beat_rates sd) as [| r0 rest] eqn:Er; [congruence |].
    apply lower_bound_O in Ei. apply Qltb_false in Ei.
    cbv zeta.
    set (x := std_min e (br_position r0)).
    assert (Hx : s <= x /\ x <= e /\ x <= br_position r0).
    { unfold x, std_min. qcases; repeat split; lra. }
    destruct Hx as (Hsx & Hxe & Hxr).
    pose proof (Hfirst s x Hsx Hxr) as Hdrain. fold F in Hdrain.
    pose proof (Hmono s x Hsx) as Hm1. pose proof (Hmono x e Hxe) as Hm2.
    assert (Hsplit : (F e - F s) / MEASURES_PER_BAR
                     == (F x - F s) / MEASURES_PER_BAR
                        + (F e - F x) / MEASURES_PER_BAR).
    { qconst. lra. }
    assert (Hgain : sp + (x - s) * DEFAULT_NET_SP_GAIN_RATE
                    == sp + (x - s) * SP_GAIN_RATE
                       - (F x - F s) / MEASURES_PER_BAR).
    { rewrite Hdrain. ring. }
    assert (Hlen : (e - s) * SP_GAIN_RATE
                   == (x - s) * SP_GAIN_RATE + (e - x) * SP_GAIN_RATE) by ring.
    remember ((F x - F s) / MEASURES_PER_BAR) as d1 eqn:Hd1.
    remember ((F e - F x) / MEASURES_PER_BAR) as d2 eqn:Hd2.
    remember ((F e - F s) / MEASURES_PER_BAR) as d eqn:Hd.
    remember ((x - s) * SP_GAIN_RATE) as g1 eqn:Hg1.
    remember ((e - x) * SP_GAIN_RATE) as g2 eqn:Hg2.
    remember ((e - s) * SP_GAIN_RATE) as g eqn:Hg.
    remember (sp + (x - s) * DEFAULT_NET_SP_GAIN_RATE) as sp1 eqn:Hsp1'.
    assert (Hcap : std_min sp1 1 <= sp1) by apply std_min_le_l.
    destruct (Qlt_le_dec x e) as [Hxlt | Hxge].
    + assert (Ex : x = br_position r0).
      { unfold x, std_min in *.
        destruct (Qlt_le_dec (br_position r0) e); [reflexivity | lra]. }
      assert (Hhead : br_position r0 <= x) by (rewrite Ex; apply Qle_refl).
      assert (Hnext : next_not_before x (r0 :: rest)).
      { rewrite Ex. now apply rates_sorted_next. }
      intros Hw.
      pose proof (whammy_range_loop_le F (r0 :: rest) Hmono x e
                    (std_min sp1 1) Hmatch Hsorted Hne Hhead Hnext Hxe Hw)
        as Hgo.
      rewrite <- Hd2, <- Hg2 in Hgo. lra.
    + rewrite whammy_range_loop_done by exact Hxge. intros _.
      assert (E : x == e) by lra.
      assert (Hd2z : d2 == 0).
      { pose proof (Hmono e x Hxge) as H.
        rewrite Hd2. revert H Hm2. qconst. lra. }
      assert (Hg2z : g2 == 0) by (rewrite Hg2, E; ring).
      lra.
  - destruct (lower_bound_S _ _ _ _ Ei) as (p & rest & Hskip & Hp & Hrest).
    apply Qltb_true in Hp. rewrite Hskip.
    apply (whammy_range_loop_le F (p :: rest) Hmono); try assumption.
    + rewrite <- Hskip. now apply rates_match_from_skipn.
    + rewrite <- Hskip. now apply StronglySorted_skipn.
    + discriminate.
    + simpl. lra.
    + destruct rest as [| next rest']; simpl; [exact I |].
      now apply Qltb_false in Hrest.
Qed.

Lemma consistent_measure_of (x : Position) :
  on_track (m_converter sd) x ->
  beats_to_measures (m_converter sd) (beat x) == measure x.
Proof. intros [H _]. symmetry. exact H. Qed.

Lemma Qsum_overlap_later (s s' c : Q) (ranges : list WhammyRange) :
  Forall (fun q => s <= beat (wr_start q) /\ s' <= beat (wr_start q)) ranges ->
  Qsum (map (whammy_overlap s c) ranges)
  == Qsum (map (whammy_overlap s' c) ranges).
Proof.
  unfold Qsum. induction 1 as [| q l [Hq Hq'] _ IH]; simpl; [reflexivity |].
  rewrite IH.
  assert (E : whammy_overlap s c q == whammy_overlap s' c q).
  { unfold whammy_overlap. qminmax; lra. }
  rewrite E. reflexivity.
Qed.

Lemma max_loop_upper (c : Position) :
  on_track (m_converter sd) c ->
  forall ranges start sp,
    ranges_ok (m_converter sd) ranges -> ahead start ranges ->
    on_track (m_converter sd) start ->
    beat start <= beat c ->
    0 <= snd (max_loop sd c ranges start sp) ->
    snd (max_loop sd c ranges start sp)
    <= sp
       + SP_GAIN_RATE
         * Qsum (map (whammy_overlap (beat start) (beat c)) ranges)
       - (measure c - measure start) / MEASURES_PER_BAR.
Proof.
  intros Hc.
  assert (Htc : converter_ok (m_converter sd)) by apply sd_consistent.
  induction ranges as [| p rest IH];
    intros start sp Hranges Hahead Hstart Hsc.
  - simpl. intros _. unfold max_tail, Qsum. simpl. qconst. lra.
  - destruct (ranges_ok_head _ _ _ Hranges) as (Hp & Hps & Hpe & Hnext).
    destruct (ranges_ok_tail _ _ _ Hranges) as (Hrest & Hahead').
    unfold range_nonempty in Hp. simpl in Hahead.
    pose proof (Qsum_overlap_nonneg (beat start) (beat c) (p :: rest)) as Hsum0.
    pose proof (Qsum_overlap_nonneg (beat start) (beat c) rest) as Hsum0'.
    rewrite max_loop_cons.
    destruct (Qlt_le_dec (beat (wr_start p)) (beat c)) as [Hpc | Hcp].
    2:{ cbn [snd]. intros _. unfold max_tail. revert Hsum0. qconst.
        change (/ 30) with (1 # 30). lra. }
    assert (Hlater : Forall (fun q => beat start <= beat (wr_start q)
                                      /\ beat (wr_end p) <= beat (wr_start q))
                       rest).
    { destruct Hranges as (_ & Hs & _). inversion Hs as [| ? ? _ Hall]; subst.
      rewrite Forall_forall in Hall |- *. intros q Hq.
      specialize (Hall q Hq). unfold range_before in Hall. lra. }
    pose proof (Qsum_overlap_later (beat start) (beat (wr_end p)) (beat c) rest
                  Hlater) as Hshift.
    assert (Hrange : forall st v,
               on_track (m_converter sd) st ->
               beat st < beat (wr_end p) -> beat st <= beat c ->
               whammy_overlap (beat start) (beat c) p
               == std_min (beat c) (beat (wr_end p)) - beat st ->
               0 <= snd match max_in_range sd c p st v with
                        | Return r => r
                        | Continue s0 v0 => max_loop sd c rest s0 v0
                        end ->
               snd match max_in_range sd c p st v with
                   | Return r => r
                   | Continue s0 v0 => max_loop sd c rest s0 v0
                   end
               <= v
                  + SP_GAIN_RATE
                    * Qsum (map (whammy_overlap (beat start) (beat c))
                              (p :: rest))
                  - (measure c - measure st) / MEASURES_PER_BAR).
    { intros st v Hst Hste Hstc Hover.
      unfold Qsum in *. cbn [map fold_right]. rewrite Hover.
      destruct (Qlt_le_dec (beat (wr_end p)) (beat c)) as [Hpec | Hcpe].
      - rewrite (max_in_range_inner sd c p st v Hpec). cbv zeta.
        assert (Emin : std_min (beat c) (beat (wr_end p)) == beat (wr_end p)).
        { unfold std_min. qcases; lra. }
        pose proof (propagate_over_whammy_range_upper (beat st)
                      (beat (wr_end p)) v (Qlt_le_weak _ _ Hste)) as Hup.
        rewrite (consistent_measure_of st Hst),
          (consistent_measure_of _ Hpe) in Hup.
        remember (propagate_over_whammy_range sd (beat st) (beat (wr_end p)) v)
          as w eqn:Hw.
        destruct (Qlt_le_dec w 0) as [Hneg | Hpos];
          [cbn [snd]; intros H; exfalso; lra |].
        specialize (Hup Hpos). intros Hres.
        pose proof (IH (wr_end p) w Hrest Hahead' Hpe (Qlt_le_weak _ _ Hpec)
                      Hres) as Hgo.
        rewrite <- Hshift in Hgo. rewrite Emin.
        revert Hgo Hup. qconst. change (/ 30) with (1 # 30). lra.
      - rewrite (max_in_range_outer sd c p st v Hcpe). cbv zeta.
        assert (Emin : std_min (beat c) (beat (wr_end p)) == beat c).
        { unfold std_min. qcases; lra. }
        pose proof (propagate_over_whammy_range_upper (beat st) (beat c) v
                      Hstc) as Hup.
        rewrite (consistent_measure_of st Hst),
          (consistent_measure_of _ Hc) in Hup.
        remember (propagate_over_whammy_range sd (beat st) (beat c) v)
          as w eqn:Hw.
        assert (Hsnd : snd match (if Qlt_le_dec w 0
                                  then @Return (exit_site * Q) (exit_whammy, w)
                                  else Return (exit_range_end, w)) with
                           | Return r => r
                           | Continue s0 v0 => max_loop sd c rest s0 v0
                           end = w).
        { destruct (Qlt_le_dec w 0); reflexivity. }
        rewrite Hsnd. intros Hres. specialize (Hup Hres). rewrite Emin.
        revert Hup Hsum0'. qconst. change (/ 30) with (1 # 30). lra. }
    unfold max_body.
    destruct (Qlt_le_dec (beat start) (beat (wr_start p))) as [Hgap | Hin].
    + cbv zeta.
      destruct (Qlt_le_dec
                  (sp - (measure (wr_start p) - measure start)
                        / MEASURES_PER_BAR) 0) as [Hneg | Hpos].
      * cbn [snd]. intros H. exfalso. lra.
      * intros Hres.
        assert (Hover : whammy_overlap (beat start) (beat c) p
                        == std_min (beat c) (beat (wr_end p))
                           - beat (wr_start p)).
        { unfold whammy_overlap, std_min. qcases; qminmax; lra. }
        pose proof (Hrange (wr_start p) _ Hps Hp (Qlt_le_weak _ _ Hpc) Hover
                      Hres) as Hgo.
        revert Hgo. qconst. lra.
    + intros Hres.
      assert (Hover : whammy_overlap (beat start) (beat c) p
                      == std_min (beat c) (beat (wr_end p)) - beat start).
      { unfold whammy_overlap, std_min. qcases; qminmax; lra. }
      exact (Hrange start sp Hstart Hahead Hsc Hover Hres).
Qed.

End Upper.
Lemma ranges_from_beats (sd : SpData) (start : Position) :
  ranges_from sd start
  = skipn
      (lower_bound (fun x y => Qleb (beat (wr_end x)) y) (m_whammy_ranges sd)
         (beat start))
      (m_whammy_ranges sd).
Proof.
  unfold ranges_from. f_equal.
  induction (m_whammy_ranges sd) as [| p l IH]; simpl; [reflexivity |].
  now rewrite IH.
Qed.

(** X28.  For an [SpData] as the constructor makes it and positions of its
    converter with [start] not after [end]: when
    [propagate_sp_over_whammy_max] does not run out, what it returns is at
    most the amount given, plus [available_whammy] between the two beats,
    less the drain of the measures between the two positions (an eighth of
    a bar to the measure). *)
Theorem propagate_sp_over_whammy_max_upper (sd : SpData)
  (start end_ : Position) (sp : Q)
  (Hsd : SpData_consistent sd)
  (Hstart : on_track (m_converter sd) start)
  (Hend : on_track (m_converter sd) end_)
  (Hle : beat start <= beat end_)
  (Hleft : 0 <= propagate_sp_over_whammy_max sd start end_ sp) :
  propagate_sp_over_whammy_max sd start end_ sp
  <= sp + available_whammy sd (beat start) (beat end_)
     - (measure end_ - measure start) / MEASURES_PER_BAR.
Proof.
  assert (Hok : SpData_ok sd) by apply Hsd.
  assert (Hranges : ranges_ok (m_converter sd) (m_whammy_ranges sd))
    by apply Hok.
  assert (Hsep : ranges_separated (m_whammy_ranges sd)).
  { destruct Hranges as (H1 & H2 & _). split; assumption. }
  destruct (ranges_from_ok sd start Hranges) as [Hfrom Hahead].
  unfold propagate_sp_over_whammy_max in *.
  pose proof (max_loop_upper sd Hsd end_ Hend (ranges_from sd start) start sp
                Hfrom Hahead Hstart Hle Hleft) as Hup.
  rewrite (available_whammy_sum sd (beat start) (beat end_) Hsep Hle).
  destruct (lower_bound_end_split (beat start) (beat end_) _ Hsep Hle)
    as (kept & Hkept & _ & _ & Hsame).
  rewrite <- ranges_from_beats in Hkept. subst kept.
  rewrite <- Hsame. exact Hup.
Qed.

Lemma propagate_sp_over_whammy_max_upper_witness :
  propagate_sp_over_whammy_max example_sp_data (example_position 0)
    (example_position 10) (1 # 2)
  <= (1 # 2) + available_whammy example_sp_data (beat (example_position 0))
                 (beat (example_position 10))
     - (measure (example_position 10) - measure (example_position 0))
       / MEASURES_PER_BAR.
Proof.
  apply (propagate_sp_over_whammy_max_upper example_sp_data).
  - exact example_sp_data_consistent.
  - split; vm_compute; reflexivity.
  - split; vm_compute; reflexivity.
  - vm_compute; discriminate.
  - vm_compute; discriminate.
Defined.
(** ** The order of the cache keys *)

Lemma cache_key_less_spec (x y : CacheKey) :
  cache_key_less x y = true
  <-> (key_point x < key_point y)%Z
      \/ (key_point x = key_point y
          /\ beat (key_position x) < beat (key_position y)).
Proof.
  unfold cache_key_less.
  rewrite orb_true_iff, andb_true_iff, negb_true_iff, Z.ltb_lt, Z.ltb_ge,
    Qltb_true.
  split.
  - intros [H | [H1 H2]]; [now left |].
    destruct (Z.eq_dec (key_point x) (key_point y)) as [E | N];
      [right; split; assumption | left; lia].
  - intros [H | [H1 H2]]; [now left |]. right. split; [lia | exact H2].
Qed.

(** X29.  [operator<] of the optimiser's [CacheKey] is a strict weak order
    (no key is before itself, the order is transitive, and so is being
    neither before nor after), and two keys are neither before nor after one
    another exactly when they have the same point and the same beat: the
    measure of the position takes no part, so the cache holds one entry for
    them. *)
Theorem cache_key_less_strict_weak (x y z : CacheKey) :
  cache_key_less x x = false
  /\ (cache_key_less x y = true -> cache_key_less y z = true ->
      cache_key_less x z = true)
  /\ (cache_key_less x y = false /\ cache_key_less y x = false
      <-> key_point x = key_point y
          /\ beat (key_position x) == beat (key_position y))
  /\ (cache_key_less x y = false -> cache_key_less y x = false ->
      cache_key_less y z = false -> cache_key_less z y = false ->
      cache_key_less x z = false /\ cache_key_less z x = false).
Proof.
  assert (Hfalse : forall a b,
             cache_key_less a b = false
             <-> (key_point b < key_point a)%Z
                 \/ (key_point a = key_point b
                     /\ beat (key_position b) <= beat (key_position a))).
  { intros a b. rewrite <- not_true_iff_false, cache_key_less_spec.
    split.
    - intros H.
      destruct (Z_lt_le_dec (key_point b) (key_point a)) as [Hlt | Hle];
        [now left |].
      destruct (Z.eq_dec (key_point a) (key_point b)) as [E | N].
      + right. split; [exact E |].
        destruct (Qlt_le_dec (beat (key_position a)) (beat (key_position b)));
          [exfalso; apply H; right; split; assumption | assumption].
      + exfalso. apply H. left. lia.
    - intros [H | [H1 H2]] [K | [K1 K2]]; try lia; lra. }
  split; [| split; [| split]].
  - apply Hfalse. right. split; [reflexivity | apply Qle_refl].
  - rewrite !cache_key_less_spec.
    intros [H | [H1 H2]] [K | [K1 K2]]; try (left; lia).
    right. split; [lia | lra].
  - rewrite !Hfalse. split.
    + intros [[H | [H1 H2]] [K | [K1 K2]]]; try lia.
      split; [exact H1 | lra].
    + intros [H1 H2]. split; right; split; auto; lra.
  - rewrite !Hfalse.
    intros [H | [H1 H2]] [K | [K1 K2]] [L | [L1 L2]] [M | [M1 M2]]; try lia.
    split; right; split; try lia; lra.
Qed.
(** ** More SP in, no less SP out *)

Lemma std_min_mono_l (a b c : Q) : a <= b -> std_min a c <= std_min b c.
Proof. intros H. unfold std_min. qcases; lra. Qed.

Lemma whammy_range_loop_mono (rates : list BeatRate) :
  forall s e sp sp',
    sp <= sp' ->
    0 <= whammy_range_loop rates s e sp ->
    whammy_range_loop rates s e sp <= whammy_range_loop rates s e sp'.
Proof.
  induction rates as [| p rest IH]; intros s e sp sp' Hle.
  - simpl. destruct (Qlt_le_dec s e); intros _; exact Hle.
  - rewrite !whammy_range_loop_eq.
    destruct (Qlt_le_dec s e) as [Hlt | Hge]; [| intros _; exact Hle].
    cbv zeta.
    set (x := match rest with
              | [] => e
              | next :: _ => std_min e (br_position next)
              end).
    remember ((x - s) * net_sp_gain_rate p) as g eqn:Hg.
    destruct (Qlt_le_dec (sp + g) 0) as [Hneg | Hpos]; [intros H; lra |].
    destruct (Qlt_le_dec (sp' + g) 0) as [Hneg' | Hpos']; [lra |].
    apply IH. apply std_min_mono_l. lra.
Qed.

Lemma propagate_over_whammy_range_mono (sd : SpData) (s e sp sp' : Q) :
  sp <= sp' ->
  0 <= propagate_over_whammy_range sd s e sp ->
  propagate_over_whammy_range sd s e sp
  <= propagate_over_whammy_range sd s e sp'.
Proof.
  intros Hle. unfold propagate_over_whammy_range. cbv zeta.
  destruct (lower_bound _ (m_beat_rates sd) s) as [| i].
  - destruct (m_beat_rates sd) as [| p rest]; [intros _; exact Hle |].
    apply whammy_range_loop_mono. apply std_min_mono_l. lra.
  - apply whammy_range_loop_mono. exact Hle.
Qed.

Lemma max_loop_mono (sd : SpData) (c : Position) (ranges : list WhammyRange) :
  forall a sp sp',
    sp <= sp' ->
    0 <= snd (max_loop sd c ranges a sp) ->
    snd (max_loop sd c ranges a sp) <= snd (max_loop sd c ranges a sp').
Proof.
  assert (Hin : forall ranges' p a sp sp',
             (forall a sp sp', sp <= sp' ->
                0 <= snd (max_loop sd c ranges' a sp) ->
                snd (max_loop sd c ranges' a sp)
                <= snd (max_loop sd c ranges' a sp')) ->
             sp <= sp' ->
             0 <= snd (match max_in_range sd c p a sp with
                       | Return r => r
                       | Continue start sp0 => max_loop sd c ranges' start sp0
                       end) ->
             snd (match max_in_range sd c p a sp with
                  | Return r => r
                  | Continue start sp0 => max_loop sd c ranges' start sp0
                  end)
             <= snd (match max_in_range sd c p a sp' with
                     | Return r => r
                     | Continue start sp0 => max_loop sd c ranges' start sp0
                     end)).
  { intros ranges' p a sp sp' IH Hle. unfold max_in_range. cbv zeta.
    set (e := std_min (beat c) (beat (wr_end p))).
    pose proof (propagate_over_whammy_range_mono sd (beat a) e sp sp' Hle)
      as Hm.
    remember (propagate_over_whammy_range sd (beat a) e sp) as v eqn:Hv.
    remember (propagate_over_whammy_range sd (beat a) e sp') as v' eqn:Hv'.
    destruct (Qlt_le_dec v 0) as [Hneg | Hpos]; [simpl; intros H; lra |].
    specialize (Hm Hpos).
    destruct (Qlt_le_dec v' 0) as [Hneg' | Hpos']; [lra |].
    destruct (Qlt_le_dec (beat (wr_end p)) (beat c)).
    - apply IH. exact Hm.
    - simpl. intros _. exact Hm. }
  induction ranges as [| p rest IH]; intros a sp sp' Hle.
  - simpl. unfold max_tail. cbv zeta. intros _. lra.
  - simpl.
    destruct (Qlt_le_dec (beat (wr_start p)) (beat c)) as [Hlt | Hge].
    2:{ simpl. unfold max_tail. cbv zeta. intros _. lra. }
    unfold max_body.
    destruct (Qlt_le_dec (beat a) (beat (wr_start p))) as [Hgap | Hin'].
    + cbv zeta.
      remember ((measure (wr_start p) - measure a) / MEASURES_PER_BAR)
        as d eqn:Hd.
      destruct (Qlt_le_dec (sp - d) 0) as [Hneg | Hpos];
        [simpl; intros H; lra |].
      destruct (Qlt_le_dec (sp' - d) 0) as [Hneg' | Hpos']; [lra |].
      apply Hin; [exact IH | lra].
    + apply Hin; [exact IH | exact Hle].
Qed.

(** X30.  Both propagations give no less SP for more SP put in: the most SP
    left at [end_] does not go down when [sp] goes up, as long as the bar has
    not run out on the way (a negative result says where it ran out, not how
    much is left), and the least SP left does not go down either when the
    measures of the two later positions are in the order of their beats. *)
Theorem propagation_monotone_in_sp (sd : SpData)
  (start end_ required_whammy_end : Position) (sp sp' : Q)
  (Hle : sp <= sp') :
  (0 <= propagate_sp_over_whammy_max sd start end_ sp ->
   propagate_sp_over_whammy_max sd start end_ sp
   <= propagate_sp_over_whammy_max sd start end_ sp')
  /\ ((beat required_whammy_end < beat end_ ->
       measure required_whammy_end <= measure end_) ->
      propagate_sp_over_whammy_min sd start end_ sp required_whammy_end
      <= propagate_sp_over_whammy_min sd start end_ sp' required_whammy_end).
Proof.
  split.
  - unfold propagate_sp_over_whammy_max. apply max_loop_mono. exact Hle.
  - intros Hmeas. unfold propagate_sp_over_whammy_min.
    destruct (Qlt_le_dec (beat start) (beat required_whammy_end))
      as [Hwh | Hno].
    + set (we := if Qlt_le_dec (beat required_whammy_end) (beat end_)
                 then required_whammy_end else end_).
      pose proof (max_loop_mono sd we (ranges_from sd start) start sp sp' Hle)
        as Hm.
      fold (propagate_sp_over_whammy_max sd start we sp) in Hm.
      fold (propagate_sp_over_whammy_max sd start we sp') in Hm.
      remember (propagate_sp_over_whammy_max sd start we sp) as v eqn:Hv.
      remember (propagate_sp_over_whammy_max sd start we sp') as v' eqn:Hv'.
      cbv zeta.
      destruct (Qlt_le_dec (beat required_whammy_end) (beat end_))
        as [Hrc | Hcr].
      * specialize (Hmeas Hrc).
        remember ((measure end_ - measure required_whammy_end)
                  / MEASURES_PER_BAR) as d eqn:Hd.
        assert (Hd0 : 0 <= d).
        { subst d. qconst. lra. }
        unfold std_max.
        destruct (Qlt_le_dec v 0) as [Hneg | Hpos]; qcases; lra.
      * unfold std_max.
        destruct (Qlt_le_dec v 0) as [Hneg | Hpos]; qcases; lra.
    + cbv zeta.
      destruct (Qlt_le_dec (beat start) (beat end_)).
      * remember ((measure end_ - measure start) / MEASURES_PER_BAR) as d.
        unfold std_max. qcases; lra.
      * unfold std_max. qcases; lra.
Qed.

Lemma propagation_monotone_in_sp_witness :
  (0 <= propagate_sp_over_whammy_max example_sp_data (example_position 0)
          (example_position 10) (1 # 4) ->
   propagate_sp_over_whammy_max example_sp_data (example_position 0)
     (example_position 10) (1 # 4)
   <= propagate_sp_over_whammy_max example_sp_data (example_position 0)
        (example_position 10) (1 # 2))
  /\ ((beat (example_position 6) < beat (example_position 10) ->
       measure (example_position 6) <= measure (example_position 10)) ->
      propagate_sp_over_whammy_min example_sp_data (example_position 0)
        (example_position 10) (1 # 4) (example_position 6)
      <= propagate_sp_over_whammy_min example_sp_data (example_position 0)
           (example_position 10) (1 # 2) (example_position 6)).
Proof.
  apply (propagation_monotone_in_sp example_sp_data).
  vm_compute; discriminate.
Defined.
